(** * CUPyDO: the interface manager and the VLM nodal numbering

    A shallow embedding of [cupydo/manager.py] (class [Manager]) and of
    [cupydo/interfaces/VLM.py] ([VLMSolver.getNodalIndex]).

    Python integers are unbounded: they are [Z].  The numpy integer arrays
    of the constructor hold ranks and node counts, far below the machine
    word bound: they are lists of [Z].  A Python [dict] with integer keys
    is a [gmap Z _].  An attribute read on [None] raises, so
    the constructor lives in an error monad.  A run under MPI is modelled
    in SPMD style: every rank executes the same constructor on its own
    collaborators, and a collective returns, in rank order, what each rank
    computed for it. *)

From Stdlib Require Import ZArith Lia.
From stdpp Require Import base option list list_numbers gmap strings fin_maps sorting.

Local Open Scope Z_scope.

(** ** Exceptions *)

Inductive exn : Type :=
  | AttributeError      (* attribute read on [None] *)
  | IndexError          (* list index out of range *)
  | UnboundLocalError   (* local variable read before assignment *)
  | PeerFailure.        (* a collective that another rank never joins *)

Inductive result (A : Type) : Type :=
  | Ok (a : A)
  | Raise (e : exn).
Arguments Ok {A} a.
Arguments Raise {A} e.

Global Instance result_ret : MRet result := @Ok.
Global Instance result_bind : MBind result := λ A B k r,
  match r with Ok a => k a | Raise e => Raise e end.
Global Instance result_fmap : FMap result := λ A B f r,
  match r with Ok a => Ok (f a) | Raise e => Raise e end.

Definition is_Ok {A} (r : result A) : Prop := ∃ a, r = Ok a.

(** ** VLM.py *)

Module VLM.

(** [coreSolver.data.{wing,flap,aileron}.nvert] *)
Record Surface : Type := { nvert : Z }.
Record Data : Type := { wing : Surface; flap : Surface; aileron : Surface }.
Record VLMSolver : Type := { data : Data }.

(** [VLMSolver.__init__]: the node counts. *)
Definition nNodes (self : VLMSolver) : Z :=
  nvert (wing (data self)) + nvert (flap (data self)) + nvert (aileron (data self)).
Definition nHaloNode (self : VLMSolver) : Z := 0.
Definition nPhysicalNodes (self : VLMSolver) : Z := nNodes self - nHaloNode self.

(** [VLMSolver.getNodalIndex] *)
Definition getNodalIndex (self : VLMSolver) (iVertex : Z) : Z :=
  if iVertex >? nvert (wing (data self)) + nvert (flap (data self)) then
    iVertex + 20000 - nvert (wing (data self)) - nvert (flap (data self))
  else if iVertex >? nvert (wing (data self)) then
    iVertex + 10000 - nvert (wing (data self))
  else
    iVertex.

End VLM.

(** ** manager.py: the collaborators *)

(** What the manager reads of a solver: [nNodes], [nPhysicalNodes],
    [haloNodeList] (a dict of which only the keys are read) and
    [getNodalIndex]. *)
Record Solver : Type := {
  nNodes : Z;
  nPhysicalNodes : Z;
  haloNodeList : gmap Z Z;
  getNodalIndex : Z → Z
}.

(** The two collaborators one rank passes to the constructor; either may be
    [None]. *)
Record Collaborators : Type := {
  fluidOf : option Solver;
  solidOf : option Solver
}.

(** The communicator as a rank sees it: its own rank, and the process group
    (rank [i] runs the constructor on [group !! i]). *)
Record Comm : Type := {
  Get_rank : nat;
  group : list Collaborators
}.
Definition Get_size (c : Comm) : nat := length (group c).

(** [obj.attr] where [obj] may be [None]. *)
Definition attr {A} (obj : option Solver) (field : Solver → A) : result A :=
  match obj with
  | Some s => Ok (field s)
  | None => Raise AttributeError
  end.

(** [l[i]] *)
Definition index {A} (l : list A) (i : nat) : result A :=
  match l !! i with
  | Some x => Ok x
  | None => Raise IndexError
  end.

(** [a[k]] on a Python list or numpy array, for any integer [k]: a negative
    index counts from the end. *)
Definition getitem {A} (a : list A) (k : Z) : result A :=
  if bool_decide (0 ≤ k) then index a (Z.to_nat k)
  else if bool_decide (- Z.of_nat (length a) ≤ k)
       then index a (Z.to_nat (Z.of_nat (length a) + k))
       else Raise IndexError.

(** [range(n)] *)
Definition range (n : Z) : list Z := seqZ 0 n.

(** [mpiComm.allgather(sendobj)]: rank [i] contributes [sendobj i] computed
    from its own collaborators; the call returns the contributions in rank
    order, and does not return when some rank raised before joining. *)
Fixpoint gather {A} (sendobj : nat → Collaborators → result A)
    (i : nat) (ranks : list Collaborators) : result (list A) :=
  match ranks with
  | [] => Ok []
  | p :: ranks =>
      match sendobj i p with
      | Ok v => vs ← gather sendobj (S i) ranks; Ok (v :: vs)
      | Raise _ => Raise PeerFailure
      end
  end.

Definition allgather {A} (c : Comm) (sendobj : nat → Collaborators → result A)
    : result (list A) :=
  gather sendobj 0%nat (group c).

Definition sumZ (l : list Z) : Z := foldr Z.add 0 l.

(** Modelled from the spec: [mpiAllGather] of the utilities module, which is
    not part of the sources at hand: "all-gather (collect one value/object
    from every process into an ordered sequence indexed by rank)". *)
Definition mpiAllGather (c : Comm) (value : nat → Collaborators → result Z)
    : result (list Z) :=
  allgather c value.

(** Modelled from the spec: [mpiAllReduce] of the utilities module, which is
    not part of the sources at hand: "all-reduce-sum (sum one value across
    all processes), plus a degenerate single-process fallback where all
    collectives are identity operations". *)
Definition mpiAllReduce (mpiComm : option Comm) (myid : nat) (me : Collaborators)
    (value : nat → Collaborators → result Z) : result Z :=
  match mpiComm with
  | Some c => sumZ <$> allgather c value
  | None => value myid me
  end.

(** ** manager.py: the state of a [Manager] *)

Record Manager : Type := {
  mpiComm : option Comm;
  nDim : Z;
  computationType : string;
  withFsi : bool;
  withCht : bool;
  haveFluidSolver : bool;
  nLocalFluidInterfaceNodes : Z;
  nLocalFluidInterfacePhysicalNodes : Z;
  haveFluidInterface : bool;
  fluidHaloNodesList : list (gmap Z Z);
  fluidIndexing : gmap Z Z;
  haveSolidSolver : bool;
  nLocalSolidInterfaceNodes : Z;
  nLocalSolidInterfacePhysicalNodes : Z;
  haveSolidInterface : bool;
  solidHaloNodesList : list (gmap Z Z);
  solidIndexing : gmap Z Z;
  fluidSolverProcessors : list Z;
  solidSolverProcessors : list Z;
  fluidInterfaceProcessors : list Z;
  solidInterfaceProcessors : list Z;
  nFluidInterfaceNodes : Z;
  nFluidInterfacePhysicalNodes : Z;
  nSolidInterfaceNodes : Z;
  nSolidInterfacePhysicalNodes : Z;
  fluidPhysicalInterfaceNodesDistribution : list Z;
  solidPhysicalInterfaceNodesDistribution : list Z;
  fluidGlobalIndexRange : list (Z * Z);
  solidGlobalIndexRange : list (Z * Z)
}.

(** ** [Manager.getGlobalIndex] *)

(** The body of [getGlobalIndex], on the two range lists it reads.  The
    constructor calls the method on the object under construction, when
    these two attributes are already set.  [iProc] is any integer the
    caller passes: the lists are indexed as Python does. *)
Definition globalIndexFrom (fluidRange solidRange : list (Z * Z))
    (domain : string) (iProc : Z) (iLocalVertex : Z) : result Z :=
  globalStartIndex ←
    (if bool_decide (domain = "fluid") then fst <$> getitem fluidRange iProc
     else if bool_decide (domain = "solid") then fst <$> getitem solidRange iProc
     else Raise UnboundLocalError);
  let globalIndex := globalStartIndex + iLocalVertex in
  Ok globalIndex.

(** The method proper, as a state-passing function on [self]. *)
Definition getGlobalIndex (domain : string) (iProc : Z) (iLocalVertex : Z)
    (self : Manager) : result (Z * Manager) :=
  globalIndex ← globalIndexFrom (fluidGlobalIndexRange self)
                   (solidGlobalIndexRange self) domain iProc iLocalVertex;
  Ok (globalIndex, self).

(** ** [Manager.__init__], step by step *)

(** Lines 92-110, the same block for each collaborator. *)
Definition haveSolver (solver : option Solver) : bool :=
  match solver with Some _ => true | None => false end.
Definition nLocalInterfaceNodes (solver : option Solver) : Z :=
  match solver with Some s => nNodes s | None => 0 end.
Definition haveInterface (solver : option Solver) : bool :=
  match solver with Some s => negb (nNodes s =? 0) | None => false end.

(** Lines 114-129: the rank, or the sentinel -1. *)
Definition sendBuf (have : bool) (myid : nat) : Z :=
  if have then Z.of_nat myid else -1.

(** Lines 134-137: [rcvBuf[rcvBuf != -1]]. *)
Definition withoutSentinel (rcvBuf : list Z) : list Z :=
  filter (λ x, x ≠ -1) rcvBuf.

(** [myid in processors] *)
Definition inProcessors (myid : nat) (processors : list Z) : bool :=
  bool_decide (Z.of_nat myid ∈ processors).

(** Lines 146-148: the local halo dicts. *)
Definition localHalo (myid : nat) (me : Collaborators) (solidSolverProcs : list Z)
    : result (gmap Z Z * gmap Z Z) :=
  fluidHalo ← attr (fluidOf me) haloNodeList;
  solidHalo ← (if inProcessors myid solidSolverProcs
               then attr (solidOf me) haloNodeList else Ok ∅);
  Ok (fluidHalo, solidHalo).

(** Lines 157-159: the local physical node counts. *)
Definition localPhysical (myid : nat) (me : Collaborators) (solidSolverProcs : list Z)
    : result (Z * Z) :=
  nFluid ← attr (fluidOf me) nPhysicalNodes;
  nSolid ← (if inProcessors myid solidSolverProcs
            then attr (solidOf me) nPhysicalNodes else Ok 0);
  Ok (nFluid, nSolid).

(** Lines 186-188 and 197-199: the loop summing the distribution over the
    ranks below [myid] ([iProc < myid < mpiSize], so the read is in range). *)
Definition globalIndexStartOf (distribution : list Z) (myid : nat) : Z :=
  foldl (λ globalIndexStart iProc, globalIndexStart + distribution !!! iProc)
        0 (seq 0 myid).

(** Lines 185-193: the fluid range of a rank. *)
Definition fluidRangeTemp (myid : nat) (fluidInterfaceProcs : list Z)
    (distribution : list Z) (nLocalFluidPhysical : Z) : Z * Z :=
  if inProcessors myid fluidInterfaceProcs then
    let globalIndexStart := globalIndexStartOf distribution myid in
    let globalIndexStop := globalIndexStart + nLocalFluidPhysical - 1 in
    (globalIndexStart, globalIndexStop)
  else (0, 0).

(** Lines 196-204: the solid range of a rank; the stop is computed from
    [nLocalSolidInterfaceNodes]. *)
Definition solidRangeTemp (myid : nat) (solidInterfaceProcs : list Z)
    (distribution : list Z) (nLocalSolidNodes : Z) : Z * Z :=
  if inProcessors myid solidInterfaceProcs then
    let globalIndexStart := globalIndexStartOf distribution myid in
    let globalIndexStop := globalIndexStart + nLocalSolidNodes - 1 in
    (globalIndexStart, globalIndexStop)
  else (0, 0).

(** Lines 216-224 and 226-234: one pass of the loop body, on the pair
    (indexing_temp, localIndex). *)
Definition indexingStep (solver : option Solver) (haloNodesList : list (gmap Z Z))
    (globalIndexOf : Z → result Z) (myid : nat)
    (st : gmap Z Z * Z) (iVertex : Z) : result (gmap Z Z * Z) :=
  nodeIndex ← (λ f, f iVertex) <$> attr solver getNodalIndex;
  halo ← index haloNodesList myid;
  if bool_decide (is_Some (halo !! nodeIndex)) then Ok st
  else
    g ← globalIndexOf st.2;
    Ok (<[nodeIndex := g]> st.1, st.2 + 1).

Fixpoint indexingLoop (solver : option Solver) (haloNodesList : list (gmap Z Z))
    (globalIndexOf : Z → result Z) (myid : nat)
    (vertices : list Z) (st : gmap Z Z * Z) : result (gmap Z Z * Z) :=
  match vertices with
  | [] => Ok st
  | iVertex :: vertices =>
      st' ← indexingStep solver haloNodesList globalIndexOf myid st iVertex;
      indexingLoop solver haloNodesList globalIndexOf myid vertices st'
  end.

(** Lines 216-234: both partial maps of a rank. *)
Definition localIndexing (myid : nat) (me : Collaborators)
    (fluidHalos solidHalos : list (gmap Z Z)) (fluidRange solidRange : list (Z * Z))
    : result (gmap Z Z * gmap Z Z) :=
  fluidTemp ← indexingLoop (fluidOf me) fluidHalos
                 (globalIndexFrom fluidRange solidRange "fluid" (Z.of_nat myid)) myid
                 (range (nLocalInterfaceNodes (fluidOf me))) (∅, 0);
  solidTemp ← indexingLoop (solidOf me) solidHalos
                 (globalIndexFrom fluidRange solidRange "solid" (Z.of_nat myid)) myid
                 (range (nLocalInterfaceNodes (solidOf me))) (∅, 0);
  Ok (fluidTemp.1, solidTemp.1).

(** Lines 239-244: [for ii ...: for key, value in temp[ii].items():
    indexing[key] = value]. *)
Definition mergeIndexing (indexing : gmap Z Z) (gathered : list (gmap Z Z))
    : gmap Z Z :=
  foldl (λ acc temp, map_fold (λ key value acc, <[key := value]> acc) acc temp)
        indexing gathered.

(** Lines 113-142. *)
Definition processorSets (mpiComm : option Comm)
    : result (list Z * list Z * list Z * list Z) :=
  match mpiComm with
  | Some c =>
      rcvBufFluid ← mpiAllGather c (λ i p, Ok (sendBuf (haveSolver (fluidOf p)) i));
      rcvBufSolid ← mpiAllGather c (λ i p, Ok (sendBuf (haveSolver (solidOf p)) i));
      rcvBufFluidInterface ←
        mpiAllGather c (λ i p, Ok (sendBuf (haveInterface (fluidOf p)) i));
      rcvBufSolidInterface ←
        mpiAllGather c (λ i p, Ok (sendBuf (haveInterface (solidOf p)) i));
      Ok (withoutSentinel rcvBufFluid, withoutSentinel rcvBufSolid,
          withoutSentinel rcvBufFluidInterface, withoutSentinel rcvBufSolidInterface)
  | None => Ok ([0], [0], [0], [0])
  end.

(** [Manager.__init__(FluidSolver, SolidSolver, nDim, computationType, mpiComm)].
    The calls into the C++ base class ([CManager.__init__],
    [setGlobalIndexing]), [mpiPrint], [print] and [mpiBarrier] change
    nothing the Python object reads afterwards and are left out. *)
Definition Manager_init (FluidSolver SolidSolver : option Solver) (nDim : Z)
    (computationType : string) (mpiComm : option Comm) : result Manager :=
  let me := {| fluidOf := FluidSolver; solidOf := SolidSolver |} in
  let myid := match mpiComm with Some c => Get_rank c | None => 0%nat end in
  let mpiSize := match mpiComm with Some c => Get_size c | None => 1%nat end in
  (* lines 92-110 *)
  let haveFluidSolver := haveSolver FluidSolver in
  let nLocalFluidInterfaceNodes := nLocalInterfaceNodes FluidSolver in
  let haveFluidInterface := haveInterface FluidSolver in
  let haveSolidSolver := haveSolver SolidSolver in
  let nLocalSolidInterfaceNodes := nLocalInterfaceNodes SolidSolver in
  let haveSolidInterface := haveInterface SolidSolver in
  (* lines 113-142 *)
  '(fluidSolverProcessors, solidSolverProcessors,
    fluidInterfaceProcessors, solidInterfaceProcessors) ← processorSets mpiComm;
  (* lines 146-154 *)
  '(fluidHalo, solidHalo) ← localHalo myid me solidSolverProcessors;
  fluidHaloNodesList ←
    match mpiComm with
    | Some c => allgather c (λ i p, fst <$> localHalo i p solidSolverProcessors)
    | None => Ok [∅]
    end;
  solidHaloNodesList ←
    match mpiComm with
    | Some c => allgather c (λ i p, snd <$> localHalo i p solidSolverProcessors)
    | None => Ok [∅]
    end;
  (* lines 157-159 *)
  '(nLocalFluidInterfacePhysicalNodes, nLocalSolidInterfacePhysicalNodes) ←
    localPhysical myid me solidSolverProcessors;
  (* lines 162-165 *)
  nFluidInterfaceNodes ← mpiAllReduce mpiComm myid me
    (λ i p, _ ← localPhysical i p solidSolverProcessors;
            Ok (nLocalInterfaceNodes (fluidOf p)));
  nFluidInterfacePhysicalNodes ← mpiAllReduce mpiComm myid me
    (λ i p, fst <$> localPhysical i p solidSolverProcessors);
  nSolidInterfaceNodes ← mpiAllReduce mpiComm myid me
    (λ i p, _ ← localPhysical i p solidSolverProcessors;
            Ok (nLocalInterfaceNodes (solidOf p)));
  nSolidInterfacePhysicalNodes ← mpiAllReduce mpiComm myid me
    (λ i p, snd <$> localPhysical i p solidSolverProcessors);
  (* lines 172-179 *)
  fluidDistribution ←
    match mpiComm with
    | Some c => mpiAllGather c (λ i p, fst <$> localPhysical i p solidSolverProcessors)
    | None => Ok (<[0%nat := nFluidInterfacePhysicalNodes]> (replicate mpiSize 0))
    end;
  solidDistribution ←
    match mpiComm with
    | Some c => mpiAllGather c (λ i p, snd <$> localPhysical i p solidSolverProcessors)
    | None => Ok (<[0%nat := nSolidInterfacePhysicalNodes]> (replicate mpiSize 0))
    end;
  (* lines 182-213 *)
  fluidGlobalIndexRange ←
    match mpiComm with
    | Some c =>
        allgather c (λ i p,
          '(nFluid, _) ← localPhysical i p solidSolverProcessors;
          Ok (fluidRangeTemp i fluidInterfaceProcessors fluidDistribution nFluid))
    | None => Ok [(0, nLocalFluidInterfacePhysicalNodes - 1)]
    end;
  solidGlobalIndexRange ←
    match mpiComm with
    | Some c =>
        allgather c (λ i p,
          _ ← localPhysical i p solidSolverProcessors;
          Ok (solidRangeTemp i solidInterfaceProcessors solidDistribution
                (nLocalInterfaceNodes (solidOf p))))
    | None => Ok [(0, nSolidInterfacePhysicalNodes - 1)]
    end;
  (* lines 215-234 *)
  '(fluidIndexing_temp, solidIndexing_temp) ←
    localIndexing myid me fluidHaloNodesList solidHaloNodesList
      fluidGlobalIndexRange solidGlobalIndexRange;
  (* lines 236-247 *)
  solidIndexing ←
    match mpiComm with
    | Some c =>
        mergeIndexing ∅ <$> allgather c (λ i p,
          snd <$> localIndexing i p fluidHaloNodesList solidHaloNodesList
                    fluidGlobalIndexRange solidGlobalIndexRange)
    | None => Ok solidIndexing_temp
    end;
  fluidIndexing ←
    match mpiComm with
    | Some c =>
        mergeIndexing ∅ <$> allgather c (λ i p,
          fst <$> localIndexing i p fluidHaloNodesList solidHaloNodesList
                    fluidGlobalIndexRange solidGlobalIndexRange)
    | None => Ok fluidIndexing_temp
    end;
  Ok {| mpiComm := mpiComm;
        nDim := nDim;
        computationType := computationType;
        withFsi := true;
        withCht := false;
        haveFluidSolver := haveFluidSolver;
        nLocalFluidInterfaceNodes := nLocalFluidInterfaceNodes;
        nLocalFluidInterfacePhysicalNodes := nLocalFluidInterfacePhysicalNodes;
        haveFluidInterface := haveFluidInterface;
        fluidHaloNodesList := fluidHaloNodesList;
        fluidIndexing := fluidIndexing;
        haveSolidSolver := haveSolidSolver;
        nLocalSolidInterfaceNodes := nLocalSolidInterfaceNodes;
        nLocalSolidInterfacePhysicalNodes := nLocalSolidInterfacePhysicalNodes;
        haveSolidInterface := haveSolidInterface;
        solidHaloNodesList := solidHaloNodesList;
        solidIndexing := solidIndexing;
        fluidSolverProcessors := fluidSolverProcessors;
        solidSolverProcessors := solidSolverProcessors;
        fluidInterfaceProcessors := fluidInterfaceProcessors;
        solidInterfaceProcessors := solidInterfaceProcessors;
        nFluidInterfaceNodes := nFluidInterfaceNodes;
        nFluidInterfacePhysicalNodes := nFluidInterfacePhysicalNodes;
        nSolidInterfaceNodes := nSolidInterfaceNodes;
        nSolidInterfacePhysicalNodes := nSolidInterfacePhysicalNodes;
        fluidPhysicalInterfaceNodesDistribution := fluidDistribution;
        solidPhysicalInterfaceNodesDistribution := solidDistribution;
        fluidGlobalIndexRange := fluidGlobalIndexRange;
        solidGlobalIndexRange := solidGlobalIndexRange |}.

(** ** Reading the manager per side *)

Inductive Side : Type := Fluid | Solid.

Definition domainOf (sd : Side) : string :=
  match sd with Fluid => "fluid" | Solid => "solid" end.
Definition solverOf (sd : Side) (p : Collaborators) : option Solver :=
  match sd with Fluid => fluidOf p | Solid => solidOf p end.
Definition globalIndexRangeOf (sd : Side) (m : Manager) : list (Z * Z) :=
  match sd with Fluid => fluidGlobalIndexRange m | Solid => solidGlobalIndexRange m end.
Definition indexingOf (sd : Side) (m : Manager) : gmap Z Z :=
  match sd with Fluid => fluidIndexing m | Solid => solidIndexing m end.
Definition haloNodesListOf (sd : Side) (m : Manager) : list (gmap Z Z) :=
  match sd with Fluid => fluidHaloNodesList m | Solid => solidHaloNodesList m end.
Definition interfaceProcessorsOf (sd : Side) (m : Manager) : list Z :=
  match sd with Fluid => fluidInterfaceProcessors m | Solid => solidInterfaceProcessors m end.
Definition distributionOf (sd : Side) (m : Manager) : list Z :=
  match sd with
  | Fluid => fluidPhysicalInterfaceNodesDistribution m
  | Solid => solidPhysicalInterfaceNodesDistribution m
  end.
Definition totalPhysicalOf (sd : Side) (m : Manager) : Z :=
  match sd with
  | Fluid => nFluidInterfacePhysicalNodes m
  | Solid => nSolidInterfacePhysicalNodes m
  end.

(** The indices an inclusive pair [(start, stop)] stands for. *)
Definition rangeIndices (rg : Z * Z) : list Z := seqZ rg.1 (rg.2 - rg.1 + 1).

(** ** VLM: the two vertex counts *)

(** The wing and flap vertex counts [getNodalIndex] compares with. *)
Definition wingVertices (self : VLM.VLMSolver) : Z :=
  VLM.nvert (VLM.wing (VLM.data self)).
Definition flapVertices (self : VLM.VLMSolver) : Z :=
  VLM.nvert (VLM.flap (VLM.data self)).

(** A wing of 3 vertices, a flap of 2 and an aileron of 2: positions 3 and
    4 lie on either side of the wing/flap boundary. *)
Definition smallVLM : VLM.VLMSolver :=
  {| VLM.data := {| VLM.wing := {| VLM.nvert := 3 |};
                    VLM.flap := {| VLM.nvert := 2 |};
                    VLM.aileron := {| VLM.nvert := 2 |} |} |}.

(** ** Closed forms used in the proofs *)

(** What a rank contributes for one collaborator. *)
Definition haloOf (solver : option Solver) : gmap Z Z :=
  match solver with Some s => haloNodeList s | None => ∅ end.
Definition physicalOf (solver : option Solver) : Z :=
  match solver with Some s => nPhysicalNodes s | None => 0 end.

(** The solver-native identifiers of the local vertices, in vertex order. *)
Definition nodeIds (solver : option Solver) : list Z :=
  match solver with
  | Some s => getNodalIndex s <$> range (nNodes s)
  | None => []
  end.

(** Those of them that are not keys of [halo]. *)
Definition keptIds (halo : gmap Z Z) (ids : list Z) : list Z :=
  filter (λ x, halo !! x = None) ids.
Definition physicalIds (solver : option Solver) : list Z :=
  keptIds (haloOf solver) (nodeIds solver).

(** Consecutive global indices from [g] on, given to [ids] in order. *)
Fixpoint assignFrom (g : Z) (ids : list Z) (acc : gmap Z Z) : gmap Z Z :=
  match ids with
  | [] => acc
  | x :: ids => assignFrom (g + 1) ids (<[x := g]> acc)
  end.

(** The start of the range stored for rank [i]. *)
Definition rangeStart (ranges : list (Z * Z)) (i : nat) : Z :=
  match ranges !! i with Some rg => rg.1 | None => 0 end.

(** The ranks whose collaborators satisfy [have]. *)
Definition processorsWith (have : Collaborators → bool) (w : list Collaborators)
    : list Z :=
  withoutSentinel (imap (λ i p, sendBuf (have p) i) w).

(** Per-rank pairs (start, identifiers) whose starts line up: a rank that
    has identifiers starts where the ranks before it end. *)
Definition chained (l : list (Z * list Z)) : Prop :=
  ∀ (i : nat) start ids, l !! i = Some (start, ids) →
    ids = [] ∨ start = Z.of_nat (length (concat ((take i l).*2))).

(** ** Runs, and what a built manager holds *)

(** The collaborators without which the constructor raises: under MPI the
    fluid collaborator of every rank, without MPI both collaborators. *)
Definition collaboratorsPresent (FluidSolver SolidSolver : option Solver)
    (mpiComm : option Comm) : Prop :=
  match mpiComm with
  | Some c => ∀ i p, group c !! i = Some p → is_Some (fluidOf p)
  | None => is_Some FluidSolver ∧ is_Some SolidSolver
  end.

(** The communicator's entry for the calling rank holds the collaborators
    that rank passes to the constructor. *)
Definition ownRank (FluidSolver SolidSolver : option Solver)
    (mpiComm : option Comm) : Prop :=
  match mpiComm with
  | Some c => group c !! Get_rank c
              = Some {| fluidOf := FluidSolver; solidOf := SolidSolver |}
  | None => True
  end.

(** The collaborators of all ranks of the run. *)
Definition worldOf (FluidSolver SolidSolver : option Solver)
    (mpiComm : option Comm) : list Collaborators :=
  match mpiComm with
  | Some c => group c
  | None => [ {| fluidOf := FluidSolver; solidOf := SolidSolver |} ]
  end.

(** The halo dict the manager holds for a rank: the collaborator's under
    MPI, the empty dict without MPI (lines 149-154). *)
Definition haloSeen (mpiComm : option Comm) (solver : option Solver) : gmap Z Z :=
  match mpiComm with Some _ => haloOf solver | None => ∅ end.

(** The range a rank computes for one side under MPI. *)
Definition rangeTempOf (sd : Side) (i : nat) (procs distribution : list Z)
    (p : Collaborators) : Z * Z :=
  match sd with
  | Fluid => fluidRangeTemp i procs distribution (physicalOf (fluidOf p))
  | Solid => solidRangeTemp i procs distribution (nLocalInterfaceNodes (solidOf p))
  end.

(** What a successfully built manager holds, side by side. *)
Record built (FluidSolver SolidSolver : option Solver) (mpiComm : option Comm)
    (m : Manager) : Prop := {
  built_halos : ∀ sd,
    haloNodesListOf sd m
    = (haloSeen mpiComm ∘ solverOf sd) <$> worldOf FluidSolver SolidSolver mpiComm;
  built_distribution : ∀ sd,
    distributionOf sd m
    = (physicalOf ∘ solverOf sd) <$> worldOf FluidSolver SolidSolver mpiComm;
  built_total : ∀ sd,
    totalPhysicalOf sd m = sumZ (distributionOf sd m);
  built_processors : ∀ sd,
    interfaceProcessorsOf sd m
    = match mpiComm with
      | Some c => processorsWith (haveInterface ∘ solverOf sd) (group c)
      | None => [0]
      end;
  built_range : ∀ sd,
    globalIndexRangeOf sd m
    = match mpiComm with
      | Some c => imap (λ i p, rangeTempOf sd i (interfaceProcessorsOf sd m)
                                 (distributionOf sd m) p) (group c)
      | None => [(0, physicalOf (solverOf sd
                       {| fluidOf := FluidSolver; solidOf := SolidSolver |}) - 1)]
      end;
  built_indexing : ∀ sd,
    indexingOf sd m
    = mergeIndexing ∅
        (imap (λ i p, assignFrom (rangeStart (globalIndexRangeOf sd m) i)
                        (keptIds (haloSeen mpiComm (solverOf sd p))
                                 (nodeIds (solverOf sd p))) ∅)
              (worldOf FluidSolver SolidSolver mpiComm))
}.

(** The identifiers a rank inserts for a side, in vertex order. *)
Definition insertedIds (mpiComm : option Comm) (solver : option Solver) : list Z :=
  keptIds (haloSeen mpiComm solver) (nodeIds solver).

(** Every rank reports as its physical count the number of identifiers it
    inserts. *)
Definition countsInserted (sd : Side) (mpiComm : option Comm)
    (w : list Collaborators) : Prop :=
  ∀ i p, w !! i = Some p →
    physicalOf (solverOf sd p)
    = Z.of_nat (length (insertedIds mpiComm (solverOf sd p))).

(** ** The decomposition contract *)

(** What the manager takes for granted about one side of a run: every rank
    reports as physical count the number of its vertices that are not in
    its halo set; a physical node has one identifier and one owner; a halo
    identifier of a rank is a physical node of another rank. *)
Record decomposition (sd : Side) (w : list Collaborators) : Prop := {
  counts_match : ∀ i p, w !! i = Some p →
    physicalOf (solverOf sd p)
    = Z.of_nat (length (physicalIds (solverOf sd p)));
  owned_once : NoDup (concat ((physicalIds ∘ solverOf sd) <$> w));
  halo_owned_elsewhere : ∀ i p x, w !! i = Some p →
    is_Some (haloOf (solverOf sd p) !! x) →
    ∃ j q, j ≠ i ∧ w !! j = Some q ∧ x ∈ physicalIds (solverOf sd q)
}.

(** ** Scenarios *)

(** A collaborator whose vertex [i] has identifier [first + i]. *)
Definition solverFrom (first n physical : Z) (halo : gmap Z Z) : Solver :=
  {| nNodes := n; nPhysicalNodes := physical; haloNodeList := halo;
     getNodalIndex := λ iVertex, first + iVertex |}.

(** Two ranks.  On the fluid side rank 0 has the identifiers 10, 11, 12 and
    marks 12 as halo; rank 1 owns 12 and 13.  A solid collaborator with
    three nodes sits on rank 0 only. *)
Definition haloRank0 : Collaborators :=
  {| fluidOf := Some (solverFrom 10 3 2 {[ 12 := 2 ]});
     solidOf := Some (solverFrom 0 3 3 ∅) |}.
Definition haloRank1 : Collaborators :=
  {| fluidOf := Some (solverFrom 12 2 2 ∅); solidOf := None |}.
Definition haloWorld : list Collaborators := [haloRank0; haloRank1].
Definition haloComm (rank : nat) : Comm :=
  {| Get_rank := rank; group := haloWorld |}.

(** ** A run with stray halo identifiers *)

(** A one-rank MPI run whose fluid collaborator has three vertices 0, 1, 2
    and a halo set naming the identifier 999. *)
Definition strayHaloRank : Collaborators :=
  {| fluidOf := Some (solverFrom 0 3 3 {[ 999 := 0 ]});
     solidOf := Some (solverFrom 0 3 3 {[ -5 := 0 ]}) |}.
Definition strayHaloComm : Comm := {| Get_rank := 0; group := [strayHaloRank] |}.

(** Some halo identifier of [solver] is not below its node count. *)
Definition haloOutOfBound (solver : Solver) : Prop :=
  ∃ x, is_Some (haloNodeList solver !! x) ∧ ¬ (0 ≤ x < nNodes solver).

(** ** The stop of a range *)

(** What the stop of a range is computed from: the local physical count,
    except on the solid side under MPI, where line 200 takes the local node
    count. *)
Definition stopCount (sd : Side) (mpiComm : option Comm) (p : Collaborators) : Z :=
  match mpiComm, sd with
  | Some _, Solid => nLocalInterfaceNodes (solidOf p)
  | _, _ => physicalOf (solverOf sd p)
  end.

(** ** Three ranks with 4, 0 and 6 physical fluid nodes *)

Definition idleRank0 : Collaborators :=
  {| fluidOf := Some (solverFrom 100 4 4 ∅); solidOf := None |}.
Definition idleRank1 : Collaborators :=
  {| fluidOf := Some (solverFrom 0 0 0 ∅); solidOf := None |}.
Definition idleRank2 : Collaborators :=
  {| fluidOf := Some (solverFrom 200 6 6 ∅); solidOf := None |}.
Definition idleWorld : list Collaborators := [idleRank0; idleRank1; idleRank2].
Definition idleComm (rank : nat) : Comm := {| Get_rank := rank; group := idleWorld |}.

(** ** Two ranks whose solid collaborators share a node *)

(** Two ranks whose solid collaborators share node 12: rank 0 has the
    identifiers 10, 11, 12 with 12 as halo (2 physical nodes), rank 1 owns
    12 and 13. *)
Definition solidHaloRank0 : Collaborators :=
  {| fluidOf := Some (solverFrom 0 2 2 ∅);
     solidOf := Some (solverFrom 10 3 2 {[ 12 := 2 ]}) |}.
Definition solidHaloRank1 : Collaborators :=
  {| fluidOf := Some (solverFrom 2 2 2 ∅);
     solidOf := Some (solverFrom 12 2 2 ∅) |}.
Definition solidHaloComm (rank : nat) : Comm :=
  {| Get_rank := rank; group := [solidHaloRank0; solidHaloRank1] |}.

(** ** The ranges as a partition *)

(** The indices the ranks listed in [procs] own, rank after rank. *)
Definition ownedIndices (procs : list Z) (ranges : list (Z * Z)) : list Z :=
  concat (imap (λ i rg, if inProcessors i procs then rangeIndices rg else [])
               ranges).

(** The ranges, rank after rank, enumerate 0, 1, ..., total - 1: they are
    pairwise disjoint, contiguous in rank order, and cover exactly that
    interval. *)
Definition partitions (ranges : list (Z * Z)) (total : Z) : Prop :=
  concat (rangeIndices <$> ranges) = seqZ 0 total.

(** The physical counts are sound: none is negative, and a collaborator
    without interface nodes reports none. *)
Definition soundCounts (sd : Side) (w : list Collaborators) : Prop :=
  ∀ i p s, w !! i = Some p → solverOf sd p = Some s →
    0 ≤ nPhysicalNodes s ∧ (nNodes s = 0 → nPhysicalNodes s = 0).

(** Under MPI no solid collaborator has halo nodes. *)
Definition noSolidHaloUnderMPI (mpiComm : option Comm) : Prop :=
  match mpiComm with
  | Some c => ∀ i p s, group c !! i = Some p → solidOf p = Some s →
                nNodes s = nPhysicalNodes s
  | None => True
  end.

(** ** The partial map of a rank *)

(** The partial map of one side, out of the pair a rank computes. *)
Definition partialOf (sd : Side) (temps : gmap Z Z * gmap Z Z) : gmap Z Z :=
  match sd with Fluid => temps.1 | Solid => temps.2 end.

(** ** One process against several *)

(** The same three fluid nodes 10, 11, 12: held by one process, or split
    over two ranks with node 12 on rank 0 and nodes 10, 11 on rank 1. *)
Definition wholeFluid : Solver := solverFrom 10 3 3 ∅.
Definition wholeSolid : Solver := solverFrom 0 1 1 ∅.
Definition splitRank0 : Collaborators :=
  {| fluidOf := Some (solverFrom 12 1 1 ∅); solidOf := Some (solverFrom 0 1 1 ∅) |}.
Definition splitRank1 : Collaborators :=
  {| fluidOf := Some (solverFrom 10 2 2 ∅); solidOf := None |}.
Definition splitComm (rank : nat) : Comm :=
  {| Get_rank := rank; group := [splitRank0; splitRank1] |}.

(** ** manager.py: the accessors *)

Definition getNumberOfFluidInterfaceNodes (self : Manager) : Z :=
  nFluidInterfacePhysicalNodes self.
Definition getNumberOfLocalFluidInterfaceNodes (self : Manager) : Z :=
  nLocalFluidInterfacePhysicalNodes self.
Definition getNumberOfSolidInterfaceNodes (self : Manager) : Z :=
  nSolidInterfacePhysicalNodes self.
Definition getNumberOfLocalSolidInterfaceNodes (self : Manager) : Z :=
  nLocalSolidInterfacePhysicalNodes self.
Definition getSolidSolverProcessors (self : Manager) : list Z :=
  solidSolverProcessors self.
Definition getSolidInterfaceProcessors (self : Manager) : list Z :=
  solidInterfaceProcessors self.
Definition getFluidInterfaceProcessors (self : Manager) : list Z :=
  fluidInterfaceProcessors self.
Definition getSolidPhysicalInterfaceNodesDistribution (self : Manager) : list Z :=
  solidPhysicalInterfaceNodesDistribution self.
Definition getFluidPhysicalInterfaceNodesDistribution (self : Manager) : list Z :=
  fluidPhysicalInterfaceNodesDistribution self.
Definition getSolidGlobalIndexRange (self : Manager) : list (Z * Z) :=
  solidGlobalIndexRange self.
Definition getFluidGlobalIndexRange (self : Manager) : list (Z * Z) :=
  fluidGlobalIndexRange self.
Definition getFluidHaloNodesList (self : Manager) : list (gmap Z Z) :=
  fluidHaloNodesList self.
Definition getSolidHaloNodesList (self : Manager) : list (gmap Z Z) :=
  solidHaloNodesList self.
Definition getFluidIndexing (self : Manager) : gmap Z Z := fluidIndexing self.
Definition getSolidIndexing (self : Manager) : gmap Z Z := solidIndexing self.
Definition getnDim (self : Manager) : Z := nDim self.
Definition getComputationType (self : Manager) : string := computationType self.
Definition getMPIComm (self : Manager) : option Comm := mpiComm self.

(** ** Reading the remaining attributes per side *)

Definition solverProcessorsOf (sd : Side) (m : Manager) : list Z :=
  match sd with Fluid => fluidSolverProcessors m | Solid => solidSolverProcessors m end.
Definition totalNodesOf (sd : Side) (m : Manager) : Z :=
  match sd with Fluid => nFluidInterfaceNodes m | Solid => nSolidInterfaceNodes m end.
Definition localNodesOf (sd : Side) (m : Manager) : Z :=
  match sd with
  | Fluid => nLocalFluidInterfaceNodes m
  | Solid => nLocalSolidInterfaceNodes m
  end.
Definition localPhysicalOf (sd : Side) (m : Manager) : Z :=
  match sd with
  | Fluid => getNumberOfLocalFluidInterfaceNodes m
  | Solid => getNumberOfLocalSolidInterfaceNodes m
  end.
Definition hasSolverOf (sd : Side) (m : Manager) : bool :=
  match sd with Fluid => haveFluidSolver m | Solid => haveSolidSolver m end.
Definition hasInterfaceOf (sd : Side) (m : Manager) : bool :=
  match sd with Fluid => haveFluidInterface m | Solid => haveSolidInterface m end.

(** The rank of the calling process (lines 60-67). *)
Definition myidOf (mpiComm : option Comm) : nat :=
  match mpiComm with Some c => Get_rank c | None => 0%nat end.

(** The attributes of a built manager that [built] does not describe. *)
Record builtRest (FluidSolver SolidSolver : option Solver) (nDim0 : Z)
    (computationType0 : string) (mpiComm0 : option Comm) (m : Manager) : Prop := {
  rest_mpiComm : getMPIComm m = mpiComm0;
  rest_nDim : getnDim m = nDim0;
  rest_computationType : getComputationType m = computationType0;
  rest_withFsi : withFsi m = true;
  rest_withCht : withCht m = false;
  rest_hasSolver : ∀ sd,
    hasSolverOf sd m
    = haveSolver (solverOf sd {| fluidOf := FluidSolver; solidOf := SolidSolver |});
  rest_hasInterface : ∀ sd,
    hasInterfaceOf sd m
    = haveInterface (solverOf sd {| fluidOf := FluidSolver; solidOf := SolidSolver |});
  rest_localNodes : ∀ sd,
    localNodesOf sd m
    = nLocalInterfaceNodes
        (solverOf sd {| fluidOf := FluidSolver; solidOf := SolidSolver |});
  rest_localPhysical : ∀ sd,
    localPhysicalOf sd m
    = physicalOf (solverOf sd {| fluidOf := FluidSolver; solidOf := SolidSolver |});
  rest_solverProcessors : ∀ sd,
    solverProcessorsOf sd m
    = match mpiComm0 with
      | Some c => processorsWith (haveSolver ∘ solverOf sd) (group c)
      | None => [0]
      end;
  rest_totalNodes : ∀ sd,
    totalNodesOf sd m
    = sumZ ((nLocalInterfaceNodes ∘ solverOf sd)
              <$> worldOf FluidSolver SolidSolver mpiComm0)
}.

(** A VLM model whose wing and flap both exceed the band width: 10002 wing
    vertices and 10002 flap vertices. *)
Definition wideVLM : VLM.VLMSolver :=
  {| VLM.data := {| VLM.wing := {| VLM.nvert := 10002 |};
                    VLM.flap := {| VLM.nvert := 10002 |};
                    VLM.aileron := {| VLM.nvert := 4 |} |} |}.

(** ** VLM.py: the calls on the core solver *)

(** A loop whose body may raise. *)
Fixpoint foldM {S A} (body : S → A → result S) (l : list A) (s : S) : result S :=
  match l with
  | [] => Ok s
  | a :: l => s' ← body s a; foldM body l s'
  end.

Module VLMCore.

(** The three coordinates: [dX], [dY], [dZ] and [dXv], [dYv], [dZv]. *)
Inductive Axis : Type := AxisX | AxisY | AxisZ.

Definition axis_eqb (a b : Axis) : bool :=
  match a, b with
  | AxisX, AxisX | AxisY, AxisY | AxisZ, AxisZ => true
  | _, _ => false
  end.

(** The float literals 0.75, 0.25, 1.2 and -0.2 of
    [applyNodalDisplacements]. *)
Inductive Literal : Type := lit_0_75 | lit_0_25 | lit_1_2 | lit_minus_0_2.

(** The calls [VLMSolver] makes, in the order it makes them.  Floats are
    kept abstract: [float] is their type. *)
Inductive Call (float : Type) : Type :=
  | d (axis : Axis) (kk : Z) (v : float)    (* coreSolver.dX/dY/dZ(kk, v) *)
  | dv (axis : Axis) (kk : Z) (v : float)   (* coreSolver.dXv/dYv/dZv(kk, v) *)
  | coreRun                                 (* coreSolver.run() *)
  | coreUpdate                              (* coreSolver.update() *)
  | baseUpdate (dt : float)                 (* FluidSolver.update(self, dt) *)
  | setCurrentState.                        (* self.__setCurrentState() *)
Arguments d {float} axis kk v.
Arguments dv {float} axis kk v.
Arguments coreRun {float}.
Arguments coreUpdate {float}.
Arguments baseUpdate {float} dt.
Arguments setCurrentState {float}.

(** [coreSolver.m] and [coreSolver.n]. *)
Record CoreSolver : Type := { m : Z; n : Z }.

(** [dX(kk, dx[kk]); dY(kk, dy[kk]); dZ(kk, dz[kk])] *)
Definition vertexCalls {float} (dx dy dz : list float) (kk : Z)
    (calls : list (Call float)) : result (list (Call float)) :=
  x ← getitem dx kk;
  let calls := calls ++ [d AxisX kk x] in
  y ← getitem dy kk;
  let calls := calls ++ [d AxisY kk y] in
  z ← getitem dz kk;
  Ok (calls ++ [d AxisZ kk z]).

(** [dXv(target, lit*dx[src]); dYv(target, lit*dy[src]);
    dZv(target, lit*dz[src])] *)
Definition collocationCalls {float} (fmul : Literal → float → float)
    (lit : Literal) (dx dy dz : list float) (target src : Z)
    (calls : list (Call float)) : result (list (Call float)) :=
  x ← getitem dx src;
  let calls := calls ++ [dv AxisX target (fmul lit x)] in
  y ← getitem dy src;
  let calls := calls ++ [dv AxisY target (fmul lit y)] in
  z ← getitem dz src;
  Ok (calls ++ [dv AxisZ target (fmul lit z)]).

(** Lines 120-133: the body of the loop over [jj], on the pair (kk, calls). *)
Definition interiorStep {float} (fmul : Literal → float → float)
    (dx dy dz : list float) (n ii : Z)
    (st : Z * list (Call float)) (jj : Z) : result (Z * list (Call float)) :=
  let kk := ii * n + jj in
  calls ← vertexCalls dx dy dz kk st.2;
  calls ← collocationCalls fmul lit_0_75 dx dy dz kk kk calls;
  calls ← collocationCalls fmul lit_0_25 dx dy dz (kk - 1) kk calls;
  Ok (kk, calls).

(** Lines 110-150: the body of the loop over [ii]. *)
Definition rowStep {float} (fmul : Literal → float → float)
    (dx dy dz : list float) (n : Z)
    (calls : list (Call float)) (ii : Z) : result (list (Call float)) :=
  let kk := ii * n in
  calls ← vertexCalls dx dy dz kk calls;
  calls ← collocationCalls fmul lit_0_75 dx dy dz kk kk calls;
  st ← foldM (interiorStep fmul dx dy dz n ii) (seqZ 1 (n - 1 - 1)) (kk, calls);
  let kk := st.1 + 1 in
  calls ← vertexCalls dx dy dz kk st.2;
  calls ← collocationCalls fmul lit_0_25 dx dy dz (kk - 1) kk calls;
  calls ← collocationCalls fmul lit_1_2 dx dy dz kk kk calls;
  collocationCalls fmul lit_minus_0_2 dx dy dz kk (kk - 1) calls.

(** [VLMSolver.applyNodalDisplacements]: the calls made on the core solver
    (the other arguments of the method are not read). *)
Definition applyNodalDisplacements {float} (fmul : Literal → float → float)
    (coreSolver : CoreSolver) (dx dy dz : list float)
    : result (list (Call float)) :=
  foldM (rowStep fmul dx dy dz (n coreSolver)) (range (m coreSolver)) [].

(** The state [run] reads and writes: the flag [isRun], and the calls made
    so far. *)
Record State (float : Type) : Type := {
  isRun : bool;
  calls : list (Call float)
}.
Arguments isRun {float} s.
Arguments calls {float} s.

(** [VLMSolver.__init__] sets [isRun] to [False]. *)
Definition initialState {float} : State float := {| isRun := false; calls := [] |}.

(** [VLMSolver.update] *)
Definition update {float} (dt : float) (self : State float) : State float :=
  {| isRun := isRun self;
     calls := calls self ++ [baseUpdate dt; coreUpdate] |}.

(** [VLMSolver.run]; [fsub t2 t1] is the float [t2 - t1]. *)
Definition run {float} (fsub : float → float → float) (t1 t2 : float)
    (self : State float) : State float :=
  let self := if isRun self then update (fsub t2 t1) self
              else {| isRun := true; calls := calls self |} in
  {| isRun := isRun self;
     calls := calls self ++ [coreRun; setCurrentState] |}.

End VLMCore.

(** The vertex moves [d axis kk v] of one axis among [calls], as pairs
    (kk, v). *)
Definition movesOn {float} (axis : VLMCore.Axis) (calls : list (VLMCore.Call float))
    : list (Z * float) :=
  omap (λ c, match c with
             | VLMCore.d a kk v =>
                 if VLMCore.axis_eqb a axis then Some (kk, v) else None
             | _ => None
             end) calls.

(** The time steps passed to [FluidSolver.update] among [calls]. *)
Definition updatesIn {float} (calls : list (VLMCore.Call float)) : list float :=
  omap (λ c, match c with VLMCore.baseUpdate dt => Some dt | _ => None end) calls.

(** How often the core solver was run among [calls]. *)
Definition runsIn {float} (calls : list (VLMCore.Call float)) : nat :=
  length (omap (λ c, match c with VLMCore.coreRun => Some c | _ => None end) calls).

(** The displacement arrays of one axis. *)
Definition arrayOn {A} (axis : VLMCore.Axis) (dx dy dz : A) : A :=
  match axis with
  | VLMCore.AxisX => dx
  | VLMCore.AxisY => dy
  | VLMCore.AxisZ => dz
  end.

(** * Theorems *)

(** ** VLM: the nodal numbering *)

Section VLMNumbering.
Variable self : VLM.VLMSolver.

Lemma getNodalIndex_wing i :
  i ≤ wingVertices self + flapVertices self → i ≤ wingVertices self →
  VLM.getNodalIndex self i = i.
Proof.
  intros H1 H2. unfold VLM.getNodalIndex.
  fold (wingVertices self) (flapVertices self).
  destruct (Z.gtb_spec i (wingVertices self + flapVertices self)); [lia|].
  destruct (Z.gtb_spec i (wingVertices self)); [lia|]. reflexivity.
Qed.

Lemma getNodalIndex_flap i :
  i ≤ wingVertices self + flapVertices self → wingVertices self < i →
  VLM.getNodalIndex self i = i + 10000 - wingVertices self.
Proof.
  intros H1 H2. unfold VLM.getNodalIndex.
  fold (wingVertices self) (flapVertices self).
  destruct (Z.gtb_spec i (wingVertices self + flapVertices self)); [lia|].
  destruct (Z.gtb_spec i (wingVertices self)); [|lia]. reflexivity.
Qed.

Lemma getNodalIndex_aileron i :
  wingVertices self + flapVertices self < i →
  VLM.getNodalIndex self i = i + 20000 - wingVertices self - flapVertices self.
Proof.
  intros H1. unfold VLM.getNodalIndex.
  fold (wingVertices self) (flapVertices self).
  destruct (Z.gtb_spec i (wingVertices self + flapVertices self)); [|lia].
  reflexivity.
Qed.

(** The three bands: at most the wing count; above 10000 and at most 10000
    plus the flap count; above 20000. *)
Lemma getNodalIndex_band i :
  (i ≤ wingVertices self + flapVertices self ∧ i ≤ wingVertices self
   ∧ VLM.getNodalIndex self i = i)
  ∨ (i ≤ wingVertices self + flapVertices self ∧ wingVertices self < i
     ∧ VLM.getNodalIndex self i = i + 10000 - wingVertices self
     ∧ 10000 < VLM.getNodalIndex self i ≤ 10000 + flapVertices self)
  ∨ (wingVertices self + flapVertices self < i
     ∧ VLM.getNodalIndex self i = i + 20000 - wingVertices self - flapVertices self
     ∧ 20000 < VLM.getNodalIndex self i).
Proof.
  destruct (Z_le_gt_dec i (wingVertices self + flapVertices self)) as [H1|H1].
  - destruct (Z_le_gt_dec i (wingVertices self)) as [H2|H2].
    + left. auto using getNodalIndex_wing.
    + right; left. rewrite getNodalIndex_flap by lia. repeat split; lia.
  - right; right. rewrite getNodalIndex_aileron by lia. repeat split; lia.
Qed.

(** C10: with at most 10000 wing vertices and at most 10000 flap
    vertices, two distinct non-negative vertex positions never get the
    same nodal index. *)
Theorem getNodalIndex_injective (i j : Z) :
  0 ≤ i → 0 ≤ j → i ≠ j →
  VLM.nvert (VLM.wing (VLM.data self)) ≤ 10000 →
  VLM.nvert (VLM.flap (VLM.data self)) ≤ 10000 →
  VLM.getNodalIndex self i ≠ VLM.getNodalIndex self j.
Proof.
  intros Hi Hj Hne HW HF.
  fold (wingVertices self) in HW. fold (flapVertices self) in HF.
  destruct (getNodalIndex_band i) as [(?&?&Ei)|[(?&?&Ei&?)|(?&Ei&?)]];
    destruct (getNodalIndex_band j) as [(?&?&Ej)|[(?&?&Ej&?)|(?&Ej&?)]];
    lia.
Qed.

End VLMNumbering.

Lemma getNodalIndex_injective_witness :
  VLM.getNodalIndex smallVLM 3 ≠ VLM.getNodalIndex smallVLM 4.
Proof.
  apply (getNodalIndex_injective smallVLM 3 4); simpl; lia.
Defined.

(** ** The accessor [getGlobalIndex] *)

Lemma getitem_of_nat {A} (a : list A) (i : nat) :
  getitem a (Z.of_nat i) = index a i.
Proof.
  unfold getitem. rewrite bool_decide_true by lia. by rewrite Nat2Z.id.
Qed.

Lemma globalIndexFrom_Ok (sd : Side) fluidRange solidRange (iProc : nat) k rg :
  (match sd with Fluid => fluidRange | Solid => solidRange end) !! iProc = Some rg →
  globalIndexFrom fluidRange solidRange (domainOf sd) (Z.of_nat iProc) k
  = Ok (rg.1 + k).
Proof.
  intros H. unfold globalIndexFrom. rewrite !getitem_of_nat. unfold index.
  destruct sd; simpl in *; by rewrite H.
Qed.

(** C8: for either side, a rank that has a stored range (passed as the
    non-negative integer it is) and any local index [k] (so in particular
    every [k] below the rank's local physical count), [getGlobalIndex]
    returns the start of the stored range plus [k] and hands back the
    manager it was given, unchanged. *)
Theorem getGlobalIndex_is_start_plus_k (sd : Side) (self : Manager)
    (iProc : nat) (k : Z) (rg : Z * Z) :
  globalIndexRangeOf sd self !! iProc = Some rg →
  getGlobalIndex (domainOf sd) (Z.of_nat iProc) k self = Ok (rg.1 + k, self).
Proof.
  intros H. unfold getGlobalIndex.
  rewrite (globalIndexFrom_Ok sd _ _ _ _ rg); [reflexivity|].
  by destruct sd.
Qed.

(** ** The error monad *)

Lemma bind_Ok {A B} (r : result A) (k : A → result B) b :
  r ≫= k = Ok b → ∃ a, r = Ok a ∧ k a = Ok b.
Proof. destruct r as [a|e]; [|discriminate]. intros H. by exists a. Qed.

Lemma fmap_Ok {A B} (f : A → B) (r : result A) b :
  f <$> r = Ok b → ∃ a, r = Ok a ∧ b = f a.
Proof. destruct r as [a|e]; [|discriminate]. intros [= <-]. by exists a. Qed.

(** ** Collectives *)

Lemma gather_Ok {A} (sendobj : nat → Collaborators → result A)
    (f : nat → Collaborators → A) ranks k :
  (∀ i p, ranks !! i = Some p → sendobj (k + i)%nat p = Ok (f (k + i)%nat p)) →
  gather sendobj k ranks = Ok (imap (λ i, f (k + i)%nat) ranks).
Proof.
  revert k. induction ranks as [|p ranks IH]; intros k H; [reflexivity|].
  simpl. pose proof (H 0%nat p eq_refl) as H0. rewrite Nat.add_0_r in H0.
  rewrite H0, (IH (S k)).
  - simpl. rewrite Nat.add_0_r. do 2 f_equal.
    apply imap_ext. intros i x _. simpl. f_equal. lia.
  - intros i q Hq. replace (S k + i)%nat with (k + S i)%nat by lia.
    by apply H.
Qed.

Lemma gather_inv {A} (sendobj : nat → Collaborators → result A) ranks k vs :
  gather sendobj k ranks = Ok vs →
  ∀ i p, ranks !! i = Some p → is_Ok (sendobj (k + i)%nat p).
Proof.
  revert k vs. induction ranks as [|q ranks IH]; intros k vs H i p Hp; [done|].
  simpl in H. destruct (sendobj k q) as [v|e] eqn:E; [|discriminate].
  apply bind_Ok in H as (vs' & Hvs & _).
  destruct i as [|i]; simpl in Hp.
  - injection Hp as <-. rewrite Nat.add_0_r. by exists v.
  - replace (k + S i)%nat with (S k + i)%nat by lia. by eapply IH.
Qed.

Lemma allgather_Ok {A} c (sendobj : nat → Collaborators → result A) f :
  (∀ i p, group c !! i = Some p → sendobj i p = Ok (f i p)) →
  allgather c sendobj = Ok (imap f (group c)).
Proof. intros H. unfold allgather. by rewrite (gather_Ok _ f). Qed.

Lemma allgather_inv {A} c (sendobj : nat → Collaborators → result A) vs :
  allgather c sendobj = Ok vs →
  ∀ i p, group c !! i = Some p → is_Ok (sendobj i p).
Proof. intros H i p Hp. by apply (gather_inv _ _ _ _ H i p Hp). Qed.

Lemma allgather_pure {A} c (f : nat → Collaborators → A) :
  allgather c (λ i p, Ok (f i p)) = Ok (imap f (group c)).
Proof. by apply allgather_Ok. Qed.

(** ** The processor sets *)

Lemma processorSets_mpi c :
  processorSets (Some c) =
  Ok (processorsWith (haveSolver ∘ fluidOf) (group c),
      processorsWith (haveSolver ∘ solidOf) (group c),
      processorsWith (haveInterface ∘ fluidOf) (group c),
      processorsWith (haveInterface ∘ solidOf) (group c)).
Proof.
  unfold processorSets, mpiAllGather. by rewrite !allgather_pure.
Qed.

Lemma elem_of_processorsWith have w (i : nat) :
  Z.of_nat i ∈ processorsWith have w ↔ ∃ p, w !! i = Some p ∧ have p = true.
Proof.
  unfold processorsWith, withoutSentinel.
  rewrite list_elem_of_filter, list_elem_of_lookup. split.
  - intros [Hne [j Hj]]. rewrite list_lookup_imap in Hj.
    destruct (w !! j) as [q|] eqn:Hq; [|done]. simpl in Hj.
    injection Hj as Hj. unfold sendBuf in Hj.
    destruct (have q) eqn:Hh; [|lia].
    apply Nat2Z.inj in Hj as ->. eauto.
  - intros (p & Hp & Hh). split; [lia|].
    exists i. rewrite list_lookup_imap, Hp. simpl. unfold sendBuf. by rewrite Hh.
Qed.

Lemma inProcessors_processorsWith have w i p :
  w !! i = Some p → inProcessors i (processorsWith have w) = have p.
Proof.
  intros Hp. unfold inProcessors. destruct (have p) eqn:Hh.
  - apply bool_decide_eq_true_2, elem_of_processorsWith. eauto.
  - apply bool_decide_eq_false_2. rewrite elem_of_processorsWith.
    intros (q & Hq & Hhq). congruence.
Qed.

Lemma inProcessors_zero : inProcessors 0 [0] = true.
Proof. reflexivity. Qed.

(** ** The attribute reads *)

Lemma localHalo_mpi w i p s :
  w !! i = Some p → fluidOf p = Some s →
  localHalo i p (processorsWith (haveSolver ∘ solidOf) w)
  = Ok (haloOf (fluidOf p), haloOf (solidOf p)).
Proof.
  intros Hp Hs. unfold localHalo.
  rewrite (inProcessors_processorsWith _ _ _ _ Hp), Hs. simpl.
  by destruct (solidOf p).
Qed.

Lemma localPhysical_mpi w i p s :
  w !! i = Some p → fluidOf p = Some s →
  localPhysical i p (processorsWith (haveSolver ∘ solidOf) w)
  = Ok (physicalOf (fluidOf p), physicalOf (solidOf p)).
Proof.
  intros Hp Hs. unfold localPhysical.
  rewrite (inProcessors_processorsWith _ _ _ _ Hp), Hs. simpl.
  by destruct (solidOf p).
Qed.

(** ** The prefix sum *)

Lemma sumZ_app l1 l2 : sumZ (l1 ++ l2) = sumZ l1 + sumZ l2.
Proof. unfold sumZ. induction l1 as [|x l1 IH]; simpl; lia. Qed.

Lemma globalIndexStartOf_S distribution i :
  globalIndexStartOf distribution (S i)
  = globalIndexStartOf distribution i + distribution !!! i.
Proof.
  unfold globalIndexStartOf. rewrite seq_S, foldl_app. reflexivity.
Qed.

Lemma globalIndexStartOf_take distribution i :
  (i ≤ length distribution)%nat →
  globalIndexStartOf distribution i = sumZ (take i distribution).
Proof.
  induction i as [|i IH]; intros Hi.
  - by rewrite take_0.
  - rewrite globalIndexStartOf_S, IH by lia.
    destruct (lookup_lt_is_Some_2 distribution i) as [d Hd]; [lia|].
    rewrite (take_S_r _ _ d Hd), sumZ_app, (list_lookup_total_correct _ _ _ Hd).
    unfold sumZ at 3. simpl. lia.
Qed.

(** ** The loop that builds a partial map *)

Lemma keptIds_cons_halo halo x ids :
  is_Some (halo !! x) → keptIds halo (x :: ids) = keptIds halo ids.
Proof.
  intros [v Hv]. unfold keptIds. rewrite filter_cons_False; [done|]. congruence.
Qed.

Lemma keptIds_cons_kept halo x ids :
  ¬ is_Some (halo !! x) → keptIds halo (x :: ids) = x :: keptIds halo ids.
Proof.
  intros Hx. unfold keptIds. rewrite filter_cons_True; [done|].
  destruct (halo !! x) eqn:E; [|done]. destruct Hx; eauto.
Qed.

Lemma keptIds_empty ids : keptIds ∅ ids = ids.
Proof.
  induction ids as [|x ids IH]; [done|].
  rewrite keptIds_cons_kept, IH; [done|].
  rewrite lookup_empty. by intros [? ?].
Qed.

Lemma keptIds_app halo l1 l2 :
  keptIds halo (l1 ++ l2) = keptIds halo l1 ++ keptIds halo l2.
Proof. apply filter_app. Qed.

Lemma elem_of_keptIds halo ids x :
  x ∈ keptIds halo ids ↔ halo !! x = None ∧ x ∈ ids.
Proof. unfold keptIds. by rewrite list_elem_of_filter. Qed.

Lemma indexingLoop_Some s halos halo globalIndexOf start myid vertices tmp k :
  halos !! myid = Some halo →
  (∀ j, globalIndexOf j = Ok (start + j)) →
  indexingLoop (Some s) halos globalIndexOf myid vertices (tmp, k)
  = Ok (assignFrom (start + k) (keptIds halo (getNodalIndex s <$> vertices)) tmp,
        k + Z.of_nat (length (keptIds halo (getNodalIndex s <$> vertices)))).
Proof.
  intros Hh Hg. revert tmp k.
  induction vertices as [|v vertices IH]; intros tmp k.
  - simpl. do 2 f_equal. lia.
  - simpl. unfold indexingStep, index. rewrite Hh. simpl.
    case_bool_decide as Hv.
    + simpl. rewrite IH. by rewrite keptIds_cons_halo.
    + rewrite Hg. simpl. rewrite IH, keptIds_cons_kept by done. simpl.
      replace (start + (k + 1)) with (start + k + 1) by lia.
      assert (∀ n : nat, k + 1 + Z.of_nat n = k + Z.of_nat (S n)) as E by lia.
      by rewrite E.
Qed.

Lemma range_zero : range 0 = [].
Proof. reflexivity. Qed.

Lemma indexingLoop_nodeIds solver halos halo globalIndexOf start myid :
  halos !! myid = Some halo →
  (∀ j, globalIndexOf j = Ok (start + j)) →
  fst <$> indexingLoop solver halos globalIndexOf myid
            (range (nLocalInterfaceNodes solver)) (∅, 0)
  = Ok (assignFrom start (keptIds halo (nodeIds solver)) ∅).
Proof.
  intros Hh Hg. destruct solver as [s|]; simpl.
  - rewrite (indexingLoop_Some s halos halo globalIndexOf start) by done.
    simpl. by rewrite Z.add_0_r.
  - reflexivity.
Qed.

Lemma localIndexing_Ok i p fluidHalos solidHalos fluidRange solidRange hF hS rF rS :
  fluidHalos !! i = Some hF → solidHalos !! i = Some hS →
  fluidRange !! i = Some rF → solidRange !! i = Some rS →
  localIndexing i p fluidHalos solidHalos fluidRange solidRange
  = Ok (assignFrom rF.1 (keptIds hF (nodeIds (fluidOf p))) ∅,
        assignFrom rS.1 (keptIds hS (nodeIds (solidOf p))) ∅).
Proof.
  intros HhF HhS HrF HrS. unfold localIndexing.
  pose proof (indexingLoop_nodeIds (fluidOf p) fluidHalos hF
    (globalIndexFrom fluidRange solidRange "fluid" (Z.of_nat i)) rF.1 i HhF) as HF.
  pose proof (indexingLoop_nodeIds (solidOf p) solidHalos hS
    (globalIndexFrom fluidRange solidRange "solid" (Z.of_nat i)) rS.1 i HhS) as HS.
  destruct (indexingLoop (fluidOf p) _ _ _ _ _) as [[ft kf]|e].
  2:{ discriminate HF. intros j. by apply (globalIndexFrom_Ok Fluid). }
  destruct (indexingLoop (solidOf p) _ _ _ _ _) as [[st ks]|e].
  2:{ discriminate HS. intros j. by apply (globalIndexFrom_Ok Solid). }
  simpl in *.
  injection HF as ->; [|intros j; by apply (globalIndexFrom_Ok Fluid)].
  injection HS as ->; [|intros j; by apply (globalIndexFrom_Ok Solid)].
  reflexivity.
Qed.

(** ** Properties of [assignFrom] *)

Lemma assignFrom_app g l1 l2 acc :
  assignFrom g (l1 ++ l2) acc
  = assignFrom (g + Z.of_nat (length l1)) l2 (assignFrom g l1 acc).
Proof.
  revert g acc. induction l1 as [|x l1 IH]; intros g acc; simpl.
  - by rewrite Z.add_0_r.
  - rewrite IH. f_equal. lia.
Qed.

Lemma assignFrom_union g ids acc :
  assignFrom g ids ∅ ∪ acc = assignFrom g ids acc.
Proof.
  rewrite <-(left_id_L ∅ (∪) acc) at 2. generalize (∅ : gmap Z Z) as m.
  revert g. induction ids as [|x ids IH]; intros g m; simpl; [done|].
  by rewrite IH, insert_union_l.
Qed.

Lemma assignFrom_lookup_notin g ids acc x :
  x ∉ ids → assignFrom g ids acc !! x = acc !! x.
Proof.
  revert g acc. induction ids as [|y ids IH]; intros g acc Hx; simpl; [done|].
  apply not_elem_of_cons in Hx as [Hne Hx].
  rewrite IH by done. by rewrite lookup_insert_ne.
Qed.

(** A value in the map is either an old one or the global index of some
    position of [ids]. *)
Lemma assignFrom_lookup_Some g ids acc x v :
  assignFrom g ids acc !! x = Some v →
  (∃ j : nat, ids !! j = Some x ∧ v = g + Z.of_nat j) ∨ acc !! x = Some v.
Proof.
  revert g acc. induction ids as [|y ids IH]; intros g acc H; simpl in H; [by right|].
  apply IH in H as [(j & Hj & ->)|H].
  - left. exists (S j). split; [done|lia].
  - destruct (decide (y = x)) as [->|Hne].
    + rewrite lookup_insert_eq in H. injection H as <-.
      left. exists 0%nat. split; [done|lia].
    + rewrite lookup_insert_ne in H by done. by right.
Qed.

(** The last position of an identifier decides its global index. *)
Lemma assignFrom_lookup_last g l1 x l2 acc :
  x ∉ l2 →
  assignFrom g (l1 ++ x :: l2) acc !! x = Some (g + Z.of_nat (length l1)).
Proof.
  intros Hx. rewrite assignFrom_app. simpl.
  rewrite assignFrom_lookup_notin by done. by rewrite lookup_insert_eq.
Qed.

Lemma assignFrom_lookup_NoDup g ids acc (j : nat) x :
  NoDup ids → ids !! j = Some x →
  assignFrom g ids acc !! x = Some (g + Z.of_nat j).
Proof.
  intros Hnd Hj.
  destruct (list_elem_of_split_length ids j x Hj) as (l1 & l2 & -> & ->).
  apply assignFrom_lookup_last.
  apply NoDup_app in Hnd as (_ & _ & Hnd). by apply NoDup_cons in Hnd as [? _].
Qed.

Lemma assignFrom_size g ids acc :
  NoDup ids → (∀ x, x ∈ ids → acc !! x = None) →
  size (assignFrom g ids acc) = (size acc + length ids)%nat.
Proof.
  revert g acc. induction ids as [|x ids IH]; intros g acc Hnd Hacc; simpl; [lia|].
  apply NoDup_cons in Hnd as [Hx Hnd].
  rewrite IH; [|done|].
  - rewrite map_size_insert_None; [lia|]. apply Hacc. by left.
  - intros y Hy. rewrite lookup_insert_ne; [apply Hacc; by right|].
    intros ->. done.
Qed.

(** Distinct keys of a freshly assigned map carry distinct global indices. *)
Lemma assignFrom_values_inj g ids x1 x2 v :
  assignFrom g ids ∅ !! x1 = Some v → assignFrom g ids ∅ !! x2 = Some v → x1 = x2.
Proof.
  intros H1 H2.
  apply assignFrom_lookup_Some in H1 as [(j1 & Hj1 & E1)|H1]; [|by rewrite lookup_empty in H1].
  apply assignFrom_lookup_Some in H2 as [(j2 & Hj2 & E2)|H2]; [|by rewrite lookup_empty in H2].
  assert (j1 = j2) as -> by lia. congruence.
Qed.

(** ** The merge *)

Lemma map_fold_insert_union (temp acc : gmap Z Z) :
  map_fold (λ key value acc, <[key := value]> acc) acc temp = temp ∪ acc.
Proof.
  apply (map_fold_weak_ind (λ r m, r = m ∪ acc)).
  - by rewrite (left_id_L ∅ (∪)).
  - intros k v m r Hk ->. by rewrite insert_union_l.
Qed.

Lemma mergeIndexing_snoc indexing gathered temp :
  mergeIndexing indexing (gathered ++ [temp])
  = temp ∪ mergeIndexing indexing gathered.
Proof.
  unfold mergeIndexing. rewrite foldl_app. simpl. apply map_fold_insert_union.
Qed.

Lemma chained_app_l l1 l2 : chained (l1 ++ l2) → chained l1.
Proof.
  intros H i start ids Hi.
  destruct (H i start ids) as [?|E]; [by apply lookup_app_l_Some|by left|right].
  rewrite E, take_app_le; [done|].
  apply lookup_lt_Some in Hi. lia.
Qed.

(** Merging chained partial maps is one assignment over the concatenation. *)
Lemma mergeIndexing_chained (l : list (Z * list Z)) :
  chained l →
  mergeIndexing ∅ ((λ si, assignFrom si.1 si.2 ∅) <$> l)
  = assignFrom 0 (concat (l.*2)) ∅.
Proof.
  induction l as [|[start ids] l IH] using rev_ind; intros Hc; [reflexivity|].
  rewrite fmap_app. simpl. rewrite mergeIndexing_snoc.
  rewrite IH by (by eapply chained_app_l).
  rewrite fmap_app, concat_app, assignFrom_app. simpl. rewrite app_nil_r.
  rewrite assignFrom_union.
  destruct (Hc (length l) start ids) as [-> | ->].
  - rewrite lookup_app_r, Nat.sub_diag by lia. done.
  - done.
  - rewrite take_app_length. done.
Qed.

(** ** The constructor as a whole *)

Lemma mergeIndexing_singleton (temp : gmap Z Z) : mergeIndexing ∅ [temp] = temp.
Proof.
  unfold mergeIndexing. simpl.
  by rewrite map_fold_insert_union, (right_id_L ∅ (∪)).
Qed.

Lemma Manager_init_single sF sS nDim computationType :
  ∃ m, Manager_init (Some sF) (Some sS) nDim computationType None = Ok m
       ∧ built (Some sF) (Some sS) None m.
Proof.
  unfold Manager_init. simpl.
  erewrite (localIndexing_Ok 0 _ [∅] [∅] [_] [_] ∅ ∅) by reflexivity.
  simpl. eexists. split; [reflexivity|].
  split; intros []; simpl; rewrite ?keptIds_empty; try reflexivity; try lia;
    by rewrite map_fold_insert_union, (right_id_L ∅ (∪)).
Qed.

Lemma allgather_fmap_Ok {A} c (sendobj : nat → Collaborators → result A)
    (f : Collaborators → A) :
  (∀ i p, group c !! i = Some p → sendobj i p = Ok (f p)) →
  allgather c sendobj = Ok (f <$> group c).
Proof.
  intros H. rewrite (allgather_Ok c sendobj (λ _, f)) by done.
  f_equal. apply imap_const.
Qed.

Section UnderMPI.
Variable c : Comm.
Hypothesis present : ∀ i p, group c !! i = Some p → is_Some (fluidOf p).

Lemma localHalo_rank i p :
  group c !! i = Some p →
  localHalo i p (processorsWith (haveSolver ∘ solidOf) (group c)) = Ok (haloOf (fluidOf p), haloOf (solidOf p)).
Proof.
  intros Hp. destruct (present i p Hp) as [s Hs]. by eapply localHalo_mpi.
Qed.

Lemma localPhysical_rank i p :
  group c !! i = Some p →
  localPhysical i p (processorsWith (haveSolver ∘ solidOf) (group c))
  = Ok (physicalOf (fluidOf p), physicalOf (solidOf p)).
Proof.
  intros Hp. destruct (present i p Hp) as [s Hs]. by eapply localPhysical_mpi.
Qed.

Lemma gather_fluidHalo :
  allgather c (λ i p, fst <$> localHalo i p (processorsWith (haveSolver ∘ solidOf) (group c)))
  = Ok ((haloOf ∘ fluidOf) <$> group c).
Proof.
  apply allgather_fmap_Ok. intros i p Hp. by rewrite localHalo_rank.
Qed.

Lemma gather_solidHalo :
  allgather c (λ i p, snd <$> localHalo i p (processorsWith (haveSolver ∘ solidOf) (group c)))
  = Ok ((haloOf ∘ solidOf) <$> group c).
Proof.
  apply allgather_fmap_Ok. intros i p Hp. by rewrite localHalo_rank.
Qed.

Lemma gather_fluidPhysical :
  allgather c (λ i p, fst <$> localPhysical i p (processorsWith (haveSolver ∘ solidOf) (group c)))
  = Ok ((physicalOf ∘ fluidOf) <$> group c).
Proof.
  apply allgather_fmap_Ok. intros i p Hp. by rewrite localPhysical_rank.
Qed.

Lemma gather_solidPhysical :
  allgather c (λ i p, snd <$> localPhysical i p (processorsWith (haveSolver ∘ solidOf) (group c)))
  = Ok ((physicalOf ∘ solidOf) <$> group c).
Proof.
  apply allgather_fmap_Ok. intros i p Hp. by rewrite localPhysical_rank.
Qed.

Lemma gather_fluidNodes :
  allgather c (λ i p, _ ← localPhysical i p (processorsWith (haveSolver ∘ solidOf) (group c));
                      Ok (nLocalInterfaceNodes (fluidOf p)))
  = Ok ((nLocalInterfaceNodes ∘ fluidOf) <$> group c).
Proof.
  apply allgather_fmap_Ok. intros i p Hp. by rewrite localPhysical_rank.
Qed.

Lemma gather_solidNodes :
  allgather c (λ i p, _ ← localPhysical i p (processorsWith (haveSolver ∘ solidOf) (group c));
                      Ok (nLocalInterfaceNodes (solidOf p)))
  = Ok ((nLocalInterfaceNodes ∘ solidOf) <$> group c).
Proof.
  apply allgather_fmap_Ok. intros i p Hp. by rewrite localPhysical_rank.
Qed.

Lemma gather_fluidRange procs distribution :
  allgather c (λ i p,
    '(nFluid, _) ← localPhysical i p (processorsWith (haveSolver ∘ solidOf) (group c));
    Ok (fluidRangeTemp i procs distribution nFluid))
  = Ok (imap (λ i p, rangeTempOf Fluid i procs distribution p) (group c)).
Proof.
  apply allgather_Ok. intros i p Hp. by rewrite localPhysical_rank.
Qed.

Lemma gather_solidRange procs distribution :
  allgather c (λ i p,
    _ ← localPhysical i p (processorsWith (haveSolver ∘ solidOf) (group c));
    Ok (solidRangeTemp i procs distribution (nLocalInterfaceNodes (solidOf p))))
  = Ok (imap (λ i p, rangeTempOf Solid i procs distribution p) (group c)).
Proof.
  apply allgather_Ok. intros i p Hp. by rewrite localPhysical_rank.
Qed.

Lemma localIndexing_rank i p fluidRange solidRange :
  group c !! i = Some p →
  length fluidRange = length (group c) →
  length solidRange = length (group c) →
  localIndexing i p ((haloOf ∘ fluidOf) <$> group c) ((haloOf ∘ solidOf) <$> group c)
    fluidRange solidRange
  = Ok (assignFrom (rangeStart fluidRange i) (physicalIds (fluidOf p)) ∅,
        assignFrom (rangeStart solidRange i) (physicalIds (solidOf p)) ∅).
Proof.
  intros Hp HlF HlS.
  destruct (lookup_lt_is_Some_2 fluidRange i) as [rF HrF].
  { rewrite HlF. by eapply lookup_lt_Some. }
  destruct (lookup_lt_is_Some_2 solidRange i) as [rS HrS].
  { rewrite HlS. by eapply lookup_lt_Some. }
  unfold rangeStart. rewrite HrF, HrS.
  apply localIndexing_Ok; try done; by rewrite list_lookup_fmap, Hp.
Qed.

Lemma gather_fluidIndexing fluidRange solidRange :
  length fluidRange = length (group c) →
  length solidRange = length (group c) →
  allgather c (λ i p,
    fst <$> localIndexing i p ((haloOf ∘ fluidOf) <$> group c)
              ((haloOf ∘ solidOf) <$> group c) fluidRange solidRange)
  = Ok (imap (λ i p, assignFrom (rangeStart fluidRange i)
                       (physicalIds (fluidOf p)) ∅) (group c)).
Proof.
  intros HlF HlS. apply allgather_Ok. intros i p Hp.
  by rewrite localIndexing_rank.
Qed.

Lemma gather_solidIndexing fluidRange solidRange :
  length fluidRange = length (group c) →
  length solidRange = length (group c) →
  allgather c (λ i p,
    snd <$> localIndexing i p ((haloOf ∘ fluidOf) <$> group c)
              ((haloOf ∘ solidOf) <$> group c) fluidRange solidRange)
  = Ok (imap (λ i p, assignFrom (rangeStart solidRange i)
                       (physicalIds (solidOf p)) ∅) (group c)).
Proof.
  intros HlF HlS. apply allgather_Ok. intros i p Hp.
  by rewrite localIndexing_rank.
Qed.

Lemma Manager_init_mpi FluidSolver SolidSolver nDim computationType :
  ownRank FluidSolver SolidSolver (Some c) →
  ∃ m, Manager_init FluidSolver SolidSolver nDim computationType (Some c) = Ok m
       ∧ built FluidSolver SolidSolver (Some c) m.
Proof.
  intros Hown. unfold ownRank in Hown. unfold Manager_init.
  rewrite processorSets_mpi. cbn [mbind result_bind].
  rewrite (localHalo_rank _ _ Hown), gather_fluidHalo, gather_solidHalo.
  cbn [mbind result_bind].
  rewrite (localPhysical_rank _ _ Hown). cbn [mbind result_bind].
  unfold mpiAllReduce, mpiAllGather.
  rewrite gather_fluidNodes, gather_fluidPhysical, gather_solidNodes,
          gather_solidPhysical.
  cbn [mbind result_bind fmap result_fmap].
  rewrite gather_fluidRange, gather_solidRange. cbn [mbind result_bind].
  rewrite (localIndexing_rank _ _ _ _ Hown) by (by rewrite length_imap).
  cbn [mbind result_bind].
  rewrite gather_solidIndexing, gather_fluidIndexing by (by rewrite length_imap).
  cbn [mbind result_bind fmap result_fmap].
  eexists. split; [reflexivity|].
  split; intros []; reflexivity.
Qed.

End UnderMPI.

(** The constructor returns a manager exactly when the collaborators it
    reads without a guard are there. *)
Lemma Manager_init_Ok_present FluidSolver SolidSolver nDim computationType mpiComm m :
  Manager_init FluidSolver SolidSolver nDim computationType mpiComm = Ok m →
  collaboratorsPresent FluidSolver SolidSolver mpiComm.
Proof.
  unfold Manager_init. destruct mpiComm as [c|].
  - rewrite processorSets_mpi. cbn [mbind result_bind]. intros H.
    apply bind_Ok in H as ([hF hS] & _ & H).
    apply bind_Ok in H as (halos & Hg & _).
    intros i p Hp. destruct (allgather_inv _ _ _ Hg i p Hp) as [h Hh].
    unfold localHalo in Hh. destruct (fluidOf p); [eauto|discriminate].
  - simpl. destruct FluidSolver, SolidSolver; try discriminate. eauto.
Qed.

Lemma Manager_init_present_Ok FluidSolver SolidSolver nDim computationType mpiComm :
  ownRank FluidSolver SolidSolver mpiComm →
  collaboratorsPresent FluidSolver SolidSolver mpiComm →
  ∃ m, Manager_init FluidSolver SolidSolver nDim computationType mpiComm = Ok m
       ∧ built FluidSolver SolidSolver mpiComm m.
Proof.
  intros Hown Hpresent. destruct mpiComm as [c|].
  - by apply Manager_init_mpi.
  - destruct Hpresent as [[sF ->] [sS ->]]. apply Manager_init_single.
Qed.

Lemma Manager_init_Ok_built FluidSolver SolidSolver nDim computationType mpiComm m :
  ownRank FluidSolver SolidSolver mpiComm →
  Manager_init FluidSolver SolidSolver nDim computationType mpiComm = Ok m →
  built FluidSolver SolidSolver mpiComm m.
Proof.
  intros Hown H.
  destruct (Manager_init_present_Ok FluidSolver SolidSolver nDim computationType
              mpiComm Hown) as (m' & H' & Hb).
  - by eapply Manager_init_Ok_present.
  - congruence.
Qed.

(** ** Where the ranges start, and the merged map in one piece *)

Lemma rangeTempOf_start sd i procs distribution p :
  (rangeTempOf sd i procs distribution p).1
  = if inProcessors i procs then globalIndexStartOf distribution i else 0.
Proof.
  destruct sd; simpl; unfold fluidRangeTemp, solidRangeTemp;
    by destruct (inProcessors i procs).
Qed.

Lemma nodeIds_idle solver : haveInterface solver = false → nodeIds solver = [].
Proof.
  destruct solver as [s|]; simpl; [|done].
  intros H. apply negb_false_iff, Z.eqb_eq in H. by rewrite H.
Qed.

(** A rank that has vertices on a side starts at the sum of the
    distribution over the ranks below it. *)
Lemma built_start FluidSolver SolidSolver mpiComm m sd i p :
  built FluidSolver SolidSolver mpiComm m →
  worldOf FluidSolver SolidSolver mpiComm !! i = Some p →
  nodeIds (solverOf sd p) = []
  ∨ rangeStart (globalIndexRangeOf sd m) i = sumZ (take i (distributionOf sd m)).
Proof.
  intros Hb Hp. destruct mpiComm as [c|]; simpl in Hp.
  - unfold rangeStart. rewrite (built_range _ _ _ _ Hb sd).
    rewrite list_lookup_imap, Hp. simpl.
    rewrite rangeTempOf_start, (built_processors _ _ _ _ Hb sd).
    rewrite (inProcessors_processorsWith _ _ _ _ Hp). simpl.
    destruct (haveInterface (solverOf sd p)) eqn:Hh.
    + right. apply globalIndexStartOf_take.
      rewrite (built_distribution _ _ _ _ Hb sd), length_fmap. simpl.
      apply lookup_lt_Some in Hp. lia.
    + left. by apply nodeIds_idle.
  - right. unfold rangeStart. rewrite (built_range _ _ _ _ Hb sd).
    destruct i as [|i]; [|done]. by rewrite take_0.
Qed.

Lemma sumZ_take_lengths {A} (w : list A) (f : A → Z) (g : A → list Z) i :
  (∀ j p, w !! j = Some p → f p = Z.of_nat (length (g p))) →
  sumZ (take i (f <$> w)) = Z.of_nat (length (concat (take i (g <$> w)))).
Proof.
  revert i. induction w as [|p w IH]; intros i H.
  - by destruct i.
  - destruct i as [|i]; [done|]. simpl. rewrite length_app, Nat2Z.inj_add.
    rewrite <-(H 0%nat p eq_refl).
    unfold sumZ in *. rewrite <-IH; [done|].
    intros j q Hq. by apply (H (S j)).
Qed.

Lemma sumZ_lengths {A} (w : list A) (f : A → Z) (g : A → list Z) :
  (∀ j p, w !! j = Some p → f p = Z.of_nat (length (g p))) →
  sumZ (f <$> w) = Z.of_nat (length (concat (g <$> w))).
Proof.
  intros H. pose proof (sumZ_take_lengths w f g (length w) H) as E.
  by rewrite !firstn_all2 in E by (rewrite length_fmap; lia).
Qed.

Lemma built_chained FluidSolver SolidSolver mpiComm m sd :
  built FluidSolver SolidSolver mpiComm m →
  countsInserted sd mpiComm (worldOf FluidSolver SolidSolver mpiComm) →
  chained (imap (λ i p, (rangeStart (globalIndexRangeOf sd m) i,
                         insertedIds mpiComm (solverOf sd p)))
                (worldOf FluidSolver SolidSolver mpiComm)).
Proof.
  intros Hb Hc i start ids Hi.
  rewrite list_lookup_imap in Hi.
  destruct (worldOf FluidSolver SolidSolver mpiComm !! i) as [p|] eqn:Hp; [|done].
  injection Hi as <- <-.
  destruct (built_start _ _ _ _ sd i p Hb Hp) as [E|E].
  - left. unfold insertedIds, keptIds. by rewrite E.
  - right. rewrite E, (built_distribution _ _ _ _ Hb sd).
    rewrite fmap_take, fmap_imap.
    replace (imap _ (worldOf FluidSolver SolidSolver mpiComm))
      with ((insertedIds mpiComm ∘ solverOf sd)
              <$> worldOf FluidSolver SolidSolver mpiComm)
      by (symmetry; apply imap_const).
    apply (sumZ_take_lengths _ (physicalOf ∘ solverOf sd)
             (insertedIds mpiComm ∘ solverOf sd)).
    intros j q Hq. exact (Hc j q Hq).
Qed.

(** With consistent counts, the merged map is one assignment of 0, 1, 2, ...
    to the inserted identifiers of all ranks, rank after rank. *)
Lemma built_indexing_closed FluidSolver SolidSolver mpiComm m sd :
  built FluidSolver SolidSolver mpiComm m →
  countsInserted sd mpiComm (worldOf FluidSolver SolidSolver mpiComm) →
  indexingOf sd m
  = assignFrom 0
      (concat ((insertedIds mpiComm ∘ solverOf sd)
                 <$> worldOf FluidSolver SolidSolver mpiComm)) ∅.
Proof.
  intros Hb Hc. rewrite (built_indexing _ _ _ _ Hb sd).
  pose proof (mergeIndexing_chained _ (built_chained _ _ _ _ sd Hb Hc)) as E.
  rewrite !fmap_imap in E. simpl in E.
  rewrite <-(imap_const (insertedIds mpiComm ∘ solverOf sd)).
  exact E.
Qed.

Lemma built_total_inserted FluidSolver SolidSolver mpiComm m sd :
  built FluidSolver SolidSolver mpiComm m →
  countsInserted sd mpiComm (worldOf FluidSolver SolidSolver mpiComm) →
  totalPhysicalOf sd m
  = Z.of_nat (length (concat ((insertedIds mpiComm ∘ solverOf sd)
                                <$> worldOf FluidSolver SolidSolver mpiComm))).
Proof.
  intros Hb Hc.
  rewrite (built_total _ _ _ _ Hb sd), (built_distribution _ _ _ _ Hb sd).
  apply (sumZ_lengths _ (physicalOf ∘ solverOf sd) (insertedIds mpiComm ∘ solverOf sd)).
  intros j q Hq. exact (Hc j q Hq).
Qed.

(** ** The decomposition contract and the merged map *)

(** Under the contract a run without MPI has no halo identifiers, so what
    a rank inserts is what it owns, with or without MPI. *)
Lemma decomposition_inserted sd FluidSolver SolidSolver mpiComm i p :
  decomposition sd (worldOf FluidSolver SolidSolver mpiComm) →
  worldOf FluidSolver SolidSolver mpiComm !! i = Some p →
  insertedIds mpiComm (solverOf sd p) = physicalIds (solverOf sd p).
Proof.
  intros Hd Hp. destruct mpiComm as [c|]; [reflexivity|].
  unfold insertedIds, physicalIds. simpl. f_equal. symmetry.
  apply map_eq. intros x. rewrite lookup_empty.
  destruct (haloOf (solverOf sd p) !! x) as [v|] eqn:Hx; [|done].
  destruct (halo_owned_elsewhere _ _ Hd i p x Hp) as (j & q & Hne & Hq & _); [eauto|].
  simpl in Hp, Hq. apply lookup_lt_Some in Hp, Hq. simpl in Hp, Hq. lia.
Qed.

Lemma decomposition_inserted_all sd FluidSolver SolidSolver mpiComm :
  decomposition sd (worldOf FluidSolver SolidSolver mpiComm) →
  (insertedIds mpiComm ∘ solverOf sd) <$> worldOf FluidSolver SolidSolver mpiComm
  = (physicalIds ∘ solverOf sd) <$> worldOf FluidSolver SolidSolver mpiComm.
Proof.
  intros Hd. apply list_eq. intros i. rewrite !list_lookup_fmap.
  destruct (worldOf FluidSolver SolidSolver mpiComm !! i) as [p|] eqn:Hp; [|done].
  simpl. f_equal. by eapply decomposition_inserted.
Qed.

Lemma decomposition_countsInserted sd FluidSolver SolidSolver mpiComm :
  decomposition sd (worldOf FluidSolver SolidSolver mpiComm) →
  countsInserted sd mpiComm (worldOf FluidSolver SolidSolver mpiComm).
Proof.
  intros Hd i p Hp. rewrite (decomposition_inserted _ _ _ _ _ _ Hd Hp).
  by eapply counts_match.
Qed.

(** Under the contract the merged map of a side is the assignment of
    0, 1, 2, ... to the physical identifiers of rank 0, rank 1, ... *)
Lemma decomposition_indexing sd FluidSolver SolidSolver mpiComm m :
  built FluidSolver SolidSolver mpiComm m →
  decomposition sd (worldOf FluidSolver SolidSolver mpiComm) →
  indexingOf sd m
  = assignFrom 0 (concat ((physicalIds ∘ solverOf sd)
                            <$> worldOf FluidSolver SolidSolver mpiComm)) ∅.
Proof.
  intros Hb Hd.
  rewrite (built_indexing_closed _ _ _ _ sd Hb) by (by apply decomposition_countsInserted).
  by rewrite decomposition_inserted_all.
Qed.

Lemma elem_of_concat (x : Z) (ls : list (list Z)) :
  x ∈ concat ls ↔ ∃ l, x ∈ l ∧ l ∈ ls.
Proof.
  induction ls as [|l ls IH]; simpl.
  - split; [by intros ?%elem_of_nil|by intros (l & _ & ?%elem_of_nil)].
  - rewrite elem_of_app, IH. split.
    + intros [H|(l' & H & Hl')]; [exists l|exists l']; split; auto; by constructor.
    + intros (l' & H & [->|Hl']%elem_of_cons); [by left|right; eauto].
Qed.

Lemma assignFrom_is_Some g ids acc x :
  is_Some (assignFrom g ids acc !! x) ↔ x ∈ ids ∨ is_Some (acc !! x).
Proof.
  revert g acc. induction ids as [|y ids IH]; intros g acc; simpl.
  - rewrite elem_of_nil. tauto.
  - rewrite IH, elem_of_cons. destruct (decide (y = x)) as [->|Hne].
    + rewrite lookup_insert_eq. split; [intros _; left; by left|eauto].
    + rewrite lookup_insert_ne by done.
      split; [intros [?|?]; auto|intros [[->|?]|?]; [done|auto|auto]].
Qed.

(** C3: under the decomposition contract on both sides, the constructor
    returns a manager as soon as the collaborators it reads are there, and
    on each side the merged map of any manager it returns has exactly as
    many entries as the total physical node count, its keys are exactly
    the physical identifiers of the ranks, and no two keys carry the same
    global index. *)
Theorem merged_map_one_entry_per_physical_node
    FluidSolver SolidSolver nDim computationType mpiComm :
  ownRank FluidSolver SolidSolver mpiComm →
  (∀ sd, decomposition sd (worldOf FluidSolver SolidSolver mpiComm)) →
  (collaboratorsPresent FluidSolver SolidSolver mpiComm →
   is_Ok (Manager_init FluidSolver SolidSolver nDim computationType mpiComm))
  ∧ ∀ m, Manager_init FluidSolver SolidSolver nDim computationType mpiComm = Ok m →
      ∀ sd,
        Z.of_nat (size (indexingOf sd m)) = totalPhysicalOf sd m
        ∧ (∀ x, is_Some (indexingOf sd m !! x) ↔
                ∃ i p, worldOf FluidSolver SolidSolver mpiComm !! i = Some p
                       ∧ x ∈ physicalIds (solverOf sd p))
        ∧ (∀ x1 x2 g, indexingOf sd m !! x1 = Some g →
                      indexingOf sd m !! x2 = Some g → x1 = x2).
Proof.
  intros Hown Hd. split.
  - intros Hpresent.
    destruct (Manager_init_present_Ok _ _ nDim computationType _ Hown Hpresent)
      as (m & Hm & _).
    by exists m.
  - intros m Hm sd.
    pose proof (Manager_init_Ok_built _ _ _ _ _ _ Hown Hm) as Hb.
    rewrite (decomposition_indexing sd _ _ _ _ Hb (Hd sd)).
    split; [|split].
    + rewrite assignFrom_size.
      * rewrite (built_total_inserted _ _ _ _ sd Hb)
          by (by apply decomposition_countsInserted).
        rewrite decomposition_inserted_all by done.
        by rewrite map_size_empty.
      * apply (owned_once _ _ (Hd sd)).
      * intros x _. apply lookup_empty.
    + intros x. rewrite assignFrom_is_Some, lookup_empty, elem_of_concat.
      split.
      * intros [(ids & Hx & Hids)|[? [=]]].
        apply list_elem_of_fmap in Hids as (p & -> & Hp).
        apply list_elem_of_lookup in Hp as [i Hi]. eauto.
      * intros (i & p & Hp & Hx). left.
        exists (physicalIds (solverOf sd p)). split; [done|].
        apply list_elem_of_fmap. exists p. split; [done|].
        apply list_elem_of_lookup. eauto.
    + intros x1 x2 g. apply assignFrom_values_inj.
Qed.

Lemma lookup_pair_world (a b p : Collaborators) (i : nat) :
  [a; b] !! i = Some p → (i = 0%nat ∧ p = a) ∨ (i = 1%nat ∧ p = b).
Proof.
  destruct i as [|[|i]]; simpl; intros H; [left|right|discriminate];
    by injection H as <-.
Qed.

Lemma haloWorld_decomposition sd : decomposition sd haloWorld.
Proof.
  split.
  - intros i p Hp.
    apply lookup_pair_world in Hp as [[-> ->]|[-> ->]]; by destruct sd.
  - destruct sd; apply (bool_decide_unpack _); by vm_compute.
  - intros i p x Hp Hx.
    apply lookup_pair_world in Hp as [[-> ->]|[-> ->]]; destruct sd; simpl in Hx;
      try (rewrite lookup_empty in Hx; by destruct Hx as [? ?]).
    destruct Hx as [v Hv]. apply lookup_singleton_Some in Hv as [<- _].
    exists 1%nat, haloRank1. split; [done|]. split; [done|].
    apply (bool_decide_unpack _). by vm_compute.
Qed.

Lemma merged_map_one_entry_per_physical_node_witness :
  ownRank (fluidOf haloRank0) (solidOf haloRank0) (Some (haloComm 0))
  ∧ (∀ sd, decomposition sd
             (worldOf (fluidOf haloRank0) (solidOf haloRank0) (Some (haloComm 0))))
  ∧ ((collaboratorsPresent (fluidOf haloRank0) (solidOf haloRank0) (Some (haloComm 0)) →
      is_Ok (Manager_init (fluidOf haloRank0) (solidOf haloRank0) 2 "steady"
               (Some (haloComm 0))))
     ∧ ∀ m, Manager_init (fluidOf haloRank0) (solidOf haloRank0) 2 "steady"
              (Some (haloComm 0)) = Ok m →
        ∀ sd,
          Z.of_nat (size (indexingOf sd m)) = totalPhysicalOf sd m
          ∧ (∀ x, is_Some (indexingOf sd m !! x) ↔
                  ∃ i p, worldOf (fluidOf haloRank0) (solidOf haloRank0)
                           (Some (haloComm 0)) !! i = Some p
                         ∧ x ∈ physicalIds (solverOf sd p))
          ∧ (∀ x1 x2 g, indexingOf sd m !! x1 = Some g →
                        indexingOf sd m !! x2 = Some g → x1 = x2)).
Proof.
  split; [reflexivity|]. split; [exact haloWorld_decomposition|].
  apply (merged_map_one_entry_per_physical_node
           (fluidOf haloRank0) (solidOf haloRank0) 2 "steady" (Some (haloComm 0))).
  - reflexivity.
  - exact haloWorld_decomposition.
Defined.

(** The merged fluid map of that run, on either rank. *)
Example haloWorld_fluidIndexing :
  fluidIndexing <$> Manager_init (fluidOf haloRank1) (solidOf haloRank1) 2 "steady"
                      (Some (haloComm 1))
  = Ok (list_to_map [(10, 0); (11, 1); (12, 2); (13, 3)]).
Proof. by vm_compute. Qed.

(** ** Construction failures *)

(** C9, as stated, fails: both collaborators of this run have a halo
    identifier outside their node-count bound, and the constructor returns
    a manager all the same. *)
Lemma stray_halo_identifier_is_accepted :
  (∃ sF sS, fluidOf strayHaloRank = Some sF ∧ solidOf strayHaloRank = Some sS
            ∧ haloOutOfBound sF ∧ haloOutOfBound sS)
  ∧ is_Ok (Manager_init (fluidOf strayHaloRank) (solidOf strayHaloRank) 3 "steady"
             (Some strayHaloComm)).
Proof.
  split.
  - eexists _, _. split; [reflexivity|]. split; [reflexivity|]. split.
    + exists 999. split; [|simpl; lia]. simpl. rewrite lookup_singleton_eq. eauto.
    + exists (-5). split; [|simpl; lia]. simpl. rewrite lookup_singleton_eq. eauto.
  - destruct (Manager_init_present_Ok (fluidOf strayHaloRank) (solidOf strayHaloRank)
                3 "steady" (Some strayHaloComm)) as (m & Hm & _).
    + reflexivity.
    + intros i p Hp. destruct i as [|i]; [|done]. injection Hp as <-. simpl. eauto.
    + by exists m.
Qed.

(** C9, amended: the constructor never looks at the halo identifiers.  It
    returns a manager exactly when the collaborators it reads are there
    (the fluid collaborator of every rank under MPI, both collaborators
    without MPI), whatever the halo sets hold, and the manager stores for
    each rank the halo set that rank reported (the empty set without
    MPI). *)
Theorem construction_does_not_check_halo_identifiers
    FluidSolver SolidSolver nDim computationType mpiComm :
  ownRank FluidSolver SolidSolver mpiComm →
  (is_Ok (Manager_init FluidSolver SolidSolver nDim computationType mpiComm)
   ↔ collaboratorsPresent FluidSolver SolidSolver mpiComm)
  ∧ ∀ m, Manager_init FluidSolver SolidSolver nDim computationType mpiComm = Ok m →
      ∀ sd, haloNodesListOf sd m
            = (haloSeen mpiComm ∘ solverOf sd)
                <$> worldOf FluidSolver SolidSolver mpiComm.
Proof.
  intros Hown. split; [split|].
  - intros [m Hm]. by eapply Manager_init_Ok_present.
  - intros Hpresent.
    destruct (Manager_init_present_Ok _ _ nDim computationType _ Hown Hpresent)
      as (m & Hm & _).
    by exists m.
  - intros m Hm sd. by apply (built_halos _ _ _ _ (Manager_init_Ok_built _ _ _ _ _ _ Hown Hm)).
Qed.

Lemma construction_does_not_check_halo_identifiers_witness :
  ownRank (fluidOf strayHaloRank) (solidOf strayHaloRank) (Some strayHaloComm)
  ∧ ((is_Ok (Manager_init (fluidOf strayHaloRank) (solidOf strayHaloRank) 3 "steady"
               (Some strayHaloComm))
      ↔ collaboratorsPresent (fluidOf strayHaloRank) (solidOf strayHaloRank)
          (Some strayHaloComm))
     ∧ ∀ m, Manager_init (fluidOf strayHaloRank) (solidOf strayHaloRank) 3 "steady"
              (Some strayHaloComm) = Ok m →
        ∀ sd, haloNodesListOf sd m
              = (haloSeen (Some strayHaloComm) ∘ solverOf sd)
                  <$> worldOf (fluidOf strayHaloRank) (solidOf strayHaloRank)
                        (Some strayHaloComm)).
Proof.
  split; [reflexivity|].
  apply (construction_does_not_check_halo_identifiers
           (fluidOf strayHaloRank) (solidOf strayHaloRank) 3 "steady"
           (Some strayHaloComm)).
  reflexivity.
Defined.

(** C4: without communicator and without solid collaborator the constructor
    raises: rank 0 is always listed as a solid-solver process (line 140),
    so line 148 reads [haloNodeList] of [None]. *)
Theorem single_process_without_solid_raises FluidSolver nDim computationType :
  Manager_init FluidSolver None nDim computationType None = Raise AttributeError.
Proof. unfold Manager_init. simpl. by destruct FluidSolver. Qed.

(** Under MPI the same collaborators are accepted, and the solid role sets
    are then empty. *)
Example mpi_without_solid_is_accepted :
  (λ m, (solidSolverProcessors m, solidInterfaceProcessors m,
         nSolidInterfacePhysicalNodes m, solidIndexing m))
    <$> Manager_init (Some (solverFrom 0 3 3 ∅)) None 3 "steady"
          (Some {| Get_rank := 0;
                   group := [ {| fluidOf := Some (solverFrom 0 3 3 ∅);
                                 solidOf := None |} ] |})
  = Ok ([], [], 0, ∅).
Proof. by vm_compute. Qed.

(** ** The global index ranges *)

Lemma built_range_at FluidSolver SolidSolver mpiComm m sd r p :
  built FluidSolver SolidSolver mpiComm m →
  worldOf FluidSolver SolidSolver mpiComm !! r = Some p →
  globalIndexRangeOf sd m !! r
  = Some (if inProcessors r (interfaceProcessorsOf sd m)
          then (sumZ (take r (distributionOf sd m)),
                sumZ (take r (distributionOf sd m)) + stopCount sd mpiComm p - 1)
          else (0, 0)).
Proof.
  intros Hb Hp. rewrite (built_range _ _ _ _ Hb sd).
  destruct mpiComm as [c|]; simpl in Hp.
  - rewrite list_lookup_imap, Hp. simpl. f_equal.
    assert (r ≤ length (distributionOf sd m))%nat as Hr.
    { rewrite (built_distribution _ _ _ _ Hb sd), length_fmap. simpl.
      apply lookup_lt_Some in Hp. lia. }
    destruct sd; simpl; unfold fluidRangeTemp, solidRangeTemp;
      (destruct (inProcessors r _); [|done]);
      by rewrite globalIndexStartOf_take.
  - destruct r as [|r]; [|done]. injection Hp as <-.
    rewrite (built_processors _ _ _ _ Hb sd), inProcessors_zero, take_0.
    simpl. by destruct sd.
Qed.

Lemma built_range_length FluidSolver SolidSolver mpiComm m sd :
  built FluidSolver SolidSolver mpiComm m →
  length (globalIndexRangeOf sd m)
  = length (worldOf FluidSolver SolidSolver mpiComm).
Proof.
  intros Hb. rewrite (built_range _ _ _ _ Hb sd).
  destruct mpiComm as [c|]; [apply length_imap|done].
Qed.

(** Whether a rank hosts interface nodes on a side. *)
Lemma built_hosting FluidSolver SolidSolver mpiComm m sd r p :
  built FluidSolver SolidSolver mpiComm m →
  worldOf FluidSolver SolidSolver mpiComm !! r = Some p →
  inProcessors r (interfaceProcessorsOf sd m)
  = match mpiComm with
    | Some _ => haveInterface (solverOf sd p)
    | None => true
    end.
Proof.
  intros Hb Hp. rewrite (built_processors _ _ _ _ Hb sd).
  destruct mpiComm as [c|]; simpl in Hp.
  - by rewrite (inProcessors_processorsWith _ _ _ _ Hp).
  - by destruct r.
Qed.

Example idleWorld_fluid_ranges :
  (λ m, (fluidGlobalIndexRange m, nFluidInterfacePhysicalNodes m))
    <$> Manager_init (fluidOf idleRank0) (solidOf idleRank0) 3 "steady"
          (Some (idleComm 0))
  = Ok ([(0, 3); (0, 0); (4, 9)], 10).
Proof. by vm_compute. Qed.

(** C7, as stated, fails: in this run rank 1 holds the pair (0, 0), and the
    inclusive range from 0 to 0 is not empty. *)
Lemma idle_rank_range_is_not_empty :
  ¬ ∃ m, Manager_init (fluidOf idleRank0) (solidOf idleRank0) 3 "steady"
           (Some (idleComm 0)) = Ok m
         ∧ fluidGlobalIndexRange m !! 0%nat = Some (0, 3)
         ∧ (∃ rg, fluidGlobalIndexRange m !! 1%nat = Some rg ∧ rangeIndices rg = [])
         ∧ fluidGlobalIndexRange m !! 2%nat = Some (4, 9)
         ∧ nFluidInterfacePhysicalNodes m = 10.
Proof.
  intros (m & Hm & _ & (rg & Hrg & Hempty) & _).
  pose proof idleWorld_fluid_ranges as E. rewrite Hm in E.
  injection E as E _. rewrite E in Hrg. injection Hrg as <-.
  discriminate Hempty.
Qed.

(** C7, amended: with three ranks whose fluid collaborators report 4, 0 and
    6 physical nodes, rank 1 having no fluid interface node and ranks 0 and
    2 having some, every rank's manager holds the fluid pairs (0, 3),
    (0, 0), (4, 9) and the fluid total 10; the pair of rank 1 is the
    placeholder (0, 0). *)
Theorem three_ranks_4_0_6
    FluidSolver SolidSolver nDim computationType c p0 p1 p2 s0 s1 s2 :
  ownRank FluidSolver SolidSolver (Some c) →
  group c = [p0; p1; p2] →
  fluidOf p0 = Some s0 → fluidOf p1 = Some s1 → fluidOf p2 = Some s2 →
  nPhysicalNodes s0 = 4 → nPhysicalNodes s1 = 0 → nPhysicalNodes s2 = 6 →
  nNodes s0 ≠ 0 → nNodes s1 = 0 → nNodes s2 ≠ 0 →
  ∃ m, Manager_init FluidSolver SolidSolver nDim computationType (Some c) = Ok m
       ∧ fluidGlobalIndexRange m = [(0, 3); (0, 0); (4, 9)]
       ∧ nFluidInterfacePhysicalNodes m = 10.
Proof.
  intros Hown Hg H0 H1 H2 P0 P1 P2 N0 N1 N2.
  destruct (Manager_init_present_Ok FluidSolver SolidSolver nDim computationType
              (Some c) Hown) as (m & Hm & Hb).
  { intros i p Hp. rewrite Hg in Hp.
    destruct i as [|[|[|i]]]; simpl in Hp; try discriminate;
      injection Hp as <-; eauto. }
  exists m. split; [done|].
  assert (distributionOf Fluid m = [4; 0; 6]) as Hd.
  { rewrite (built_distribution _ _ _ _ Hb Fluid). simpl.
    rewrite Hg. simpl. rewrite H0, H1, H2. simpl. by rewrite P0, P1, P2. }
  change (globalIndexRangeOf Fluid m = [(0, 3); (0, 0); (4, 9)]
          ∧ totalPhysicalOf Fluid m = 10).
  split.
  - apply list_eq. intros i.
    destruct (worldOf FluidSolver SolidSolver (Some c) !! i) as [p|] eqn:Hp.
    + rewrite (built_range_at _ _ _ _ Fluid i p Hb Hp),
              (built_hosting _ _ _ _ Fluid i p Hb Hp), Hd.
      simpl in Hp. rewrite Hg in Hp.
      destruct i as [|[|[|i]]]; simpl in Hp; try discriminate;
        injection Hp as <-; simpl.
      * rewrite H0. simpl. rewrite P0. by destruct (Z.eqb_spec (nNodes s0) 0).
      * rewrite H1. simpl. by destruct (Z.eqb_spec (nNodes s1) 0).
      * rewrite H2. simpl. rewrite P2. by destruct (Z.eqb_spec (nNodes s2) 0).
    + rewrite lookup_ge_None_2.
      * simpl in Hp. rewrite Hg in Hp. by destruct i as [|[|[|i]]].
      * rewrite (built_range_length _ _ _ _ Fluid Hb). by apply lookup_ge_None_1.
  - by rewrite (built_total _ _ _ _ Hb Fluid), Hd.
Qed.

Lemma three_ranks_4_0_6_witness :
  ∃ m, Manager_init (fluidOf idleRank2) (solidOf idleRank2) 3 "steady"
         (Some (idleComm 2)) = Ok m
       ∧ fluidGlobalIndexRange m = [(0, 3); (0, 0); (4, 9)]
       ∧ nFluidInterfacePhysicalNodes m = 10.
Proof.
  apply (three_ranks_4_0_6 (fluidOf idleRank2) (solidOf idleRank2) 3 "steady"
           (idleComm 2) idleRank0 idleRank1 idleRank2
           (solverFrom 100 4 4 ∅) (solverFrom 0 0 0 ∅) (solverFrom 200 6 6 ∅));
    (reflexivity || (simpl; lia)).
Defined.

(** C1 at this input: rank 0 hosts solid interface nodes and reports 2
    physical nodes, so its range should be (0, 1); the constructor stores
    (0, 2), and rank 1's range (2, 3) starts inside it. *)
Theorem solid_stop_counts_halo_nodes :
  (λ m, (solidInterfaceProcessors m, solidPhysicalInterfaceNodesDistribution m,
         solidGlobalIndexRange m))
    <$> Manager_init (fluidOf solidHaloRank0) (solidOf solidHaloRank0) 3 "steady"
          (Some (solidHaloComm 0))
  = Ok ([0; 1], [2; 2], [(0, 2); (2, 3)]).
Proof. by vm_compute. Qed.

(** The general form: the range of a rank that hosts interface nodes on a
    side starts at the exclusive prefix sum of the distribution and stops
    at start + count - 1, where the count is the local physical count,
    except on the solid side under MPI, where it is the local node count. *)
Lemma hosting_rank_range FluidSolver SolidSolver nDim computationType mpiComm m sd r p :
  ownRank FluidSolver SolidSolver mpiComm →
  Manager_init FluidSolver SolidSolver nDim computationType mpiComm = Ok m →
  worldOf FluidSolver SolidSolver mpiComm !! r = Some p →
  inProcessors r (interfaceProcessorsOf sd m) = true →
  globalIndexRangeOf sd m !! r
  = Some (sumZ (take r (distributionOf sd m)),
          sumZ (take r (distributionOf sd m)) + stopCount sd mpiComm p - 1).
Proof.
  intros Hown Hm Hp Hh.
  pose proof (Manager_init_Ok_built _ _ _ _ _ _ Hown Hm) as Hb.
  by rewrite (built_range_at _ _ _ _ sd r p Hb Hp), Hh.
Qed.

Lemma idleWorld_soundCounts sd : soundCounts sd idleWorld.
Proof.
  intros i p s Hp Hs.
  destruct i as [|[|[|i]]]; simpl in Hp; try discriminate;
    injection Hp as <-; destruct sd; simpl in Hs; try discriminate;
    injection Hs as <-; simpl; lia.
Qed.

Lemma idleWorld_built_on_rank0 :
  is_Ok (Manager_init (fluidOf idleRank0) (solidOf idleRank0) 3 "steady"
           (Some (idleComm 0))).
Proof.
  destruct (Manager_init (fluidOf idleRank0) (solidOf idleRank0) 3 "steady"
              (Some (idleComm 0))) as [m|e] eqn:Hm; [by exists m|].
  pose proof idleWorld_fluid_ranges as E. rewrite Hm in E. discriminate.
Qed.

(** C2, as stated, fails: in the run with physical counts 4, 0, 6 the
    counts are sound and no halo set is used, yet index 0 lies in the range
    of rank 0 and in the range of rank 1, so the ranges of all ranks do not
    partition 0..9. *)
Lemma idle_rank_range_overlaps :
  (∀ sd, soundCounts sd idleWorld)
  ∧ ∃ m, Manager_init (fluidOf idleRank0) (solidOf idleRank0) 3 "steady"
           (Some (idleComm 0)) = Ok m
         ∧ nFluidInterfacePhysicalNodes m = 10
         ∧ (∃ rg0 rg1, fluidGlobalIndexRange m !! 0%nat = Some rg0
                       ∧ fluidGlobalIndexRange m !! 1%nat = Some rg1
                       ∧ 0 ∈ rangeIndices rg0 ∧ 0 ∈ rangeIndices rg1)
         ∧ ¬ partitions (fluidGlobalIndexRange m) (nFluidInterfacePhysicalNodes m).
Proof.
  split; [exact idleWorld_soundCounts|].
  destruct idleWorld_built_on_rank0 as [m Hm].
  pose proof idleWorld_fluid_ranges as E. rewrite Hm in E.
  injection E as Er Et. exists m. split; [done|]. split; [done|].
  rewrite Er, Et. split.
  - exists (0, 3), (0, 0). repeat split;
      apply (bool_decide_unpack _); by vm_compute.
  - unfold partitions. by vm_compute.
Qed.

Lemma concat_prefix_ranges (d : list Z) :
  Forall (λ x, 0 ≤ x) d →
  concat (imap (λ i x, seqZ (sumZ (take i d)) x) d) = seqZ 0 (sumZ d).
Proof.
  induction d as [|x d IH] using rev_ind; intros Hd; [done|].
  apply Forall_app in Hd as [Hd Hx]. rewrite Forall_singleton in Hx.
  assert (0 ≤ sumZ d) as Hs.
  { clear IH. induction Hd as [|y d Hy Hd IH]; unfold sumZ in *; simpl; lia. }
  rewrite imap_app, concat_app. simpl. rewrite app_nil_r, Nat.add_0_r.
  rewrite take_app_length, sumZ_app.
  replace (sumZ [x]) with x by (unfold sumZ; simpl; lia).
  rewrite seqZ_app by lia. simpl. f_equal.
  rewrite <-IH by done. f_equal. apply imap_ext. intros i y Hy. simpl.
  rewrite take_app_le; [done|]. apply lookup_lt_Some in Hy. lia.
Qed.

Lemma rangeIndices_span start n :
  rangeIndices (start, start + n - 1) = seqZ start n.
Proof. unfold rangeIndices. simpl. f_equal. lia. Qed.

Lemma physicalOf_idle sd w i p :
  soundCounts sd w → w !! i = Some p →
  haveInterface (solverOf sd p) = false → physicalOf (solverOf sd p) = 0.
Proof.
  intros Hs Hp Hh. destruct (solverOf sd p) as [s|] eqn:E; [|done]. simpl in *.
  apply negb_false_iff, Z.eqb_eq in Hh. by apply (Hs i p s Hp E).
Qed.

Lemma stopCount_physical sd FluidSolver SolidSolver mpiComm i p :
  (sd = Solid → noSolidHaloUnderMPI mpiComm) →
  worldOf FluidSolver SolidSolver mpiComm !! i = Some p →
  stopCount sd mpiComm p = physicalOf (solverOf sd p).
Proof.
  intros Hn Hp. destruct mpiComm as [c|], sd; try reflexivity.
  specialize (Hn eq_refl).
  simpl in *. destruct (solidOf p) as [s|] eqn:E; [|done]. simpl.
  by apply (Hn i p s).
Qed.

(** C2, amended: on a side whose physical counts are sound, the ranges of
    the ranks that host interface nodes on that side are pairwise disjoint,
    contiguous in rank order, and cover exactly 0..total-1, and a rank that
    hosts none holds the placeholder pair (0, 0), which is no part of the
    partition.  The fluid side needs nothing of the solid collaborators;
    on the solid side of an MPI run this is stated for solid collaborators
    without halo nodes only. *)
Theorem hosting_ranges_partition
    FluidSolver SolidSolver nDim computationType mpiComm m sd :
  ownRank FluidSolver SolidSolver mpiComm →
  Manager_init FluidSolver SolidSolver nDim computationType mpiComm = Ok m →
  soundCounts sd (worldOf FluidSolver SolidSolver mpiComm) →
  (sd = Solid → noSolidHaloUnderMPI mpiComm) →
  ownedIndices (interfaceProcessorsOf sd m) (globalIndexRangeOf sd m)
  = seqZ 0 (totalPhysicalOf sd m)
  ∧ (∀ r rg, globalIndexRangeOf sd m !! r = Some rg →
             inProcessors r (interfaceProcessorsOf sd m) = false →
             rg = (0, 0) ∧ distributionOf sd m !! r = Some 0).
Proof.
  intros Hown Hm Hs Hn.
  pose proof (Manager_init_Ok_built _ _ _ _ _ _ Hown Hm) as Hb.
  split.
  - unfold ownedIndices.
    rewrite (built_total _ _ _ _ Hb sd).
    rewrite <-concat_prefix_ranges.
    2:{ rewrite (built_distribution _ _ _ _ Hb sd). apply Forall_forall.
        intros x Hx. apply list_elem_of_fmap in Hx as (p & -> & Hp).
        apply list_elem_of_lookup in Hp as [i Hp]. simpl.
        destruct (solverOf sd p) as [s|] eqn:E; [|done].
        by apply (Hs i p s Hp E). }
    f_equal. apply list_eq. intros i. rewrite !list_lookup_imap.
    destruct (worldOf FluidSolver SolidSolver mpiComm !! i) as [p|] eqn:Hp.
    + rewrite (built_range_at _ _ _ _ sd i p Hb Hp).
      rewrite (built_distribution _ _ _ _ Hb sd) at 3.
      rewrite list_lookup_fmap, Hp. simpl. f_equal.
      rewrite (stopCount_physical sd _ _ _ i p Hn Hp).
      destruct (inProcessors i (interfaceProcessorsOf sd m)) eqn:Hh.
      * apply rangeIndices_span.
      * rewrite (built_hosting _ _ _ _ sd i p Hb Hp) in Hh.
        destruct mpiComm as [c|]; [|discriminate].
        rewrite (physicalOf_idle sd _ i p Hs Hp Hh). by rewrite seqZ_nil.
    + rewrite (lookup_ge_None_2 (globalIndexRangeOf sd m)).
      2:{ rewrite (built_range_length _ _ _ _ sd Hb). by apply lookup_ge_None_1. }
      rewrite (built_distribution _ _ _ _ Hb sd), list_lookup_fmap, Hp. done.
  - intros r rg Hrg Hh.
    destruct (worldOf FluidSolver SolidSolver mpiComm !! r) as [p|] eqn:Hp.
    + rewrite (built_range_at _ _ _ _ sd r p Hb Hp), Hh in Hrg.
      injection Hrg as <-. split; [done|].
      rewrite (built_hosting _ _ _ _ sd r p Hb Hp) in Hh.
      destruct mpiComm as [c|]; [|discriminate].
      rewrite (built_distribution _ _ _ _ Hb sd), list_lookup_fmap, Hp. simpl.
      f_equal. by apply (physicalOf_idle sd _ r p Hs Hp).
    + apply lookup_lt_Some in Hrg.
      rewrite (built_range_length _ _ _ _ sd Hb) in Hrg.
      apply lookup_ge_None_1 in Hp. lia.
Qed.

Lemma solidHaloWorld_present :
  is_Ok (Manager_init (fluidOf solidHaloRank0) (solidOf solidHaloRank0) 3 "steady"
           (Some (solidHaloComm 0))).
Proof.
  destruct (Manager_init_present_Ok (fluidOf solidHaloRank0) (solidOf solidHaloRank0)
              3 "steady" (Some (solidHaloComm 0))) as (m & Hm & _).
  - reflexivity.
  - intros i p Hp. destruct i as [|[|i]]; simpl in Hp; try discriminate;
      injection Hp as <-; simpl; eauto.
  - by exists m.
Qed.

Lemma haloWorld_present_on_rank0 :
  is_Ok (Manager_init (fluidOf haloRank0) (solidOf haloRank0) 2 "steady"
           (Some (haloComm 0))).
Proof.
  destruct (Manager_init_present_Ok (fluidOf haloRank0) (solidOf haloRank0)
              2 "steady" (Some (haloComm 0))) as (m & Hm & _).
  - reflexivity.
  - intros i p Hp. destruct i as [|[|i]]; simpl in Hp; try discriminate;
      injection Hp as <-; simpl; eauto.
  - by exists m.
Qed.

Lemma hosting_ranges_partition_witness :
  (∃ m, Manager_init (fluidOf solidHaloRank0) (solidOf solidHaloRank0) 3 "steady"
          (Some (solidHaloComm 0)) = Ok m
        ∧ ownedIndices (interfaceProcessorsOf Fluid m) (globalIndexRangeOf Fluid m)
          = seqZ 0 (totalPhysicalOf Fluid m)
        ∧ (∀ r rg, globalIndexRangeOf Fluid m !! r = Some rg →
                   inProcessors r (interfaceProcessorsOf Fluid m) = false →
                   rg = (0, 0) ∧ distributionOf Fluid m !! r = Some 0))
  ∧ (∃ m, Manager_init (fluidOf haloRank0) (solidOf haloRank0) 2 "steady"
            (Some (haloComm 0)) = Ok m
          ∧ ownedIndices (interfaceProcessorsOf Solid m) (globalIndexRangeOf Solid m)
            = seqZ 0 (totalPhysicalOf Solid m)
          ∧ (∀ r rg, globalIndexRangeOf Solid m !! r = Some rg →
                     inProcessors r (interfaceProcessorsOf Solid m) = false →
                     rg = (0, 0) ∧ distributionOf Solid m !! r = Some 0)).
Proof.
  split.
  - destruct solidHaloWorld_present as [m Hm]. exists m. split; [exact Hm|].
    apply (hosting_ranges_partition (fluidOf solidHaloRank0) (solidOf solidHaloRank0)
             3 "steady" (Some (solidHaloComm 0)) m Fluid).
    + reflexivity.
    + exact Hm.
    + intros i p s Hp Hs.
      destruct i as [|[|i]]; simpl in Hp; try discriminate;
        injection Hp as <-; injection Hs as <-; simpl; lia.
    + discriminate.
  - destruct haloWorld_present_on_rank0 as [m Hm]. exists m. split; [exact Hm|].
    apply (hosting_ranges_partition (fluidOf haloRank0) (solidOf haloRank0)
             2 "steady" (Some (haloComm 0)) m Solid).
    + reflexivity.
    + exact Hm.
    + intros i p s Hp Hs.
      destruct i as [|[|i]]; simpl in Hp; try discriminate;
        injection Hp as <-; try discriminate Hs; injection Hs as <-; simpl; lia.
    + intros _ i p s Hp Hs.
      destruct i as [|[|i]]; simpl in Hp; try discriminate;
        injection Hp as <-; try discriminate Hs; injection Hs as <-; reflexivity.
Defined.

Lemma getGlobalIndex_is_start_plus_k_witness :
  ∃ m, Manager_init (fluidOf idleRank0) (solidOf idleRank0) 3 "steady"
         (Some (idleComm 0)) = Ok m
       ∧ globalIndexRangeOf Fluid m !! 2%nat = Some (4, 9)
       ∧ getGlobalIndex (domainOf Fluid) 2 5 m = Ok ((4, 9).1 + 5, m).
Proof.
  destruct idleWorld_built_on_rank0 as [m Hm]. exists m. split; [exact Hm|].
  assert (globalIndexRangeOf Fluid m !! 2%nat = Some (4, 9)) as H.
  { pose proof idleWorld_fluid_ranges as E. rewrite Hm in E.
    injection E as E _. simpl. by rewrite E. }
  split; [exact H|].
  apply (getGlobalIndex_is_start_plus_k Fluid m 2 5 (4, 9)). exact H.
Defined.

(** ** The partial map of a rank *)

Lemma built_lookup_halo FluidSolver SolidSolver mpiComm m sd P p :
  built FluidSolver SolidSolver mpiComm m →
  worldOf FluidSolver SolidSolver mpiComm !! P = Some p →
  haloNodesListOf sd m !! P = Some (haloSeen mpiComm (solverOf sd p)).
Proof.
  intros Hb Hp. by rewrite (built_halos _ _ _ _ Hb sd), list_lookup_fmap, Hp.
Qed.

(** What rank [P] contributes to the merge, given what the manager holds. *)
Lemma built_partial FluidSolver SolidSolver mpiComm m P p :
  built FluidSolver SolidSolver mpiComm m →
  worldOf FluidSolver SolidSolver mpiComm !! P = Some p →
  localIndexing P p (fluidHaloNodesList m) (solidHaloNodesList m)
    (fluidGlobalIndexRange m) (solidGlobalIndexRange m)
  = Ok (assignFrom (rangeStart (fluidGlobalIndexRange m) P)
          (insertedIds mpiComm (fluidOf p)) ∅,
        assignFrom (rangeStart (solidGlobalIndexRange m) P)
          (insertedIds mpiComm (solidOf p)) ∅).
Proof.
  intros Hb Hp.
  pose proof (built_lookup_halo _ _ _ _ Fluid P p Hb Hp) as HhF.
  pose proof (built_lookup_halo _ _ _ _ Solid P p Hb Hp) as HhS.
  pose proof (built_range_at _ _ _ _ Fluid P p Hb Hp) as HrF.
  pose proof (built_range_at _ _ _ _ Solid P p Hb Hp) as HrS.
  simpl in HhF, HhS, HrF, HrS.
  rewrite (localIndexing_Ok P p _ _ _ _ _ _ _ _ HhF HhS HrF HrS).
  unfold rangeStart. by rewrite HrF, HrS.
Qed.

Lemma built_start_concat FluidSolver SolidSolver mpiComm m sd i p :
  built FluidSolver SolidSolver mpiComm m →
  countsInserted sd mpiComm (worldOf FluidSolver SolidSolver mpiComm) →
  worldOf FluidSolver SolidSolver mpiComm !! i = Some p →
  insertedIds mpiComm (solverOf sd p) ≠ [] →
  rangeStart (globalIndexRangeOf sd m) i
  = Z.of_nat (length (concat (take i ((insertedIds mpiComm ∘ solverOf sd)
                <$> worldOf FluidSolver SolidSolver mpiComm)))).
Proof.
  intros Hb Hc Hp Hne.
  destruct (built_start _ _ _ _ sd i p Hb Hp) as [E|E].
  - destruct Hne. unfold insertedIds, keptIds. by rewrite E.
  - rewrite E, (built_distribution _ _ _ _ Hb sd).
    apply (sumZ_take_lengths _ (physicalOf ∘ solverOf sd)
             (insertedIds mpiComm ∘ solverOf sd)).
    intros j q Hq. exact (Hc j q Hq).
Qed.

(** In a duplicate-free concatenation, what the owner of an identifier
    assigns to it is what the one assignment over the concatenation gives. *)
Lemma assignFrom_concat_owner (idss : list (list Z)) Q ids x g :
  NoDup (concat idss) → idss !! Q = Some ids →
  assignFrom (Z.of_nat (length (concat (take Q idss)))) ids ∅ !! x = Some g →
  assignFrom 0 (concat idss) ∅ !! x = Some g.
Proof.
  intros Hnd HQ Hx.
  apply assignFrom_lookup_Some in Hx as [(j & Hj & ->)|Hx];
    [|by rewrite lookup_empty in Hx].
  rewrite <-(take_drop_middle idss Q ids HQ) in Hnd |- *.
  rewrite concat_app in Hnd |- *. simpl in Hnd |- *.
  apply NoDup_app in Hnd as (_ & _ & Hnd).
  apply NoDup_app in Hnd as (Hids & Hdisj & _).
  rewrite !assignFrom_app.
  rewrite assignFrom_lookup_notin.
  - rewrite take_app_length' by (rewrite length_take; apply lookup_lt_Some in HQ; lia).
    rewrite Z.add_0_l. by apply assignFrom_lookup_NoDup.
  - apply Hdisj. apply list_elem_of_lookup. eauto.
Qed.

(** C5, as stated, fails without communicator: the constructor then holds
    the empty halo set for its one process (lines 149-154), so an
    identifier the collaborator lists as halo is inserted like any other.
    Here the fluid collaborator has the identifiers 10, 11, 12, lists 12 as
    halo and reports 2 physical nodes: 12 is a key of the partial map, with
    the index 2, beyond the range (0, 1) of the process. *)
Lemma serial_run_inserts_halo_identifier :
  is_Some (haloOf (fluidOf haloRank0) !! 12)
  ∧ ∃ m temps,
      Manager_init (fluidOf haloRank0) (solidOf haloRank0) 2 "steady" None = Ok m
      ∧ localIndexing 0 haloRank0 (fluidHaloNodesList m) (solidHaloNodesList m)
          (fluidGlobalIndexRange m) (solidGlobalIndexRange m) = Ok temps
      ∧ partialOf Fluid temps !! 12 = Some 2
      ∧ fluidGlobalIndexRange m = [(0, 1)]
      ∧ fluidIndexing m !! 12 = Some 2.
Proof.
  split; [by eexists|].
  destruct (Manager_init (fluidOf haloRank0) (solidOf haloRank0) 2 "steady" None)
    as [m|e] eqn:Hm; [|by vm_compute in Hm].
  assert (fluidHaloNodesList m = [∅] ∧ solidHaloNodesList m = [∅]
          ∧ fluidGlobalIndexRange m = [(0, 1)] ∧ solidGlobalIndexRange m = [(0, 2)]
          ∧ fluidIndexing m = list_to_map [(10, 0); (11, 1); (12, 2)])
    as (HF & HS & RF & RS & HI).
  { vm_compute in Hm. injection Hm as <-. by vm_compute. }
  exists m. rewrite HF, HS, RF, RS, HI.
  eexists. split; [reflexivity|]. split; [by vm_compute|].
  split; [by vm_compute|]. split; [reflexivity|]. by vm_compute.
Qed.

(** C5, amended: under MPI, for a manager the constructor returned, a rank
    [P] of the group and a side, the manager holds for [P] the halo set
    [P]'s collaborator reported.  No key of that set is a key of the partial
    map [P] contributes to the merge; a vertex of [P] whose identifier is
    not in the set gets the start of [P]'s range plus the number of non-halo
    vertices before it (read at the last vertex carrying that identifier);
    and under the decomposition contract every key of the set is in the
    merged map with the global index its owner, another rank, gave it. *)
Theorem halo_identifiers_are_skipped
    FluidSolver SolidSolver nDim computationType c m sd P p :
  ownRank FluidSolver SolidSolver (Some c) →
  Manager_init FluidSolver SolidSolver nDim computationType (Some c) = Ok m →
  group c !! P = Some p →
  ∃ temps rg,
    localIndexing P p (fluidHaloNodesList m) (solidHaloNodesList m)
      (fluidGlobalIndexRange m) (solidGlobalIndexRange m) = Ok temps
    ∧ haloNodesListOf sd m !! P = Some (haloOf (solverOf sd p))
    ∧ globalIndexRangeOf sd m !! P = Some rg
    ∧ (∀ x, is_Some (haloOf (solverOf sd p) !! x) → partialOf sd temps !! x = None)
    ∧ (∀ s v, solverOf sd p = Some s → 0 ≤ v < nNodes s →
         haloNodeList s !! getNodalIndex s v = None →
         (∀ v', v < v' < nNodes s → getNodalIndex s v' ≠ getNodalIndex s v) →
         partialOf sd temps !! getNodalIndex s v
         = Some (rg.1 + Z.of_nat (length (keptIds (haloNodeList s)
                                            (getNodalIndex s <$> range v)))))
    ∧ (decomposition sd (group c) →
       ∀ x, is_Some (haloOf (solverOf sd p) !! x) →
         ∃ Q q tempsQ g,
           Q ≠ P ∧ group c !! Q = Some q
           ∧ localIndexing Q q (fluidHaloNodesList m) (solidHaloNodesList m)
               (fluidGlobalIndexRange m) (solidGlobalIndexRange m) = Ok tempsQ
           ∧ partialOf sd tempsQ !! x = Some g
           ∧ indexingOf sd m !! x = Some g).
Proof.
  intros Hown Hm Hp.
  pose proof (Manager_init_Ok_built _ _ _ _ _ _ Hown Hm) as Hb.
  pose proof (built_range_at _ _ _ _ sd P p Hb Hp) as Hrg.
  eexists _, _.
  split; [exact (built_partial _ _ _ _ P p Hb Hp)|].
  split; [exact (built_lookup_halo _ _ _ _ sd P p Hb Hp)|].
  split; [exact Hrg|].
  assert (partialOf sd
            (assignFrom (rangeStart (fluidGlobalIndexRange m) P)
               (insertedIds (Some c) (fluidOf p)) ∅,
             assignFrom (rangeStart (solidGlobalIndexRange m) P)
               (insertedIds (Some c) (solidOf p)) ∅)
          = assignFrom (rangeStart (globalIndexRangeOf sd m) P)
              (insertedIds (Some c) (solverOf sd p)) ∅) as -> by (by destruct sd).
  split; [|split].
  - intros x Hx. rewrite assignFrom_lookup_notin; [apply lookup_empty|].
    intros [Hnone _]%elem_of_keptIds. simpl in Hnone. rewrite Hnone in Hx.
    by destruct Hx.
  - intros s v Hs Hv Hkept Hlast.
    unfold rangeStart. rewrite Hrg.
    unfold insertedIds. rewrite Hs. simpl. unfold range.
    replace (nNodes s) with (v + (nNodes s - v)) at 1 by lia.
    rewrite seqZ_app, (seqZ_cons (0 + v)) by lia.
    rewrite fmap_app, fmap_cons, keptIds_app, Z.add_0_l.
    rewrite keptIds_cons_kept by (rewrite Hkept; by intros [? ?]).
    apply assignFrom_lookup_last.
    intros [_ Hin]%elem_of_keptIds.
    apply list_elem_of_fmap in Hin as (v' & Hv' & Hin).
    apply elem_of_seqZ in Hin. apply (Hlast v'); [lia|done].
  - intros Hd x Hx.
    destruct (halo_owned_elsewhere _ _ Hd P p x Hp Hx) as (Q & q & Hne & Hq & Hin).
    assert (is_Some (assignFrom (rangeStart (globalIndexRangeOf sd m) Q)
                       (insertedIds (Some c) (solverOf sd q)) ∅ !! x)) as [g Hg].
    { apply assignFrom_is_Some. by left. }
    exists Q, q. eexists _, g. split; [done|]. split; [done|].
    split; [exact (built_partial _ _ _ _ Q q Hb Hq)|].
    split; [by destruct sd|].
    rewrite (decomposition_indexing sd _ _ _ _ Hb Hd).
    apply (assignFrom_concat_owner _ Q (physicalIds (solverOf sd q))).
    + apply (owned_once _ _ Hd).
    + rewrite list_lookup_fmap. unfold worldOf. by rewrite Hq.
    + rewrite (built_start_concat _ _ _ _ sd Q q Hb) in Hg; try done.
      * by apply decomposition_countsInserted.
      * intros E. change (insertedIds (Some c) (solverOf sd q))
          with (physicalIds (solverOf sd q)) in E.
        rewrite E in Hin. by apply elem_of_nil in Hin.
Qed.

Lemma haloWorld_built_on_rank1 :
  is_Ok (Manager_init (fluidOf haloRank1) (solidOf haloRank1) 2 "steady"
           (Some (haloComm 1))).
Proof.
  destruct (Manager_init_present_Ok (fluidOf haloRank1) (solidOf haloRank1)
              2 "steady" (Some (haloComm 1))) as (m & Hm & _).
  - reflexivity.
  - intros i p Hp. apply lookup_pair_world in Hp as [[-> ->]|[-> ->]]; simpl; eauto.
  - by exists m.
Qed.

Lemma halo_identifiers_are_skipped_witness :
  ∃ m, Manager_init (fluidOf haloRank1) (solidOf haloRank1) 2 "steady"
         (Some (haloComm 1)) = Ok m
  ∧ ∃ temps rg,
    localIndexing 0 haloRank0 (fluidHaloNodesList m) (solidHaloNodesList m)
      (fluidGlobalIndexRange m) (solidGlobalIndexRange m) = Ok temps
    ∧ haloNodesListOf Fluid m !! 0%nat = Some (haloOf (solverOf Fluid haloRank0))
    ∧ globalIndexRangeOf Fluid m !! 0%nat = Some rg
    ∧ (∀ x, is_Some (haloOf (solverOf Fluid haloRank0) !! x) →
            partialOf Fluid temps !! x = None)
    ∧ (∀ s v, solverOf Fluid haloRank0 = Some s → 0 ≤ v < nNodes s →
         haloNodeList s !! getNodalIndex s v = None →
         (∀ v', v < v' < nNodes s → getNodalIndex s v' ≠ getNodalIndex s v) →
         partialOf Fluid temps !! getNodalIndex s v
         = Some (rg.1 + Z.of_nat (length (keptIds (haloNodeList s)
                                            (getNodalIndex s <$> range v)))))
    ∧ (decomposition Fluid (group (haloComm 1)) →
       ∀ x, is_Some (haloOf (solverOf Fluid haloRank0) !! x) →
         ∃ Q q tempsQ g,
           Q ≠ 0%nat
           ∧ group (haloComm 1) !! Q = Some q
           ∧ localIndexing Q q (fluidHaloNodesList m) (solidHaloNodesList m)
               (fluidGlobalIndexRange m) (solidGlobalIndexRange m) = Ok tempsQ
           ∧ partialOf Fluid tempsQ !! x = Some g
           ∧ indexingOf Fluid m !! x = Some g).
Proof.
  destruct haloWorld_built_on_rank1 as [m Hm]. exists m. split; [exact Hm|].
  apply (halo_identifiers_are_skipped (fluidOf haloRank1) (solidOf haloRank1)
           2 "steady" (haloComm 1) m Fluid 0 haloRank0).
  - reflexivity.
  - exact Hm.
  - reflexivity.
Defined.

(** The partial maps of that run: rank 0 leaves out its halo identifier 12,
    rank 1 supplies it. *)
Example haloWorld_partial_maps :
  (λ m, (partialOf Fluid <$> localIndexing 0 haloRank0 (fluidHaloNodesList m)
            (solidHaloNodesList m) (fluidGlobalIndexRange m) (solidGlobalIndexRange m),
         partialOf Fluid <$> localIndexing 1 haloRank1 (fluidHaloNodesList m)
            (solidHaloNodesList m) (fluidGlobalIndexRange m) (solidGlobalIndexRange m)))
    <$> Manager_init (fluidOf haloRank1) (solidOf haloRank1) 2 "steady"
          (Some (haloComm 1))
  = Ok (Ok (list_to_map [(10, 0); (11, 1)]), Ok (list_to_map [(12, 2); (13, 3)])).
Proof. by vm_compute. Qed.

(** ** One process against several *)

(** C6, as stated, fails: both runs have the fluid identifiers 10, 11, 12
    and 3 physical fluid nodes in all (1 + 2 in the split run), but
    identifier 12 gets global index 2 in the one-process run and 0 in the
    two-process run. *)
Lemma split_run_assigns_other_indices :
  (λ m, (nFluidInterfacePhysicalNodes m, fluidIndexing m))
    <$> Manager_init (Some wholeFluid) (Some wholeSolid) 3 "steady" None
  = Ok (3, list_to_map [(10, 0); (11, 1); (12, 2)])
  ∧ (λ m, (nFluidInterfacePhysicalNodes m,
           fluidPhysicalInterfaceNodesDistribution m, fluidIndexing m))
      <$> Manager_init (fluidOf splitRank0) (solidOf splitRank0) 3 "steady"
            (Some (splitComm 0))
    = Ok (3, [1; 2], list_to_map [(12, 0); (10, 1); (11, 2)])
  ∧ (list_to_map [(10, 0); (11, 1); (12, 2)] : gmap Z Z) !! 12
    ≠ (list_to_map [(12, 0); (10, 1); (11, 2)] : gmap Z Z) !! 12.
Proof. split; [by vm_compute|]. split; [by vm_compute|]. by vm_compute. Qed.

Lemma single_indexing FluidSolver SolidSolver m sd :
  built FluidSolver SolidSolver None m →
  indexingOf sd m
  = assignFrom 0 (nodeIds (solverOf sd {| fluidOf := FluidSolver;
                                          solidOf := SolidSolver |})) ∅.
Proof.
  intros Hb. rewrite (built_indexing _ _ _ _ Hb sd). unfold worldOf. cbn [imap].
  rewrite mergeIndexing_singleton. unfold rangeStart.
  rewrite (built_range _ _ _ _ Hb sd). simpl.
  unfold insertedIds. simpl. by rewrite keptIds_empty.
Qed.

(** C6, amended: take a multi-process run in which every rank reports as
    physical count the number of its non-halo identifiers, and a
    one-process run whose collaborators enumerate, on each side, the
    non-halo identifiers of rank 0 in vertex order, then those of rank 1,
    and so on.  Then both constructions produce the same merged map on
    each side. *)
Theorem single_and_mpi_runs_agree
    FluidSolver1 SolidSolver1 nDim1 computationType1 m1
    FluidSolver SolidSolver nDim computationType c m :
  Manager_init FluidSolver1 SolidSolver1 nDim1 computationType1 None = Ok m1 →
  ownRank FluidSolver SolidSolver (Some c) →
  Manager_init FluidSolver SolidSolver nDim computationType (Some c) = Ok m →
  (∀ sd i p, group c !! i = Some p →
     physicalOf (solverOf sd p) = Z.of_nat (length (physicalIds (solverOf sd p)))) →
  (∀ sd, nodeIds (solverOf sd {| fluidOf := FluidSolver1; solidOf := SolidSolver1 |})
         = concat ((physicalIds ∘ solverOf sd) <$> group c)) →
  ∀ sd, indexingOf sd m1 = indexingOf sd m.
Proof.
  intros Hm1 Hown Hm Hc Hids sd.
  pose proof (Manager_init_Ok_built _ _ _ _ None _ I Hm1) as Hb1.
  pose proof (Manager_init_Ok_built _ _ _ _ _ _ Hown Hm) as Hb.
  rewrite (single_indexing _ _ _ sd Hb1), Hids.
  rewrite (built_indexing_closed _ _ _ _ sd Hb); [done|].
  intros i p Hp. exact (Hc sd i p Hp).
Qed.

Lemma single_and_mpi_runs_agree_witness :
  ∃ m1 m,
    Manager_init (Some (solverFrom 10 4 4 ∅)) (Some (solverFrom 0 3 3 ∅))
      2 "steady" None = Ok m1
    ∧ Manager_init (fluidOf haloRank1) (solidOf haloRank1) 2 "steady"
        (Some (haloComm 1)) = Ok m
    ∧ ∀ sd, indexingOf sd m1 = indexingOf sd m.
Proof.
  destruct (Manager_init_single (solverFrom 10 4 4 ∅) (solverFrom 0 3 3 ∅)
              2 "steady") as (m1 & Hm1 & _).
  destruct haloWorld_built_on_rank1 as [m Hm].
  exists m1, m. split; [exact Hm1|]. split; [exact Hm|].
  apply (single_and_mpi_runs_agree
           (Some (solverFrom 10 4 4 ∅)) (Some (solverFrom 0 3 3 ∅)) 2 "steady" m1
           (fluidOf haloRank1) (solidOf haloRank1) 2 "steady" (haloComm 1) m).
  - exact Hm1.
  - reflexivity.
  - exact Hm.
  - intros sd i p Hp. exact (counts_match _ _ (haloWorld_decomposition sd) i p Hp).
  - intros sd. by destruct sd.
Defined.

(** * Further properties of the manager *)

Lemma Manager_init_rest FluidSolver SolidSolver nDim computationType mpiComm m :
  ownRank FluidSolver SolidSolver mpiComm →
  Manager_init FluidSolver SolidSolver nDim computationType mpiComm = Ok m →
  builtRest FluidSolver SolidSolver nDim computationType mpiComm m.
Proof.
  intros Hown Hm.
  pose proof (Manager_init_Ok_present _ _ _ _ _ _ Hm) as Hpres.
  destruct mpiComm as [c|].
  - simpl in Hown, Hpres. revert Hm. unfold Manager_init.
    rewrite processorSets_mpi. cbn [mbind result_bind].
    rewrite (localHalo_rank c Hpres _ _ Hown), (gather_fluidHalo c Hpres),
            (gather_solidHalo c Hpres).
    cbn [mbind result_bind].
    rewrite (localPhysical_rank c Hpres _ _ Hown). cbn [mbind result_bind].
    unfold mpiAllReduce, mpiAllGather.
    rewrite (gather_fluidNodes c Hpres), (gather_fluidPhysical c Hpres),
            (gather_solidNodes c Hpres), (gather_solidPhysical c Hpres).
    cbn [mbind result_bind fmap result_fmap].
    rewrite (gather_fluidRange c Hpres), (gather_solidRange c Hpres).
    cbn [mbind result_bind].
    rewrite (localIndexing_rank c _ _ _ _ Hown) by (by rewrite length_imap).
    cbn [mbind result_bind].
    rewrite (gather_solidIndexing c), (gather_fluidIndexing c)
      by (by rewrite length_imap).
    cbn [mbind result_bind fmap result_fmap].
    intros [= <-]. split; try reflexivity; intros []; reflexivity.
  - destruct Hpres as [[sF ->] [sS ->]]. revert Hm. unfold Manager_init. simpl.
    erewrite (localIndexing_Ok 0 _ [∅] [∅] [_] [_] ∅ ∅) by reflexivity.
    simpl. intros [= <-].
    split; try reflexivity; intros []; simpl; unfold sumZ; simpl;
      (reflexivity || lia).
Qed.

(** ** The processor sets (lines 112-142) *)

Lemma elem_of_processorsWith_Z have w (x : Z) :
  x ∈ processorsWith have w
  ↔ ∃ (i : nat) p, x = Z.of_nat i ∧ w !! i = Some p ∧ have p = true.
Proof.
  unfold processorsWith, withoutSentinel.
  rewrite list_elem_of_filter, list_elem_of_lookup. split.
  - intros [Hne [j Hj]]. rewrite list_lookup_imap in Hj.
    destruct (w !! j) as [q|] eqn:Hq; [|done]. simpl in Hj.
    injection Hj as Hj. unfold sendBuf in Hj.
    destruct (have q) eqn:Hh; [|lia]. exists j, q. by rewrite Hj.
  - intros (i & p & -> & Hp & Hh). split; [lia|].
    exists i. rewrite list_lookup_imap, Hp. simpl. unfold sendBuf. by rewrite Hh.
Qed.

Lemma withoutSentinel_sorted (have : Collaborators → bool) (w : list Collaborators)
    (k : nat) :
  StronglySorted Z.lt
    (withoutSentinel (imap (λ i p, sendBuf (have p) (k + i)) w))
  ∧ Forall (λ x, Z.of_nat k ≤ x)
      (withoutSentinel (imap (λ i p, sendBuf (have p) (k + i)) w)).
Proof.
  revert k. induction w as [|p w IH]; intros k.
  - split; constructor.
  - destruct (IH (S k)) as [Hs Hf]. cbn [imap].
    replace (imap ((λ i q, sendBuf (have q) (k + i)) ∘ S) w)
      with (imap (λ i q, sendBuf (have q) (S k + i)) w)
      by (apply imap_ext; intros i q _; simpl; f_equal; lia).
    unfold withoutSentinel in *. unfold sendBuf at 1 3. rewrite Nat.add_0_r.
    destruct (have p).
    + rewrite filter_cons_True by lia. split.
      * constructor; [done|]. eapply Forall_impl; [exact Hf|]. intros x Hx. simpl in Hx. lia.
      * constructor; [lia|]. eapply Forall_impl; [exact Hf|]. intros x Hx. simpl in Hx. lia.
    + rewrite filter_cons_False by lia. split; [done|].
      eapply Forall_impl; [exact Hf|]. intros x Hx. simpl in Hx. lia.
Qed.

Lemma processorsWith_sorted have w : StronglySorted Z.lt (processorsWith have w).
Proof. apply (withoutSentinel_sorted have w 0). Qed.

(** X1: under MPI the four processor sets list, in increasing order and
    without repetition, exactly the ranks of the group whose collaborator
    on that side is present (solver sets), respectively present with a
    non-zero node count (interface sets); an interface set is included in
    the solver set of its side. *)
Theorem processor_sets_list_the_ranks
    FluidSolver SolidSolver nDim computationType c m :
  ownRank FluidSolver SolidSolver (Some c) →
  Manager_init FluidSolver SolidSolver nDim computationType (Some c) = Ok m →
  ∀ sd,
    (∀ x, x ∈ solverProcessorsOf sd m ↔
          ∃ (i : nat) p, x = Z.of_nat i ∧ group c !! i = Some p
                         ∧ is_Some (solverOf sd p))
    ∧ (∀ x, x ∈ interfaceProcessorsOf sd m ↔
            ∃ (i : nat) p s, x = Z.of_nat i ∧ group c !! i = Some p
                             ∧ solverOf sd p = Some s ∧ nNodes s ≠ 0)
    ∧ StronglySorted Z.lt (solverProcessorsOf sd m)
    ∧ StronglySorted Z.lt (interfaceProcessorsOf sd m)
    ∧ interfaceProcessorsOf sd m ⊆ solverProcessorsOf sd m.
Proof.
  intros Hown Hm sd.
  pose proof (Manager_init_Ok_built _ _ _ _ _ _ Hown Hm) as Hb.
  pose proof (Manager_init_rest _ _ _ _ _ _ Hown Hm) as Hr.
  rewrite (rest_solverProcessors _ _ _ _ _ _ Hr sd), (built_processors _ _ _ _ Hb sd).
  assert (∀ x, x ∈ processorsWith (haveSolver ∘ solverOf sd) (group c) ↔
               ∃ (i : nat) p, x = Z.of_nat i ∧ group c !! i = Some p
                              ∧ is_Some (solverOf sd p)) as H1.
  { intros x. rewrite elem_of_processorsWith_Z. split.
    - intros (i & p & -> & Hp & Hh). exists i, p. split; [done|]. split; [done|].
      simpl in Hh. destruct (solverOf sd p); [eauto|discriminate].
    - intros (i & p & -> & Hp & [s Hs]). exists i, p. split; [done|]. split; [done|].
      simpl. by rewrite Hs. }
  assert (∀ x, x ∈ processorsWith (haveInterface ∘ solverOf sd) (group c) ↔
               ∃ (i : nat) p s, x = Z.of_nat i ∧ group c !! i = Some p
                                ∧ solverOf sd p = Some s ∧ nNodes s ≠ 0) as H2.
  { intros x. rewrite elem_of_processorsWith_Z. split.
    - intros (i & p & -> & Hp & Hh). simpl in Hh.
      destruct (solverOf sd p) as [s|] eqn:Hs; [|discriminate]. simpl in Hh.
      exists i, p, s. repeat split; try done.
      intros E. rewrite E in Hh. discriminate.
    - intros (i & p & s & -> & Hp & Hs & Hn). exists i, p. split; [done|]. split; [done|].
      simpl. rewrite Hs. simpl. by destruct (Z.eqb_spec (nNodes s) 0). }
  split; [exact H1|]. split; [exact H2|].
  split; [apply processorsWith_sorted|]. split; [apply processorsWith_sorted|].
  intros x Hx. apply H1. apply H2 in Hx as (i & p & s & -> & Hp & Hs & _).
  exists i, p. rewrite Hs. eauto.
Qed.

Lemma processor_sets_list_the_ranks_witness :
  ∃ m, Manager_init (fluidOf haloRank1) (solidOf haloRank1) 2 "steady"
         (Some (haloComm 1)) = Ok m
  ∧ ∀ sd,
    (∀ x, x ∈ solverProcessorsOf sd m ↔
          ∃ (i : nat) p, x = Z.of_nat i ∧ group (haloComm 1) !! i = Some p
                         ∧ is_Some (solverOf sd p))
    ∧ (∀ x, x ∈ interfaceProcessorsOf sd m ↔
            ∃ (i : nat) p s, x = Z.of_nat i ∧ group (haloComm 1) !! i = Some p
                             ∧ solverOf sd p = Some s ∧ nNodes s ≠ 0)
    ∧ StronglySorted Z.lt (solverProcessorsOf sd m)
    ∧ StronglySorted Z.lt (interfaceProcessorsOf sd m)
    ∧ interfaceProcessorsOf sd m ⊆ solverProcessorsOf sd m.
Proof.
  destruct haloWorld_built_on_rank1 as [m Hm]. exists m. split; [exact Hm|].
  apply (processor_sets_list_the_ranks (fluidOf haloRank1) (solidOf haloRank1)
           2 "steady" (haloComm 1) m); [reflexivity|exact Hm].
Defined.

(** X2: the flags of the calling rank.  In either mode the interface flag
    of a side is set exactly when the local node count of that side is not
    zero, and a side without collaborator has local node count 0; under MPI
    the calling rank is listed in a processor set exactly when its own
    flag for that set is raised. *)
Theorem flags_match_the_processor_sets
    FluidSolver SolidSolver nDim computationType mpiComm m :
  ownRank FluidSolver SolidSolver mpiComm →
  Manager_init FluidSolver SolidSolver nDim computationType mpiComm = Ok m →
  ∀ sd,
    (hasInterfaceOf sd m = true ↔ localNodesOf sd m ≠ 0)
    ∧ (hasSolverOf sd m = false → localNodesOf sd m = 0)
    ∧ (∀ c, mpiComm = Some c →
         (Z.of_nat (Get_rank c) ∈ solverProcessorsOf sd m ↔ hasSolverOf sd m = true)
         ∧ (Z.of_nat (Get_rank c) ∈ interfaceProcessorsOf sd m
            ↔ hasInterfaceOf sd m = true)).
Proof.
  intros Hown Hm sd.
  pose proof (Manager_init_Ok_built _ _ _ _ _ _ Hown Hm) as Hb.
  pose proof (Manager_init_rest _ _ _ _ _ _ Hown Hm) as Hr.
  rewrite (rest_hasInterface _ _ _ _ _ _ Hr sd), (rest_hasSolver _ _ _ _ _ _ Hr sd),
          (rest_localNodes _ _ _ _ _ _ Hr sd).
  set (me := {| fluidOf := FluidSolver; solidOf := SolidSolver |}) in *.
  split; [|split].
  - destruct (solverOf sd me) as [s|]; simpl.
    + by rewrite negb_true_iff, Z.eqb_neq.
    + split; [discriminate|]. intros H. by destruct H.
  - by destruct (solverOf sd me).
  - intros c ->. simpl in Hown.
    rewrite (rest_solverProcessors _ _ _ _ _ _ Hr sd), (built_processors _ _ _ _ Hb sd).
    rewrite !elem_of_processorsWith. split.
    + split; [intros (p & Hp & Hh)|intros Hh; exists me; split; [done|exact Hh]].
      rewrite Hown in Hp. injection Hp as <-. exact Hh.
    + split; [intros (p & Hp & Hh)|intros Hh; exists me; split; [done|exact Hh]].
      rewrite Hown in Hp. injection Hp as <-. exact Hh.
Qed.

Lemma flags_match_the_processor_sets_witness :
  ∃ m, Manager_init (fluidOf haloRank1) (solidOf haloRank1) 2 "steady"
         (Some (haloComm 1)) = Ok m
  ∧ ∀ sd,
    (hasInterfaceOf sd m = true ↔ localNodesOf sd m ≠ 0)
    ∧ (hasSolverOf sd m = false → localNodesOf sd m = 0)
    ∧ (∀ c, Some (haloComm 1) = Some c →
         (Z.of_nat (Get_rank c) ∈ solverProcessorsOf sd m ↔ hasSolverOf sd m = true)
         ∧ (Z.of_nat (Get_rank c) ∈ interfaceProcessorsOf sd m
            ↔ hasInterfaceOf sd m = true)).
Proof.
  destruct haloWorld_built_on_rank1 as [m Hm]. exists m. split; [exact Hm|].
  apply (flags_match_the_processor_sets (fluidOf haloRank1) (solidOf haloRank1)
           2 "steady" (Some (haloComm 1)) m); [reflexivity|exact Hm].
Defined.

(** X3: without communicator rank 0 is listed in all four processor sets,
    whatever the collaborators: also as a solid-interface process when the
    solid collaborator has no interface node at all. *)
Theorem single_process_sets_are_rank_zero
    FluidSolver SolidSolver nDim computationType m :
  Manager_init FluidSolver SolidSolver nDim computationType None = Ok m →
  fluidSolverProcessors m = [0]
  ∧ getSolidSolverProcessors m = [0]
  ∧ getFluidInterfaceProcessors m = [0]
  ∧ getSolidInterfaceProcessors m = [0]
  ∧ ∀ sd, hasInterfaceOf sd m
          = haveInterface (solverOf sd {| fluidOf := FluidSolver;
                                          solidOf := SolidSolver |}).
Proof.
  intros Hm.
  pose proof (Manager_init_Ok_built _ _ _ _ None _ I Hm) as Hb.
  pose proof (Manager_init_rest _ _ _ _ None _ I Hm) as Hr.
  split; [exact (rest_solverProcessors _ _ _ _ _ _ Hr Fluid)|].
  split; [exact (rest_solverProcessors _ _ _ _ _ _ Hr Solid)|].
  split; [exact (built_processors _ _ _ _ Hb Fluid)|].
  split; [exact (built_processors _ _ _ _ Hb Solid)|].
  exact (rest_hasInterface _ _ _ _ _ _ Hr).
Qed.

Lemma single_process_sets_are_rank_zero_witness :
  ∃ m, Manager_init (Some (solverFrom 0 3 3 ∅)) (Some (solverFrom 0 0 0 ∅))
         2 "steady" None = Ok m
  ∧ fluidSolverProcessors m = [0]
  ∧ getSolidSolverProcessors m = [0]
  ∧ getFluidInterfaceProcessors m = [0]
  ∧ getSolidInterfaceProcessors m = [0]
  ∧ ∀ sd, hasInterfaceOf sd m
          = haveInterface (solverOf sd {| fluidOf := Some (solverFrom 0 3 3 ∅);
                                          solidOf := Some (solverFrom 0 0 0 ∅) |}).
Proof.
  destruct (Manager_init_single (solverFrom 0 3 3 ∅) (solverFrom 0 0 0 ∅)
              2 "steady") as (m & Hm & _).
  exists m. split; [exact Hm|].
  apply (single_process_sets_are_rank_zero (Some (solverFrom 0 3 3 ∅))
           (Some (solverFrom 0 0 0 ∅)) 2 "steady" m). exact Hm.
Defined.

(** ** Totals and the distribution (lines 161-179) *)

(** X4: on each side the distribution has one entry per rank, the entry
    of the calling rank is its local physical count, the accessor
    [getNumberOf...InterfaceNodes] returns the sum of the distribution
    (physical nodes only), and the node total with halo nodes is the sum of
    the ranks' local node counts. *)
Theorem totals_sum_the_distribution
    FluidSolver SolidSolver nDim computationType mpiComm m :
  ownRank FluidSolver SolidSolver mpiComm →
  Manager_init FluidSolver SolidSolver nDim computationType mpiComm = Ok m →
  (length (getFluidPhysicalInterfaceNodesDistribution m)
   = length (worldOf FluidSolver SolidSolver mpiComm)
   ∧ getFluidPhysicalInterfaceNodesDistribution m !! myidOf mpiComm
     = Some (getNumberOfLocalFluidInterfaceNodes m)
   ∧ getNumberOfFluidInterfaceNodes m
     = sumZ (getFluidPhysicalInterfaceNodesDistribution m)
   ∧ nFluidInterfaceNodes m
     = sumZ ((nLocalInterfaceNodes ∘ fluidOf)
               <$> worldOf FluidSolver SolidSolver mpiComm))
  ∧ (length (getSolidPhysicalInterfaceNodesDistribution m)
     = length (worldOf FluidSolver SolidSolver mpiComm)
     ∧ getSolidPhysicalInterfaceNodesDistribution m !! myidOf mpiComm
       = Some (getNumberOfLocalSolidInterfaceNodes m)
     ∧ getNumberOfSolidInterfaceNodes m
       = sumZ (getSolidPhysicalInterfaceNodesDistribution m)
     ∧ nSolidInterfaceNodes m
       = sumZ ((nLocalInterfaceNodes ∘ solidOf)
                 <$> worldOf FluidSolver SolidSolver mpiComm)).
Proof.
  intros Hown Hm.
  pose proof (Manager_init_Ok_built _ _ _ _ _ _ Hown Hm) as Hb.
  pose proof (Manager_init_rest _ _ _ _ _ _ Hown Hm) as Hr.
  assert (worldOf FluidSolver SolidSolver mpiComm !! myidOf mpiComm
          = Some {| fluidOf := FluidSolver; solidOf := SolidSolver |}) as Hme.
  { destruct mpiComm as [c|]; [exact Hown|reflexivity]. }
  assert (∀ sd,
    length (distributionOf sd m) = length (worldOf FluidSolver SolidSolver mpiComm)
    ∧ distributionOf sd m !! myidOf mpiComm = Some (localPhysicalOf sd m)
    ∧ totalPhysicalOf sd m = sumZ (distributionOf sd m)
    ∧ totalNodesOf sd m
      = sumZ ((nLocalInterfaceNodes ∘ solverOf sd)
                <$> worldOf FluidSolver SolidSolver mpiComm)) as H.
  { intros sd. rewrite (built_total _ _ _ _ Hb sd), (built_distribution _ _ _ _ Hb sd).
    rewrite length_fmap, list_lookup_fmap, Hme. simpl.
    rewrite (rest_localPhysical _ _ _ _ _ _ Hr sd).
    repeat split. exact (rest_totalNodes _ _ _ _ _ _ Hr sd). }
  split; [exact (H Fluid)|exact (H Solid)].
Qed.

Lemma totals_sum_the_distribution_witness :
  ∃ m, Manager_init (fluidOf idleRank0) (solidOf idleRank0) 3 "steady"
         (Some (idleComm 0)) = Ok m
  ∧ (length (getFluidPhysicalInterfaceNodesDistribution m)
     = length (worldOf (fluidOf idleRank0) (solidOf idleRank0) (Some (idleComm 0)))
     ∧ getFluidPhysicalInterfaceNodesDistribution m !! myidOf (Some (idleComm 0))
       = Some (getNumberOfLocalFluidInterfaceNodes m)
     ∧ getNumberOfFluidInterfaceNodes m
       = sumZ (getFluidPhysicalInterfaceNodesDistribution m)
     ∧ nFluidInterfaceNodes m
       = sumZ ((nLocalInterfaceNodes ∘ fluidOf)
                 <$> worldOf (fluidOf idleRank0) (solidOf idleRank0)
                       (Some (idleComm 0))))
  ∧ (length (getSolidPhysicalInterfaceNodesDistribution m)
     = length (worldOf (fluidOf idleRank0) (solidOf idleRank0) (Some (idleComm 0)))
     ∧ getSolidPhysicalInterfaceNodesDistribution m !! myidOf (Some (idleComm 0))
       = Some (getNumberOfLocalSolidInterfaceNodes m)
     ∧ getNumberOfSolidInterfaceNodes m
       = sumZ (getSolidPhysicalInterfaceNodesDistribution m)
     ∧ nSolidInterfaceNodes m
       = sumZ ((nLocalInterfaceNodes ∘ solidOf)
                 <$> worldOf (fluidOf idleRank0) (solidOf idleRank0)
                       (Some (idleComm 0)))).
Proof.
  destruct idleWorld_built_on_rank0 as [m Hm]. exists m. split; [exact Hm|].
  apply (totals_sum_the_distribution (fluidOf idleRank0) (solidOf idleRank0)
           3 "steady" (Some (idleComm 0)) m); [reflexivity|exact Hm].
Defined.

(** ** Every rank builds the same group-wide data *)

(** X5: two ranks of one process group that both get a manager hold the
    same processor sets, halo sets, distributions, totals, ranges and
    merged maps; only the local counts and flags differ. *)
Theorem ranks_agree_on_group_data
    FluidSolver1 SolidSolver1 nDim1 computationType1 c1 m1
    FluidSolver2 SolidSolver2 nDim2 computationType2 c2 m2 :
  group c1 = group c2 →
  ownRank FluidSolver1 SolidSolver1 (Some c1) →
  ownRank FluidSolver2 SolidSolver2 (Some c2) →
  Manager_init FluidSolver1 SolidSolver1 nDim1 computationType1 (Some c1) = Ok m1 →
  Manager_init FluidSolver2 SolidSolver2 nDim2 computationType2 (Some c2) = Ok m2 →
  ∀ sd,
    solverProcessorsOf sd m1 = solverProcessorsOf sd m2
    ∧ interfaceProcessorsOf sd m1 = interfaceProcessorsOf sd m2
    ∧ haloNodesListOf sd m1 = haloNodesListOf sd m2
    ∧ distributionOf sd m1 = distributionOf sd m2
    ∧ totalPhysicalOf sd m1 = totalPhysicalOf sd m2
    ∧ totalNodesOf sd m1 = totalNodesOf sd m2
    ∧ globalIndexRangeOf sd m1 = globalIndexRangeOf sd m2
    ∧ indexingOf sd m1 = indexingOf sd m2.
Proof.
  intros Hg Hown1 Hown2 Hm1 Hm2 sd.
  pose proof (Manager_init_Ok_built _ _ _ _ _ _ Hown1 Hm1) as Hb1.
  pose proof (Manager_init_Ok_built _ _ _ _ _ _ Hown2 Hm2) as Hb2.
  pose proof (Manager_init_rest _ _ _ _ _ _ Hown1 Hm1) as Hr1.
  pose proof (Manager_init_rest _ _ _ _ _ _ Hown2 Hm2) as Hr2.
  assert (interfaceProcessorsOf sd m1 = interfaceProcessorsOf sd m2) as Ep.
  { rewrite (built_processors _ _ _ _ Hb1 sd), (built_processors _ _ _ _ Hb2 sd).
    by rewrite Hg. }
  assert (distributionOf sd m1 = distributionOf sd m2) as Ed.
  { rewrite (built_distribution _ _ _ _ Hb1 sd), (built_distribution _ _ _ _ Hb2 sd).
    simpl. by rewrite Hg. }
  assert (globalIndexRangeOf sd m1 = globalIndexRangeOf sd m2) as Er.
  { rewrite (built_range _ _ _ _ Hb1 sd), (built_range _ _ _ _ Hb2 sd).
    by rewrite Hg, Ep, Ed. }
  split.
  { rewrite (rest_solverProcessors _ _ _ _ _ _ Hr1 sd),
            (rest_solverProcessors _ _ _ _ _ _ Hr2 sd). by rewrite Hg. }
  split; [exact Ep|]. split.
  { rewrite (built_halos _ _ _ _ Hb1 sd), (built_halos _ _ _ _ Hb2 sd).
    simpl. by rewrite Hg. }
  split; [exact Ed|]. split.
  { by rewrite (built_total _ _ _ _ Hb1 sd), (built_total _ _ _ _ Hb2 sd), Ed. }
  split.
  { rewrite (rest_totalNodes _ _ _ _ _ _ Hr1 sd), (rest_totalNodes _ _ _ _ _ _ Hr2 sd).
    simpl. by rewrite Hg. }
  split; [exact Er|].
  rewrite (built_indexing _ _ _ _ Hb1 sd), (built_indexing _ _ _ _ Hb2 sd).
  simpl. by rewrite Hg, Er.
Qed.

Lemma haloWorld_built_on_rank0 :
  is_Ok (Manager_init (fluidOf haloRank0) (solidOf haloRank0) 2 "steady"
           (Some (haloComm 0))).
Proof.
  destruct (Manager_init_present_Ok (fluidOf haloRank0) (solidOf haloRank0)
              2 "steady" (Some (haloComm 0))) as (m & Hm & _).
  - reflexivity.
  - intros i p Hp. apply lookup_pair_world in Hp as [[-> ->]|[-> ->]]; simpl; eauto.
  - by exists m.
Qed.

Lemma ranks_agree_on_group_data_witness :
  ∃ m1 m2,
    Manager_init (fluidOf haloRank0) (solidOf haloRank0) 2 "steady"
      (Some (haloComm 0)) = Ok m1
    ∧ Manager_init (fluidOf haloRank1) (solidOf haloRank1) 2 "steady"
        (Some (haloComm 1)) = Ok m2
    ∧ ∀ sd,
      solverProcessorsOf sd m1 = solverProcessorsOf sd m2
      ∧ interfaceProcessorsOf sd m1 = interfaceProcessorsOf sd m2
      ∧ haloNodesListOf sd m1 = haloNodesListOf sd m2
      ∧ distributionOf sd m1 = distributionOf sd m2
      ∧ totalPhysicalOf sd m1 = totalPhysicalOf sd m2
      ∧ totalNodesOf sd m1 = totalNodesOf sd m2
      ∧ globalIndexRangeOf sd m1 = globalIndexRangeOf sd m2
      ∧ indexingOf sd m1 = indexingOf sd m2.
Proof.
  destruct haloWorld_built_on_rank0 as [m1 Hm1].
  destruct haloWorld_built_on_rank1 as [m2 Hm2].
  exists m1, m2. split; [exact Hm1|]. split; [exact Hm2|].
  apply (ranks_agree_on_group_data
           (fluidOf haloRank0) (solidOf haloRank0) 2 "steady" (haloComm 0) m1
           (fluidOf haloRank1) (solidOf haloRank1) 2 "steady" (haloComm 1) m2);
    (reflexivity || assumption).
Defined.

(** ** [getGlobalIndex]: the ranks it answers *)

Lemma getitem_Ok_iff {A} (a : list A) (k : Z) :
  is_Ok (getitem a k) ↔ - Z.of_nat (length a) ≤ k < Z.of_nat (length a).
Proof.
  unfold getitem, index. case_bool_decide as H0.
  - destruct (a !! Z.to_nat k) as [x|] eqn:E.
    + apply lookup_lt_Some in E. split; [lia|]. intros _. by exists x.
    + apply lookup_ge_None_1 in E. split; [intros [x Hx]; discriminate|lia].
  - case_bool_decide as H1.
    + destruct (a !! Z.to_nat (Z.of_nat (length a) + k)) as [x|] eqn:E.
      * split; [lia|]. intros _. by exists x.
      * apply lookup_ge_None_1 in E. lia.
    + split; [intros [x Hx]; discriminate|lia].
Qed.

Lemma getitem_outside {A} (a : list A) (k : Z) :
  ¬ (- Z.of_nat (length a) ≤ k < Z.of_nat (length a)) →
  getitem a k = Raise IndexError.
Proof.
  intros H. unfold getitem, index. case_bool_decide as H0.
  - by rewrite lookup_ge_None_2 by lia.
  - by rewrite bool_decide_false by lia.
Qed.

Lemma getitem_from_the_end {A} (a : list A) (k : Z) :
  - Z.of_nat (length a) ≤ k < 0 →
  getitem a k = getitem a (Z.of_nat (length a) + k).
Proof.
  intros H. unfold getitem.
  rewrite (bool_decide_false (0 ≤ k)) by lia.
  rewrite (bool_decide_true (- _ ≤ k)) by lia.
  by rewrite (bool_decide_true (0 ≤ _ + k)) by lia.
Qed.

Lemma getGlobalIndex_getitem (sd : Side) (self : Manager) (iProc k : Z) :
  getGlobalIndex (domainOf sd) iProc k self
  = (λ rg, (rg.1 + k, self)) <$> getitem (globalIndexRangeOf sd self) iProc.
Proof.
  unfold getGlobalIndex, globalIndexFrom.
  destruct sd; simpl;
    by destruct (getitem _ iProc) as [rg|e].
Qed.

(** X7: on a built manager of a group of [size] ranks, [getGlobalIndex]
    returns, for either domain and whatever the local index, exactly for
    the ranks [-size <= iProc < size]; any other rank raises [IndexError].
    A negative rank in that interval is not refused: the list of ranges is
    indexed from its end, so rank [iProc] is answered as rank
    [size + iProc] (rank -1 as the last rank). *)
Theorem getGlobalIndex_defined_on_the_group
    FluidSolver SolidSolver nDim computationType mpiComm m sd (iProc k : Z) :
  ownRank FluidSolver SolidSolver mpiComm →
  Manager_init FluidSolver SolidSolver nDim computationType mpiComm = Ok m →
  (is_Ok (getGlobalIndex (domainOf sd) iProc k m)
   ↔ - Z.of_nat (length (worldOf FluidSolver SolidSolver mpiComm)) ≤ iProc
       < Z.of_nat (length (worldOf FluidSolver SolidSolver mpiComm)))
  ∧ (¬ (- Z.of_nat (length (worldOf FluidSolver SolidSolver mpiComm)) ≤ iProc
          < Z.of_nat (length (worldOf FluidSolver SolidSolver mpiComm))) →
     getGlobalIndex (domainOf sd) iProc k m = Raise IndexError)
  ∧ (- Z.of_nat (length (worldOf FluidSolver SolidSolver mpiComm)) ≤ iProc < 0 →
     getGlobalIndex (domainOf sd) iProc k m
     = getGlobalIndex (domainOf sd)
         (Z.of_nat (length (worldOf FluidSolver SolidSolver mpiComm)) + iProc) k m).
Proof.
  intros Hown Hm.
  pose proof (Manager_init_Ok_built _ _ _ _ _ _ Hown Hm) as Hb.
  rewrite <-(built_range_length _ _ _ _ sd Hb).
  rewrite !getGlobalIndex_getitem. split; [|split].
  - rewrite <-getitem_Ok_iff. split.
    + intros [v Hv]. apply fmap_Ok in Hv as (rg & Hrg & _). by exists rg.
    + intros [rg Hrg]. rewrite Hrg. by eexists.
  - intros H. by rewrite getitem_outside.
  - intros H. by rewrite getitem_from_the_end.
Qed.

Lemma getGlobalIndex_defined_on_the_group_witness :
  ∃ m, Manager_init (fluidOf idleRank0) (solidOf idleRank0) 3 "steady"
         (Some (idleComm 0)) = Ok m
  ∧ (is_Ok (getGlobalIndex (domainOf Fluid) (-1) 5 m)
     ↔ - Z.of_nat (length (worldOf (fluidOf idleRank0) (solidOf idleRank0)
                             (Some (idleComm 0)))) ≤ -1
         < Z.of_nat (length (worldOf (fluidOf idleRank0) (solidOf idleRank0)
                               (Some (idleComm 0)))))
  ∧ (¬ (- Z.of_nat (length (worldOf (fluidOf idleRank0) (solidOf idleRank0)
                              (Some (idleComm 0)))) ≤ -1
          < Z.of_nat (length (worldOf (fluidOf idleRank0) (solidOf idleRank0)
                                (Some (idleComm 0))))) →
     getGlobalIndex (domainOf Fluid) (-1) 5 m = Raise IndexError)
  ∧ (- Z.of_nat (length (worldOf (fluidOf idleRank0) (solidOf idleRank0)
                           (Some (idleComm 0)))) ≤ -1 < 0 →
     getGlobalIndex (domainOf Fluid) (-1) 5 m
     = getGlobalIndex (domainOf Fluid)
         (Z.of_nat (length (worldOf (fluidOf idleRank0) (solidOf idleRank0)
                              (Some (idleComm 0)))) + -1) 5 m).
Proof.
  destruct idleWorld_built_on_rank0 as [m Hm]. exists m. split; [exact Hm|].
  apply (getGlobalIndex_defined_on_the_group (fluidOf idleRank0) (solidOf idleRank0)
           3 "steady" (Some (idleComm 0)) m Fluid (-1) 5); [reflexivity|exact Hm].
Defined.

(** ** The constructor without fluid collaborator *)

(** X13: the constructor raises [AttributeError] on a rank that passes no
    fluid collaborator, with or without communicator and whatever the solid
    collaborator: line 146 reads [FluidSolver.haloNodeList] unguarded. *)
Theorem no_fluid_collaborator_raises SolidSolver nDim computationType mpiComm :
  Manager_init None SolidSolver nDim computationType mpiComm = Raise AttributeError.
Proof.
  unfold Manager_init. destruct mpiComm as [c|].
  - by rewrite processorSets_mpi.
  - reflexivity.
Qed.

(** ** Global indices computed by [getGlobalIndex] *)

Lemma sumZ_take_S (d : list Z) (r : nat) x :
  d !! r = Some x → sumZ (take (S r) d) = sumZ (take r d) + x.
Proof.
  intros H. rewrite (take_S_r _ _ _ H), sumZ_app.
  replace (sumZ [x]) with x by (unfold sumZ; simpl; lia). done.
Qed.

Lemma sumZ_take_mono (d : list Z) (i j : nat) :
  Forall (λ x, 0 ≤ x) d → (i ≤ j)%nat → sumZ (take i d) ≤ sumZ (take j d).
Proof.
  intros Hd Hij. induction Hij as [|j Hij IH]; [lia|].
  destruct (d !! j) as [x|] eqn:E.
  - rewrite (sumZ_take_S _ _ _ E).
    assert (0 ≤ x) by (by eapply (Forall_lookup_1 _ d j x)). lia.
  - apply lookup_ge_None_1 in E.
    rewrite (take_ge d (S j)) by lia. by rewrite (take_ge d j) in IH by lia.
Qed.

Lemma sumZ_take_le (d : list Z) (i : nat) :
  Forall (λ x, 0 ≤ x) d → sumZ (take i d) ≤ sumZ d.
Proof.
  intros Hd. destruct (le_lt_dec i (length d)) as [H|H].
  - pose proof (sumZ_take_mono d i (length d) Hd H) as E.
    by rewrite firstn_all in E.
  - rewrite take_ge by lia. lia.
Qed.

Lemma soundCounts_distribution FluidSolver SolidSolver mpiComm m sd :
  built FluidSolver SolidSolver mpiComm m →
  soundCounts sd (worldOf FluidSolver SolidSolver mpiComm) →
  Forall (λ x, 0 ≤ x) (distributionOf sd m).
Proof.
  intros Hb Hs. rewrite (built_distribution _ _ _ _ Hb sd). apply Forall_forall.
  intros x Hx. apply list_elem_of_fmap in Hx as (p & -> & Hp).
  apply list_elem_of_lookup in Hp as [i Hp]. simpl.
  destruct (solverOf sd p) as [s|] eqn:E; [|done]. by apply (Hs i p s Hp E).
Qed.

(** With sound counts, a rank with physical nodes starts at the prefix sum. *)
Lemma built_start_of_owner FluidSolver SolidSolver mpiComm m sd r d :
  built FluidSolver SolidSolver mpiComm m →
  soundCounts sd (worldOf FluidSolver SolidSolver mpiComm) →
  distributionOf sd m !! r = Some d → 0 < d →
  ∃ rg, globalIndexRangeOf sd m !! r = Some rg
        ∧ rg.1 = sumZ (take r (distributionOf sd m)).
Proof.
  intros Hb Hs Hd Hpos.
  pose proof Hd as Hd'. rewrite (built_distribution _ _ _ _ Hb sd) in Hd'.
  rewrite list_lookup_fmap in Hd'.
  destruct (worldOf FluidSolver SolidSolver mpiComm !! r) as [p|] eqn:Hp; [|done].
  simpl in Hd'. injection Hd' as Hd'.
  eexists. split; [exact (built_range_at _ _ _ _ sd r p Hb Hp)|].
  rewrite (built_hosting _ _ _ _ sd r p Hb Hp).
  destruct mpiComm as [c|]; [|done].
  destruct (haveInterface (solverOf sd p)) eqn:Hh; [done|].
  rewrite (physicalOf_idle sd _ r p Hs Hp Hh) in Hd'. lia.
Qed.

(** X8: with sound physical counts, [getGlobalIndex] at a rank and a local
    index below that rank's physical count returns an index in
    [0, total), and two such calls return the same index only for the same
    rank and the same local index. *)
Theorem global_indices_are_unique
    FluidSolver SolidSolver nDim computationType mpiComm m sd
    (r1 r2 : nat) (d1 d2 k1 k2 : Z) :
  ownRank FluidSolver SolidSolver mpiComm →
  Manager_init FluidSolver SolidSolver nDim computationType mpiComm = Ok m →
  soundCounts sd (worldOf FluidSolver SolidSolver mpiComm) →
  distributionOf sd m !! r1 = Some d1 → 0 ≤ k1 < d1 →
  distributionOf sd m !! r2 = Some d2 → 0 ≤ k2 < d2 →
  ∃ g1 g2,
    getGlobalIndex (domainOf sd) (Z.of_nat r1) k1 m = Ok (g1, m)
    ∧ getGlobalIndex (domainOf sd) (Z.of_nat r2) k2 m = Ok (g2, m)
    ∧ 0 ≤ g1 < totalPhysicalOf sd m
    ∧ (g1 = g2 → r1 = r2 ∧ k1 = k2).
Proof.
  intros Hown Hm Hs Hd1 Hk1 Hd2 Hk2.
  pose proof (Manager_init_Ok_built _ _ _ _ _ _ Hown Hm) as Hb.
  pose proof (soundCounts_distribution _ _ _ _ sd Hb Hs) as Hnn.
  destruct (built_start_of_owner _ _ _ _ sd r1 d1 Hb Hs Hd1) as (rg1 & Hr1 & E1); [lia|].
  destruct (built_start_of_owner _ _ _ _ sd r2 d2 Hb Hs Hd2) as (rg2 & Hr2 & E2); [lia|].
  exists (rg1.1 + k1), (rg2.1 + k2).
  assert (∀ (r : nat) rg k, globalIndexRangeOf sd m !! r = Some rg →
            getGlobalIndex (domainOf sd) (Z.of_nat r) k m = Ok (rg.1 + k, m)) as Hget.
  { intros r rg k Hr. unfold getGlobalIndex.
    by rewrite (globalIndexFrom_Ok sd _ _ _ _ rg) by (by destruct sd). }
  split; [by apply Hget|]. split; [by apply Hget|].
  rewrite E1, E2, (built_total _ _ _ _ Hb sd).
  pose proof (sumZ_take_S _ _ _ Hd1) as S1.
  pose proof (sumZ_take_S _ _ _ Hd2) as S2.
  pose proof (sumZ_take_le (distributionOf sd m) (S r1) Hnn) as L1.
  pose proof (sumZ_take_le (distributionOf sd m) 0 Hnn) as L0.
  pose proof (sumZ_take_mono (distributionOf sd m) 0 r1 Hnn) as M0.
  rewrite take_0 in M0. unfold sumZ at 1 in M0. simpl in M0.
  split; [lia|].
  intros Hg. destruct (lt_eq_lt_dec r1 r2) as [[Hlt|Heq]|Hgt].
  - pose proof (sumZ_take_mono (distributionOf sd m) (S r1) r2 Hnn). lia.
  - subst r2. split; [done|lia].
  - pose proof (sumZ_take_mono (distributionOf sd m) (S r2) r1 Hnn). lia.
Qed.

Lemma global_indices_are_unique_witness :
  ∃ m, Manager_init (fluidOf idleRank0) (solidOf idleRank0) 3 "steady"
         (Some (idleComm 0)) = Ok m
  ∧ ∃ g1 g2,
    getGlobalIndex (domainOf Fluid) 0 3 m = Ok (g1, m)
    ∧ getGlobalIndex (domainOf Fluid) 2 0 m = Ok (g2, m)
    ∧ 0 ≤ g1 < totalPhysicalOf Fluid m
    ∧ (g1 = g2 → 0%nat = 2%nat ∧ 3 = 0).
Proof.
  destruct idleWorld_built_on_rank0 as [m Hm]. exists m. split; [exact Hm|].
  assert (distributionOf Fluid m = [4; 0; 6]) as Hd.
  { rewrite (built_distribution _ _ _ _
               (Manager_init_Ok_built (fluidOf idleRank0) (solidOf idleRank0) 3
                  "steady" (Some (idleComm 0)) m eq_refl Hm) Fluid).
    reflexivity. }
  apply (global_indices_are_unique (fluidOf idleRank0) (solidOf idleRank0)
           3 "steady" (Some (idleComm 0)) m Fluid 0 2 4 6 3 0).
  - reflexivity.
  - exact Hm.
  - exact (idleWorld_soundCounts Fluid).
  - by rewrite Hd.
  - lia.
  - by rewrite Hd.
  - lia.
Defined.

(** ** The merged map *)

(** X9: under the decomposition contract the global indices held by the
    merged map of a side are exactly 0, 1, ..., total - 1. *)
Theorem merged_values_cover_the_range
    FluidSolver SolidSolver nDim computationType mpiComm m sd :
  ownRank FluidSolver SolidSolver mpiComm →
  Manager_init FluidSolver SolidSolver nDim computationType mpiComm = Ok m →
  decomposition sd (worldOf FluidSolver SolidSolver mpiComm) →
  ∀ g, (∃ x, indexingOf sd m !! x = Some g) ↔ 0 ≤ g < totalPhysicalOf sd m.
Proof.
  intros Hown Hm Hd g.
  pose proof (Manager_init_Ok_built _ _ _ _ _ _ Hown Hm) as Hb.
  rewrite (decomposition_indexing sd _ _ _ _ Hb Hd).
  rewrite (built_total_inserted _ _ _ _ sd Hb)
    by (by apply decomposition_countsInserted).
  rewrite decomposition_inserted_all by done.
  set (ids := concat ((physicalIds ∘ solverOf sd)
                        <$> worldOf FluidSolver SolidSolver mpiComm)).
  split.
  - intros [x Hx].
    apply assignFrom_lookup_Some in Hx as [(j & Hj & ->)|Hx];
      [|by rewrite lookup_empty in Hx].
    apply lookup_lt_Some in Hj. lia.
  - intros Hg. destruct (lookup_lt_is_Some_2 ids (Z.to_nat g)) as [x Hx]; [lia|].
    exists x. rewrite (assignFrom_lookup_NoDup 0 ids ∅ (Z.to_nat g) x).
    + f_equal. lia.
    + apply (owned_once _ _ Hd).
    + done.
Qed.

Lemma merged_values_cover_the_range_witness :
  ∃ m, Manager_init (fluidOf haloRank1) (solidOf haloRank1) 2 "steady"
         (Some (haloComm 1)) = Ok m
  ∧ ∀ g, (∃ x, indexingOf Fluid m !! x = Some g) ↔ 0 ≤ g < totalPhysicalOf Fluid m.
Proof.
  destruct haloWorld_built_on_rank1 as [m Hm]. exists m. split; [exact Hm|].
  apply (merged_values_cover_the_range (fluidOf haloRank1) (solidOf haloRank1)
           2 "steady" (Some (haloComm 1)) m Fluid).
  - reflexivity.
  - exact Hm.
  - exact (haloWorld_decomposition Fluid).
Defined.

Lemma mergeIndexing_lookup_last (l : list (gmap Z Z)) (r : nat) (t : gmap Z Z) x :
  l !! r = Some t →
  (∀ (r' : nat) t', (r < r')%nat → l !! r' = Some t' → t' !! x = None) →
  is_Some (t !! x) →
  mergeIndexing ∅ l !! x = t !! x.
Proof.
  induction l as [|u l IH] using rev_ind; intros Hr Hlater [v Hv]; [done|].
  rewrite mergeIndexing_snoc.
  destruct (decide (r = length l)) as [->|Hne].
  - rewrite lookup_app_r, Nat.sub_diag in Hr by lia. injection Hr as ->.
    rewrite Hv. by apply lookup_union_Some_l.
  - assert (r < length l)%nat as Hlt.
    { apply lookup_lt_Some in Hr. rewrite length_app in Hr. simpl in Hr. lia. }
    rewrite lookup_app_l in Hr by done.
    rewrite lookup_union_r.
    + apply IH; [done| |by exists v].
      intros r' t' Hr' Ht'. apply (Hlater r' t' Hr').
      by apply lookup_app_l_Some.
    + apply (Hlater (length l) u Hlt).
      by rewrite lookup_app_r, Nat.sub_diag by lia.
Qed.

(** X10: when several ranks insert the same identifier, the merged map
    keeps the global index given by the highest of these ranks (no
    contract is assumed here). *)
Theorem highest_rank_wins
    FluidSolver SolidSolver nDim computationType c m sd (r : nat) p x :
  ownRank FluidSolver SolidSolver (Some c) →
  Manager_init FluidSolver SolidSolver nDim computationType (Some c) = Ok m →
  group c !! r = Some p →
  x ∈ physicalIds (solverOf sd p) →
  (∀ (r' : nat) q, (r < r')%nat → group c !! r' = Some q →
                   x ∉ physicalIds (solverOf sd q)) →
  ∃ temps,
    localIndexing r p (fluidHaloNodesList m) (solidHaloNodesList m)
      (fluidGlobalIndexRange m) (solidGlobalIndexRange m) = Ok temps
    ∧ is_Some (partialOf sd temps !! x)
    ∧ indexingOf sd m !! x = partialOf sd temps !! x.
Proof.
  intros Hown Hm Hp Hx Hlater.
  pose proof (Manager_init_Ok_built _ _ _ _ _ _ Hown Hm) as Hb.
  eexists. split; [exact (built_partial _ _ _ _ r p Hb Hp)|].
  assert (partialOf sd
            (assignFrom (rangeStart (fluidGlobalIndexRange m) r)
               (insertedIds (Some c) (fluidOf p)) ∅,
             assignFrom (rangeStart (solidGlobalIndexRange m) r)
               (insertedIds (Some c) (solidOf p)) ∅)
          = assignFrom (rangeStart (globalIndexRangeOf sd m) r)
              (insertedIds (Some c) (solverOf sd p)) ∅) as -> by (by destruct sd).
  assert (is_Some (assignFrom (rangeStart (globalIndexRangeOf sd m) r)
                     (insertedIds (Some c) (solverOf sd p)) ∅ !! x)) as Hsome.
  { apply assignFrom_is_Some. by left. }
  split; [exact Hsome|].
  rewrite (built_indexing _ _ _ _ Hb sd).
  apply (mergeIndexing_lookup_last _ r); [|
    |exact Hsome].
  - simpl. by rewrite list_lookup_imap, Hp.
  - intros r' t' Hr' Ht'. simpl in Ht'. rewrite list_lookup_imap in Ht'.
    destruct (group c !! r') as [q|] eqn:Hq; [|done]. injection Ht' as <-.
    apply assignFrom_lookup_notin. exact (Hlater r' q Hr' Hq).
Qed.

(** Two ranks that both own identifier 7: a contract violation. *)
Lemma highest_rank_wins_witness :
  ∃ m temps,
    Manager_init (Some (solverFrom 7 1 1 ∅)) None 2 "steady"
      (Some {| Get_rank := 0;
               group := [ {| fluidOf := Some (solverFrom 7 1 1 ∅); solidOf := None |};
                          {| fluidOf := Some (solverFrom 6 2 2 ∅); solidOf := None |} ] |})
    = Ok m
    ∧ localIndexing 1 {| fluidOf := Some (solverFrom 6 2 2 ∅); solidOf := None |}
        (fluidHaloNodesList m) (solidHaloNodesList m)
        (fluidGlobalIndexRange m) (solidGlobalIndexRange m) = Ok temps
    ∧ is_Some (partialOf Fluid temps !! 7)
    ∧ indexingOf Fluid m !! 7 = partialOf Fluid temps !! 7.
Proof.
  set (w := [ {| fluidOf := Some (solverFrom 7 1 1 ∅); solidOf := None |};
              {| fluidOf := Some (solverFrom 6 2 2 ∅); solidOf := None |} ]).
  destruct (Manager_init_present_Ok (Some (solverFrom 7 1 1 ∅)) None 2 "steady"
              (Some {| Get_rank := 0; group := w |})) as (m & Hm & _).
  { reflexivity. }
  { intros i p Hp. apply lookup_pair_world in Hp as [[-> ->]|[-> ->]]; simpl; eauto. }
  destruct (highest_rank_wins (Some (solverFrom 7 1 1 ∅)) None 2 "steady"
              {| Get_rank := 0; group := w |} m Fluid 1
              {| fluidOf := Some (solverFrom 6 2 2 ∅); solidOf := None |} 7)
    as (temps & H1 & H2 & H3).
  - reflexivity.
  - exact Hm.
  - reflexivity.
  - apply (bool_decide_unpack _). by vm_compute.
  - intros r' q Hr' Hq. destruct r' as [|[|r']]; simpl in Hq; (lia || discriminate).
  - exists m, temps. by repeat split.
Defined.

Lemma nodeIds_split s (v : Z) :
  0 ≤ v < nNodes s →
  nodeIds (Some s)
  = (getNodalIndex s <$> range v)
    ++ getNodalIndex s v :: (getNodalIndex s <$> seqZ (v + 1) (nNodes s - v - 1)).
Proof.
  intros Hv. simpl. unfold range.
  replace (nNodes s) with (v + (nNodes s - v)) at 1 by lia.
  rewrite seqZ_app, (seqZ_cons (0 + v)) by lia.
  rewrite fmap_app, fmap_cons, Z.add_0_l.
  do 3 f_equal; lia.
Qed.

(** X11: without communicator the halo set of the collaborator plays no
    role: the merged map gives the identifier of vertex [v] the global
    index [v] (read at the last vertex carrying that identifier), also
    when the collaborator lists that identifier as halo. *)
Theorem single_process_numbers_every_vertex
    FluidSolver SolidSolver nDim computationType m sd s (v : Z) :
  Manager_init FluidSolver SolidSolver nDim computationType None = Ok m →
  solverOf sd {| fluidOf := FluidSolver; solidOf := SolidSolver |} = Some s →
  0 ≤ v < nNodes s →
  (∀ v', v < v' < nNodes s → getNodalIndex s v' ≠ getNodalIndex s v) →
  indexingOf sd m !! getNodalIndex s v = Some v.
Proof.
  intros Hm Hs Hv Hlast.
  pose proof (Manager_init_Ok_built _ _ _ _ None _ I Hm) as Hb.
  rewrite (single_indexing _ _ _ sd Hb), Hs, (nodeIds_split s v Hv).
  rewrite assignFrom_lookup_last.
  - f_equal. rewrite length_fmap. unfold range. rewrite length_seqZ. lia.
  - intros Hin. apply list_elem_of_fmap in Hin as (v' & Hv' & Hin).
    apply elem_of_seqZ in Hin. apply (Hlast v'); [lia|done].
Qed.

Lemma single_process_numbers_every_vertex_witness :
  ∃ m, Manager_init (Some (solverFrom 10 3 2 {[ 12 := 2 ]})) (Some (solverFrom 0 1 1 ∅))
         2 "steady" None = Ok m
  ∧ indexingOf Fluid m !! getNodalIndex (solverFrom 10 3 2 {[ 12 := 2 ]}) 2 = Some 2.
Proof.
  destruct (Manager_init_single (solverFrom 10 3 2 {[ 12 := 2 ]}) (solverFrom 0 1 1 ∅)
              2 "steady") as (m & Hm & _).
  exists m. split; [exact Hm|].
  apply (single_process_numbers_every_vertex
           (Some (solverFrom 10 3 2 {[ 12 := 2 ]})) (Some (solverFrom 0 1 1 ∅))
           2 "steady" m Fluid (solverFrom 10 3 2 {[ 12 := 2 ]}) 2).
  - exact Hm.
  - reflexivity.
  - simpl. lia.
  - simpl. intros v' Hv'. lia.
Defined.

(** X12: under the decomposition contract the merged map and
    [getGlobalIndex] agree: the identifier of a non-halo vertex of rank [r]
    is mapped to what [getGlobalIndex] returns for [r] and the number of
    non-halo vertices of [r] before that vertex. *)
Theorem merged_map_agrees_with_getGlobalIndex
    FluidSolver SolidSolver nDim computationType mpiComm m sd (r : nat) p s (v : Z) :
  ownRank FluidSolver SolidSolver mpiComm →
  Manager_init FluidSolver SolidSolver nDim computationType mpiComm = Ok m →
  decomposition sd (worldOf FluidSolver SolidSolver mpiComm) →
  worldOf FluidSolver SolidSolver mpiComm !! r = Some p →
  solverOf sd p = Some s →
  0 ≤ v < nNodes s →
  haloNodeList s !! getNodalIndex s v = None →
  ∃ g,
    getGlobalIndex (domainOf sd) (Z.of_nat r)
      (Z.of_nat (length (keptIds (haloNodeList s) (getNodalIndex s <$> range v)))) m
    = Ok (g, m)
    ∧ indexingOf sd m !! getNodalIndex s v = Some g.
Proof.
  intros Hown Hm Hd Hp Hs Hv Hkept.
  pose proof (Manager_init_Ok_built _ _ _ _ _ _ Hown Hm) as Hb.
  pose proof (built_range_at _ _ _ _ sd r p Hb Hp) as Hrg.
  set (j := length (keptIds (haloNodeList s) (getNodalIndex s <$> range v))).
  assert (physicalIds (solverOf sd p)
          = keptIds (haloNodeList s) (getNodalIndex s <$> range v)
            ++ getNodalIndex s v
               :: keptIds (haloNodeList s)
                    (getNodalIndex s <$> seqZ (v + 1) (nNodes s - v - 1))) as Hsplit.
  { unfold physicalIds. rewrite Hs, (nodeIds_split s v Hv). simpl.
    rewrite keptIds_app, keptIds_cons_kept; [done|].
    rewrite Hkept. by intros [? ?]. }
  assert (physicalIds (solverOf sd p) !! j = Some (getNodalIndex s v)) as Hj.
  { rewrite Hsplit. subst j. by rewrite lookup_app_r, Nat.sub_diag by lia. }
  eexists. split.
  - unfold getGlobalIndex.
    by rewrite (globalIndexFrom_Ok sd _ _ _ _ _ Hrg) by (by destruct sd).
  - rewrite (decomposition_indexing sd _ _ _ _ Hb Hd).
    apply (assignFrom_concat_owner _ r (physicalIds (solverOf sd p))).
    + apply (owned_once _ _ Hd).
    + by rewrite list_lookup_fmap, Hp.
    + assert (insertedIds mpiComm (solverOf sd p) ≠ []) as Hne.
      { rewrite (decomposition_inserted _ _ _ _ _ _ Hd Hp), Hsplit.
        by destruct (keptIds (haloNodeList s) (getNodalIndex s <$> range v)). }
      pose proof (built_start_concat _ _ _ _ sd r p Hb
                    (decomposition_countsInserted _ _ _ _ Hd) Hp Hne) as Hstart.
      rewrite decomposition_inserted_all in Hstart by done.
      unfold rangeStart in Hstart. rewrite Hrg in Hstart.
      rewrite <-Hstart.
      rewrite (assignFrom_lookup_NoDup _ _ ∅ j (getNodalIndex s v)); [done| |done].
      pose proof (owned_once _ _ Hd) as Hnd.
      rewrite <-(take_drop_middle _ r (physicalIds (solverOf sd p))) in Hnd
        by (by rewrite list_lookup_fmap, Hp).
      rewrite concat_app in Hnd. simpl in Hnd.
      apply NoDup_app in Hnd as (_ & _ & Hnd).
      by apply NoDup_app in Hnd as (Hnd & _ & _).
Qed.

Lemma merged_map_agrees_with_getGlobalIndex_witness :
  ∃ m g,
    Manager_init (fluidOf haloRank1) (solidOf haloRank1) 2 "steady"
      (Some (haloComm 1)) = Ok m
    ∧ getGlobalIndex (domainOf Fluid) 1
        (Z.of_nat (length (keptIds (haloNodeList (solverFrom 12 2 2 ∅))
                             (getNodalIndex (solverFrom 12 2 2 ∅) <$> range 1)))) m
      = Ok (g, m)
    ∧ indexingOf Fluid m !! getNodalIndex (solverFrom 12 2 2 ∅) 1 = Some g.
Proof.
  destruct haloWorld_built_on_rank1 as [m Hm].
  destruct (merged_map_agrees_with_getGlobalIndex
              (fluidOf haloRank1) (solidOf haloRank1) 2 "steady" (Some (haloComm 1))
              m Fluid 1 haloRank1 (solverFrom 12 2 2 ∅) 1) as (g & H1 & H2).
  - reflexivity.
  - exact Hm.
  - exact (haloWorld_decomposition Fluid).
  - reflexivity.
  - reflexivity.
  - simpl. lia.
  - reflexivity.
  - exists m, g. by repeat split.
Defined.

(** * Further properties of the VLM numbering *)

(** X14: with at most 10000 wing vertices and at most 10000 flap vertices
    [getNodalIndex] is strictly increasing: the nodal indices come in the
    order of the vertex positions. *)
Theorem getNodalIndex_increasing (self : VLM.VLMSolver) (i j : Z) :
  VLM.nvert (VLM.wing (VLM.data self)) ≤ 10000 →
  VLM.nvert (VLM.flap (VLM.data self)) ≤ 10000 →
  i < j →
  VLM.getNodalIndex self i < VLM.getNodalIndex self j.
Proof.
  intros HW HF Hij.
  fold (wingVertices self) in HW. fold (flapVertices self) in HF.
  destruct (getNodalIndex_band self i) as [(?&?&Ei)|[(?&?&Ei&?)|(?&Ei&?)]];
    destruct (getNodalIndex_band self j) as [(?&?&Ej)|[(?&?&Ej&?)|(?&Ej&?)]];
    lia.
Qed.

Lemma getNodalIndex_increasing_witness :
  VLM.getNodalIndex smallVLM 3 < VLM.getNodalIndex smallVLM 4.
Proof.
  apply (getNodalIndex_increasing smallVLM 3 4); simpl; lia.
Defined.

(** X15: with between 0 and 10000 wing vertices and between 0 and 10000
    flap vertices, the band of a nodal index tells the branch that made it:
    at most 10000 exactly for the positions up to the wing count (that
    position included, which keeps its own number); from 10001 to 20000
    exactly for the next positions up to wing count plus flap count, which
    get 10000 plus their offset; above 20000 exactly for the positions
    beyond.  A position below [nNodes] stays below 20000 plus the aileron
    count. *)
Theorem getNodalIndex_bands (self : VLM.VLMSolver) (i : Z) :
  0 ≤ VLM.nvert (VLM.wing (VLM.data self)) ≤ 10000 →
  0 ≤ VLM.nvert (VLM.flap (VLM.data self)) ≤ 10000 →
  (VLM.getNodalIndex self i ≤ 10000 ↔ i ≤ wingVertices self)
  ∧ (i ≤ wingVertices self → VLM.getNodalIndex self i = i)
  ∧ (10000 < VLM.getNodalIndex self i ≤ 20000
     ↔ wingVertices self < i ≤ wingVertices self + flapVertices self)
  ∧ (wingVertices self < i ≤ wingVertices self + flapVertices self →
     VLM.getNodalIndex self i = 10000 + (i - wingVertices self))
  ∧ (20000 < VLM.getNodalIndex self i
     ↔ wingVertices self + flapVertices self < i)
  ∧ (wingVertices self + flapVertices self < i →
     VLM.getNodalIndex self i
     = 20000 + (i - wingVertices self - flapVertices self))
  ∧ (i < VLM.nNodes self →
     VLM.getNodalIndex self i
     < 20000 + Z.max 1 (VLM.nvert (VLM.aileron (VLM.data self)))).
Proof.
  intros HW HF.
  fold (wingVertices self) in HW. fold (flapVertices self) in HF.
  unfold VLM.nNodes. fold (wingVertices self) (flapVertices self).
  destruct (getNodalIndex_band self i) as [(?&?&Ei)|[(?&?&Ei&?)|(?&Ei&?)]];
    repeat split; intros; lia.
Qed.

Lemma getNodalIndex_bands_witness :
  (VLM.getNodalIndex smallVLM 3 ≤ 10000 ↔ 3 ≤ wingVertices smallVLM)
  ∧ (3 ≤ wingVertices smallVLM → VLM.getNodalIndex smallVLM 3 = 3)
  ∧ (10000 < VLM.getNodalIndex smallVLM 3 ≤ 20000
     ↔ wingVertices smallVLM < 3 ≤ wingVertices smallVLM + flapVertices smallVLM)
  ∧ (wingVertices smallVLM < 3 ≤ wingVertices smallVLM + flapVertices smallVLM →
     VLM.getNodalIndex smallVLM 3 = 10000 + (3 - wingVertices smallVLM))
  ∧ (20000 < VLM.getNodalIndex smallVLM 3
     ↔ wingVertices smallVLM + flapVertices smallVLM < 3)
  ∧ (wingVertices smallVLM + flapVertices smallVLM < 3 →
     VLM.getNodalIndex smallVLM 3
     = 20000 + (3 - wingVertices smallVLM - flapVertices smallVLM))
  ∧ (3 < VLM.nNodes smallVLM →
     VLM.getNodalIndex smallVLM 3
     < 20000 + Z.max 1 (VLM.nvert (VLM.aileron (VLM.data smallVLM)))).
Proof.
  apply (getNodalIndex_bands smallVLM 3); simpl; lia.
Defined.

(** X16: the bound of 10000 is needed.  With more than 10000 wing vertices
    and a flap, position 10001 and the first flap-branch position both get
    nodal index 10001; with more than 10000 flap vertices, a flap-branch
    position and the first aileron-branch position both get 20001. *)
Theorem getNodalIndex_collides_beyond_the_band (self : VLM.VLMSolver) :
  (10000 < wingVertices self → 1 ≤ flapVertices self →
   10001 ≠ wingVertices self + 1
   ∧ VLM.getNodalIndex self 10001 = VLM.getNodalIndex self (wingVertices self + 1))
  ∧ (0 ≤ wingVertices self → 10000 < flapVertices self →
     wingVertices self + 10001 ≠ wingVertices self + flapVertices self + 1
     ∧ VLM.getNodalIndex self (wingVertices self + 10001)
       = VLM.getNodalIndex self (wingVertices self + flapVertices self + 1)).
Proof.
  split.
  - intros HW HF. split; [lia|].
    rewrite (getNodalIndex_wing self 10001) by lia.
    rewrite (getNodalIndex_flap self (wingVertices self + 1)) by lia. lia.
  - intros HW HF. split; [lia|].
    rewrite (getNodalIndex_flap self (wingVertices self + 10001)) by lia.
    rewrite (getNodalIndex_aileron self (wingVertices self + flapVertices self + 1))
      by lia.
    lia.
Qed.

Lemma getNodalIndex_collides_beyond_the_band_witness :
  VLM.getNodalIndex wideVLM 10001 = VLM.getNodalIndex wideVLM 10003
  ∧ VLM.getNodalIndex wideVLM 20003 = VLM.getNodalIndex wideVLM 20005.
Proof.
  destruct (getNodalIndex_collides_beyond_the_band wideVLM) as [H1 H2].
  split.
  - apply H1; unfold wingVertices, flapVertices; simpl; lia.
  - apply H2; unfold wingVertices, flapVertices; simpl; lia.
Defined.

(** * The VLM solver and its core solver *)

(** ** [run] and [update] *)

Lemma updatesIn_app {float} (l1 l2 : list (VLMCore.Call float)) :
  updatesIn (l1 ++ l2) = updatesIn l1 ++ updatesIn l2.
Proof. apply omap_app. Qed.

Lemma runsIn_app {float} (l1 l2 : list (VLMCore.Call float)) :
  runsIn (l1 ++ l2) = (runsIn l1 + runsIn l2)%nat.
Proof. unfold runsIn. by rewrite omap_app, length_app. Qed.

Lemma runs_from {float} (fsub : float → float → float)
    (steps : list (float * float)) (st : VLMCore.State float) :
  let final := foldl (λ st tt, VLMCore.run fsub tt.1 tt.2 st) st steps in
  updatesIn (VLMCore.calls final)
  = updatesIn (VLMCore.calls st)
    ++ ((λ tt, fsub tt.2 tt.1)
          <$> (if VLMCore.isRun st then steps else tail steps))
  ∧ runsIn (VLMCore.calls final)
    = (runsIn (VLMCore.calls st) + length steps)%nat
  ∧ VLMCore.isRun final
    = (VLMCore.isRun st || match steps with [] => false | _ => true end).
Proof.
  revert st. induction steps as [|[t1 t2] steps IH]; intros st; simpl.
  - rewrite orb_false_r. destruct (VLMCore.isRun st); simpl;
      by rewrite app_nil_r, Nat.add_0_r.
  - destruct (IH (VLMCore.run fsub t1 t2 st)) as (Hu & Hr & Hi).
    simpl in Hu, Hr, Hi. rewrite Hu, Hr, Hi. clear Hu Hr Hi IH.
    unfold VLMCore.run, VLMCore.update. destruct (VLMCore.isRun st); simpl.
    + rewrite !updatesIn_app, !runsIn_app. simpl.
      rewrite app_nil_r, <-app_assoc. simpl. repeat split. unfold runsIn; simpl; lia.
    + rewrite !updatesIn_app, !runsIn_app. simpl.
      rewrite app_nil_r. repeat split. unfold runsIn; simpl; lia.
Qed.

(** X17: over any sequence of calls of [run] on a fresh solver, the core
    solver is run once per call, [isRun] is set as soon as one call was
    made, and the time steps passed to [FluidSolver.update] are the
    differences [t2 - t1] of all calls but the first: the first call never
    advances the solver. *)
Theorem run_advances_from_the_second_call {float} (fsub : float → float → float)
    (steps : list (float * float)) :
  updatesIn (VLMCore.calls
               (foldl (λ st tt, VLMCore.run fsub tt.1 tt.2 st)
                      VLMCore.initialState steps))
  = (λ tt, fsub tt.2 tt.1) <$> tail steps
  ∧ runsIn (VLMCore.calls
              (foldl (λ st tt, VLMCore.run fsub tt.1 tt.2 st)
                     VLMCore.initialState steps))
    = length steps
  ∧ (VLMCore.isRun (foldl (λ st tt, VLMCore.run fsub tt.1 tt.2 st)
                          VLMCore.initialState steps) = true
     ↔ steps ≠ []).
Proof.
  destruct (runs_from fsub steps VLMCore.initialState) as (Hu & Hr & Hi).
  simpl in Hu, Hr, Hi. rewrite Hu, Hr, Hi. repeat split.
  - by destruct steps.
  - by destruct steps.
Qed.

(** ** [applyNodalDisplacements] *)

Lemma movesOn_app {float} axis (l1 l2 : list (VLMCore.Call float)) :
  movesOn axis (l1 ++ l2) = movesOn axis l1 ++ movesOn axis l2.
Proof. apply omap_app. Qed.

Lemma foldM_app {S A} (body : S → A → result S) (l1 l2 : list A) (s : S) :
  foldM body (l1 ++ l2) s = foldM body l1 s ≫= foldM body l2.
Proof.
  revert s. induction l1 as [|a l1 IH]; intros s; simpl; [done|].
  destruct (body s a) as [s'|e]; simpl; [apply IH|done].
Qed.

Lemma seqZ_row (a n : Z) :
  2 ≤ n →
  seqZ a n = a :: ((λ jj, a + jj) <$> seqZ 1 (n - 1 - 1)) ++ [a + n - 1].
Proof.
  intros Hn. rewrite (seqZ_cons a n) by lia. f_equal.
  replace (Z.pred n) with ((n - 1 - 1) + 1) by lia.
  rewrite seqZ_app by lia. f_equal.
  - change (λ jj, a + jj) with (Z.add a). rewrite (fmap_add_seqZ a 1). f_equal; lia.
  - rewrite seqZ_cons, seqZ_nil by lia. f_equal; lia.
Qed.

Section Displacements.
Context {float : Type}.
Variable fmul : VLMCore.Literal → float → float.
Variables dx dy dz : list float.
Variable content : VLMCore.Axis → Z → float.

(** The arrays hold [content axis kk] at the indices [kk] satisfying
    [inGrid]. *)
Variable inGrid : Z → Prop.
Hypothesis reads : ∀ axis kk, inGrid kk →
  getitem (arrayOn axis dx dy dz) kk = Ok (content axis kk).

Lemma vertexCalls_moves kk calls :
  inGrid kk →
  ∃ calls', VLMCore.vertexCalls dx dy dz kk calls = Ok calls'
            ∧ ∀ axis, movesOn axis calls'
                      = movesOn axis calls ++ [(kk, content axis kk)].
Proof.
  intros Hk. unfold VLMCore.vertexCalls.
  pose proof (reads VLMCore.AxisX kk Hk) as Hx.
  pose proof (reads VLMCore.AxisY kk Hk) as Hy.
  pose proof (reads VLMCore.AxisZ kk Hk) as Hz.
  simpl in Hx, Hy, Hz. rewrite Hx. simpl. rewrite Hy. simpl. rewrite Hz. simpl.
  eexists. split; [reflexivity|].
  intros axis. rewrite !movesOn_app. by destruct axis; simpl; rewrite ?app_nil_r.
Qed.

Lemma collocationCalls_moves lit target src calls :
  inGrid src →
  ∃ calls', VLMCore.collocationCalls fmul lit dx dy dz target src calls = Ok calls'
            ∧ ∀ axis, movesOn axis calls' = movesOn axis calls.
Proof.
  intros Hk. unfold VLMCore.collocationCalls.
  pose proof (reads VLMCore.AxisX src Hk) as Hx.
  pose proof (reads VLMCore.AxisY src Hk) as Hy.
  pose proof (reads VLMCore.AxisZ src Hk) as Hz.
  simpl in Hx, Hy, Hz. rewrite Hx. simpl. rewrite Hy. simpl. rewrite Hz. simpl.
  eexists. split; [reflexivity|].
  intros axis. rewrite !movesOn_app. simpl. by rewrite !app_nil_r.
Qed.

Lemma interiorStep_moves n ii st jj :
  inGrid (ii * n + jj) →
  ∃ calls', VLMCore.interiorStep fmul dx dy dz n ii st jj = Ok (ii * n + jj, calls')
            ∧ ∀ axis, movesOn axis calls'
                      = movesOn axis st.2
                        ++ [(ii * n + jj, content axis (ii * n + jj))].
Proof.
  intros Hk. unfold VLMCore.interiorStep.
  destruct (vertexCalls_moves (ii * n + jj) st.2 Hk) as (c1 & -> & H1). simpl.
  destruct (collocationCalls_moves VLMCore.lit_0_75 (ii * n + jj) (ii * n + jj) c1 Hk)
    as (c2 & -> & H2). simpl.
  destruct (collocationCalls_moves VLMCore.lit_0_25 (ii * n + jj - 1) (ii * n + jj) c2 Hk)
    as (c3 & -> & H3). simpl.
  exists c3. split; [done|]. intros axis. by rewrite H3, H2, H1.
Qed.

Lemma interior_moves n ii (l : list Z) kk calls :
  (∀ jj, jj ∈ l → inGrid (ii * n + jj)) →
  ∃ st, foldM (VLMCore.interiorStep fmul dx dy dz n ii) l (kk, calls) = Ok st
        ∧ st.1 = match last l with Some jj => ii * n + jj | None => kk end
        ∧ ∀ axis, movesOn axis st.2
                  = movesOn axis calls
                    ++ ((λ jj, (ii * n + jj, content axis (ii * n + jj))) <$> l).
Proof.
  revert kk calls. induction l as [|jj l IH]; intros kk calls Hl; simpl.
  - eexists. split; [reflexivity|]. split; [done|]. intros axis. by rewrite app_nil_r.
  - destruct (interiorStep_moves n ii (kk, calls) jj) as (c1 & -> & H1).
    { apply Hl. by left. }
    simpl. destruct (IH (ii * n + jj) c1) as (st & -> & Hk & Hm).
    { intros jj' Hjj'. apply Hl. by right. }
    exists st. split; [done|]. split.
    + rewrite Hk. destruct l as [|a l']; [done|].
      change (last (jj :: a :: l')) with (last (a :: l')).
      destruct (last (a :: l')) eqn:E; [done|]. by apply last_None in E.
    + intros axis. rewrite Hm, H1. simpl. by rewrite <-app_assoc.
Qed.

Lemma rowStep_moves n ii calls :
  2 ≤ n →
  (∀ kk, ii * n ≤ kk < ii * n + n → inGrid kk) →
  ∃ calls', VLMCore.rowStep fmul dx dy dz n calls ii = Ok calls'
            ∧ ∀ axis, movesOn axis calls'
                      = movesOn axis calls
                        ++ ((λ kk, (kk, content axis kk)) <$> seqZ (ii * n) n).
Proof.
  intros Hn Hrow. unfold VLMCore.rowStep.
  destruct (vertexCalls_moves (ii * n) calls) as (c1 & -> & H1); [apply Hrow; lia|].
  simpl.
  destruct (collocationCalls_moves VLMCore.lit_0_75 (ii * n) (ii * n) c1)
    as (c2 & -> & H2); [apply Hrow; lia|].
  simpl.
  destruct (interior_moves n ii (seqZ 1 (n - 1 - 1)) (ii * n) c2)
    as (st & -> & Hk & Hm).
  { intros jj Hjj%elem_of_seqZ. apply Hrow. lia. }
  simpl.
  assert (st.1 + 1 = ii * n + n - 1) as Hlast.
  { rewrite Hk. destruct (decide (n = 2)) as [->|Hne]; [simpl; lia|].
    replace (n - 1 - 1) with (Z.of_nat (S (Z.to_nat (n - 3)))) by lia.
    rewrite seqZ_S, last_snoc. lia. }
  rewrite Hlast.
  destruct (vertexCalls_moves (ii * n + n - 1) st.2) as (c3 & -> & H3);
    [apply Hrow; lia|].
  simpl.
  destruct (collocationCalls_moves VLMCore.lit_0_25 (ii * n + n - 1 - 1)
              (ii * n + n - 1) c3) as (c4 & -> & H4); [apply Hrow; lia|].
  simpl.
  destruct (collocationCalls_moves VLMCore.lit_1_2 (ii * n + n - 1)
              (ii * n + n - 1) c4) as (c5 & -> & H5); [apply Hrow; lia|].
  simpl.
  destruct (collocationCalls_moves VLMCore.lit_minus_0_2 (ii * n + n - 1)
              (ii * n + n - 1 - 1) c5) as (c6 & -> & H6); [apply Hrow; lia|].
  exists c6. split; [done|]. intros axis.
  rewrite H6, H5, H4, H3, Hm, H2, H1.
  rewrite (seqZ_row (ii * n) n Hn). simpl.
  rewrite fmap_app, <-list_fmap_compose, <-!app_assoc. simpl. done.
Qed.

Lemma rows_move n (rows : nat) :
  2 ≤ n →
  (∀ kk, 0 ≤ kk < Z.of_nat rows * n → inGrid kk) →
  ∃ calls', foldM (VLMCore.rowStep fmul dx dy dz n) (seqZ 0 (Z.of_nat rows)) []
            = Ok calls'
            ∧ ∀ axis, movesOn axis calls'
                      = (λ kk, (kk, content axis kk)) <$> seqZ 0 (Z.of_nat rows * n).
Proof.
  intros Hn. induction rows as [|rows IH]; intros Hgrid.
  - exists []. split; [done|]. intros axis. by rewrite Z.mul_0_l.
  - destruct IH as (c1 & H1 & M1); [intros kk Hkk; apply Hgrid; nia|].
    rewrite seqZ_S, foldM_app, H1. simpl.
    destruct (rowStep_moves n (0 + Z.of_nat rows) c1 Hn) as (c2 & -> & M2).
    { intros kk Hkk. apply Hgrid. nia. }
    exists c2. split; [done|]. intros axis. rewrite M2, M1.
    replace (Z.of_nat (S rows) * n) with (Z.of_nat rows * n + n) by lia.
    rewrite seqZ_app, fmap_app by nia.
    by rewrite !Z.add_0_l.
Qed.

End Displacements.

(** X18: when every row has at least two vertices and the three arrays
    can be read at every index of the m x n grid, [applyNodalDisplacements]
    returns, and on each axis the core solver receives exactly one vertex
    move per grid index, in increasing index order, each with the entry of
    the array at that index. *)
Theorem applyNodalDisplacements_moves_each_vertex_once {float}
    (fmul : VLMCore.Literal → float → float) (coreSolver : VLMCore.CoreSolver)
    (dx dy dz : list float) (content : VLMCore.Axis → Z → float) :
  2 ≤ VLMCore.n coreSolver →
  (∀ axis kk, 0 ≤ kk < VLMCore.m coreSolver * VLMCore.n coreSolver →
     getitem (arrayOn axis dx dy dz) kk = Ok (content axis kk)) →
  ∃ calls,
    VLMCore.applyNodalDisplacements fmul coreSolver dx dy dz = Ok calls
    ∧ ∀ axis, movesOn axis calls
              = (λ kk, (kk, content axis kk))
                  <$> seqZ 0 (VLMCore.m coreSolver * VLMCore.n coreSolver).
Proof.
  intros Hn Hreads. unfold VLMCore.applyNodalDisplacements, range.
  destruct (Z_lt_le_dec (VLMCore.m coreSolver) 0) as [Hneg|Hpos].
  - rewrite seqZ_nil by lia. exists []. split; [done|].
    intros axis. by rewrite seqZ_nil by nia.
  - replace (VLMCore.m coreSolver) with (Z.of_nat (Z.to_nat (VLMCore.m coreSolver)))
      by lia.
    apply (rows_move fmul dx dy dz content
             (λ kk, 0 ≤ kk < VLMCore.m coreSolver * VLMCore.n coreSolver)).
    + intros axis kk Hkk. by apply Hreads.
    + done.
    + intros kk Hkk. lia.
Qed.

Lemma applyNodalDisplacements_grid_witness_reads :
  ∀ axis kk, 0 ≤ kk < 2 * 2 →
    getitem (arrayOn axis [10; 11; 12; 13] [20; 21; 22; 23] [30; 31; 32; 33]) kk
    = Ok (match axis with
          | VLMCore.AxisX => 10 | VLMCore.AxisY => 20 | VLMCore.AxisZ => 30
          end + kk).
Proof.
  intros axis kk Hkk.
  assert (kk = 0 ∨ kk = 1 ∨ kk = 2 ∨ kk = 3) as [-> | [-> | [-> | ->]]] by lia;
    by destruct axis.
Defined.

Lemma applyNodalDisplacements_moves_each_vertex_once_witness :
  ∃ calls,
    VLMCore.applyNodalDisplacements (λ _ x, x) {| VLMCore.m := 2; VLMCore.n := 2 |}
      [10; 11; 12; 13] [20; 21; 22; 23] [30; 31; 32; 33] = Ok calls
    ∧ ∀ axis, movesOn axis calls
              = (λ kk, (kk, match axis with
                            | VLMCore.AxisX => 10 | VLMCore.AxisY => 20
                            | VLMCore.AxisZ => 30
                            end + kk)) <$> seqZ 0 (2 * 2).
Proof.
  apply (applyNodalDisplacements_moves_each_vertex_once (λ _ x, x)
           {| VLMCore.m := 2; VLMCore.n := 2 |}
           [10; 11; 12; 13] [20; 21; 22; 23] [30; 31; 32; 33]
           (λ axis kk, match axis with
                       | VLMCore.AxisX => 10 | VLMCore.AxisY => 20
                       | VLMCore.AxisZ => 30
                       end + kk)).
  - simpl. lia.
  - exact applyNodalDisplacements_grid_witness_reads.
Defined.

(** ** What [applyNodalDisplacements] raises *)

Lemma bind_Raise {A B} (r : result A) (k : A → result B) e :
  r ≫= k = Raise e → r = Raise e ∨ ∃ a, r = Ok a ∧ k a = Raise e.
Proof. destruct r as [a|e']; intros H; [right; exists a; split; [reflexivity|exact H]|left; by inversion H]. Qed.

Lemma getitem_raises {A} (a : list A) k e :
  getitem a k = Raise e → e = IndexError.
Proof.
  unfold getitem, index. repeat case_bool_decide; repeat case_match; congruence.
Qed.

Lemma foldM_raises {S A} (body : S → A → result S) (l : list A) (s : S) e :
  (∀ s a e, body s a = Raise e → e = IndexError) →
  foldM body l s = Raise e → e = IndexError.
Proof.
  intros Hbody. revert s. induction l as [|a l IH]; intros s; simpl; [done|].
  intros [H|(s' & _ & H)]%bind_Raise; [by eapply Hbody; exact H|by eapply IH; exact H].
Qed.

Lemma vertexCalls_raises {float} (dx dy dz : list float) kk calls e :
  VLMCore.vertexCalls dx dy dz kk calls = Raise e → e = IndexError.
Proof.
  unfold VLMCore.vertexCalls.
  intros [H|(x & _ & [H|(y & _ & [H|(z & _ & H)]%bind_Raise)]%bind_Raise)]%bind_Raise;
    try discriminate H; by eapply getitem_raises; exact H.
Qed.

Lemma collocationCalls_raises {float} (fmul : VLMCore.Literal → float → float)
    lit (dx dy dz : list float) target src calls e :
  VLMCore.collocationCalls fmul lit dx dy dz target src calls = Raise e →
  e = IndexError.
Proof.
  unfold VLMCore.collocationCalls.
  intros [H|(x & _ & [H|(y & _ & [H|(z & _ & H)]%bind_Raise)]%bind_Raise)]%bind_Raise;
    try discriminate H; by eapply getitem_raises; exact H.
Qed.

Lemma interiorStep_raises {float} (fmul : VLMCore.Literal → float → float)
    (dx dy dz : list float) n ii st jj e :
  VLMCore.interiorStep fmul dx dy dz n ii st jj = Raise e → e = IndexError.
Proof.
  unfold VLMCore.interiorStep.
  intros [H|(c1 & _ & [H|(c2 & _ & [H|(c3 & _ & H)]%bind_Raise)]%bind_Raise)]%bind_Raise;
    try discriminate H;
    first [by eapply vertexCalls_raises; exact H
          |by eapply collocationCalls_raises; exact H].
Qed.

Lemma rowStep_raises {float} (fmul : VLMCore.Literal → float → float)
    (dx dy dz : list float) n calls ii e :
  VLMCore.rowStep fmul dx dy dz n calls ii = Raise e → e = IndexError.
Proof.
  unfold VLMCore.rowStep.
  intros [H|(c1 & _ & [H|(c2 & _ & [H|(st & _ & H)]%bind_Raise)]%bind_Raise)]%bind_Raise.
  - by eapply vertexCalls_raises; exact H.
  - by eapply collocationCalls_raises; exact H.
  - eapply foldM_raises; [|exact H]. intros s a e' H'.
    by eapply interiorStep_raises; exact H'.
  - simpl in H.
    apply bind_Raise in H as [H|(c3 & _ & [H|(c4 & _ & [H|(c5 & _ & H)]%bind_Raise)]%bind_Raise)];
      first [by eapply vertexCalls_raises; exact H
            |by eapply collocationCalls_raises; exact H].
Qed.

(** X20: a grid with a single vertex per row cannot be displaced: with
    [n = 1], at least one row and an x array no longer than the grid, the
    step after the inner loop reads [dx] one past the last row and
    [applyNodalDisplacements] raises [IndexError]. *)
Theorem applyNodalDisplacements_single_column_raises {float}
    (fmul : VLMCore.Literal → float → float) (coreSolver : VLMCore.CoreSolver)
    (dx dy dz : list float) :
  VLMCore.n coreSolver = 1 →
  1 ≤ VLMCore.m coreSolver →
  Z.of_nat (length dx) ≤ VLMCore.m coreSolver * VLMCore.n coreSolver →
  VLMCore.applyNodalDisplacements fmul coreSolver dx dy dz = Raise IndexError.
Proof.
  intros Hn Hm Hlen.
  destruct (VLMCore.applyNodalDisplacements fmul coreSolver dx dy dz)
    as [calls|e] eqn:E.
  - exfalso. unfold VLMCore.applyNodalDisplacements, range in E.
    rewrite Hn in E, Hlen.
    replace (VLMCore.m coreSolver)
      with (Z.of_nat (S (Z.to_nat (VLMCore.m coreSolver - 1)))) in E by lia.
    rewrite seqZ_S, foldM_app in E.
    apply bind_Ok in E as (s & _ & E). simpl in E.
    apply bind_Ok in E as (c & E & _). unfold VLMCore.rowStep in E.
    apply bind_Ok in E as (c1 & _ & E).
    apply bind_Ok in E as (c2 & _ & E).
    simpl in E.
    apply bind_Ok in E as (c3 & E & _). unfold VLMCore.vertexCalls in E.
    apply bind_Ok in E as (x & E & _). unfold getitem, index in E.
    rewrite bool_decide_true in E by lia.
    rewrite lookup_ge_None_2 in E by lia. done.
  - f_equal. unfold VLMCore.applyNodalDisplacements in E.
    eapply foldM_raises; [|exact E]. intros s a e' H.
    by eapply rowStep_raises; exact H.
Qed.

Lemma applyNodalDisplacements_single_column_raises_witness :
  VLMCore.applyNodalDisplacements (λ _ (x : Z), x)
    {| VLMCore.m := 3; VLMCore.n := 1 |} [10; 11; 12] [20; 21; 22] [30; 31; 32]
  = Raise IndexError.
Proof.
  apply (applyNodalDisplacements_single_column_raises (λ _ (x : Z), x)
           {| VLMCore.m := 3; VLMCore.n := 1 |}
           [10; 11; 12] [20; 21; 22] [30; 31; 32]); simpl; lia.
Defined.
